(** * WebDoc agent: risk gate, approval rendezvous, capture and exploration

    A shallow embedding of the decision logic of the WebDoc agent
    (src/agent/Risk.ts, src/agent/Agent.ts, src/browser/networkRecorder.ts
    and the session and exploration code of src/index.tsx), with the
    properties of its specification stated over that embedding.

    JavaScript strings are lists of characters.  The model covers ASCII
    text: case mapping touches the letters a-z / A-Z only, and the
    white-space class is the ASCII one.

    The program is single-threaded: a handler runs from one [await] to the
    next without interleaving, so every such stretch is a function on the
    state.  What the outside decides (the clock, the answers of the user,
    whether a navigation or a read of a body fails, the code of the
    listeners, the platform's URL parser) is an input of the model. *)

From Stdlib Require Import Ascii String.
From stdpp Require Import base decidable list gmap strings.

Set Default Proof Using "Type".

(** ** JavaScript strings *)

Module Str.

Abbreviation t := (list ascii).

(** A string literal of the source. *)
Definition lit (s : string) : t := list_ascii_of_string s.

Definition is_lower (c : ascii) : bool :=
  let n := nat_of_ascii c in (97 <=? n)%nat && (n <=? 122)%nat.

Definition is_upper (c : ascii) : bool :=
  let n := nat_of_ascii c in (65 <=? n)%nat && (n <=? 90)%nat.

Definition upper_char (c : ascii) : ascii :=
  if is_lower c then ascii_of_nat (nat_of_ascii c - 32) else c.

Definition lower_char (c : ascii) : ascii :=
  if is_upper c then ascii_of_nat (nat_of_ascii c + 32) else c.

(** [String.prototype.toUpperCase] and [toLowerCase]. *)
Definition toUpperCase (s : t) : t := upper_char <$> s.
Definition toLowerCase (s : t) : t := lower_char <$> s.

(** White space as [\s] and [trim] see it (ASCII part): space, tab,
    line feed, vertical tab, form feed, carriage return. *)
Definition is_space (c : ascii) : bool :=
  let n := nat_of_ascii c in
  (n =? 32)%nat || ((9 <=? n)%nat && (n <=? 13)%nat).

Fixpoint startsWith (p s : t) : bool :=
  match p, s with
  | [], _ => true
  | a :: p', b :: s' => if decide (a = b) then startsWith p' s' else false
  | _ :: _, [] => false
  end.

Definition endsWith (p s : t) : bool := startsWith (reverse p) (reverse s).

(** [String.prototype.includes]. *)
Fixpoint includes (p s : t) : bool :=
  startsWith p s ||
  match s with
  | [] => false
  | _ :: s' => includes p s'
  end.

Fixpoint trimStart (s : t) : t :=
  match s with
  | c :: s' => if is_space c then trimStart s' else s
  | [] => []
  end.

Definition trim (s : t) : t := reverse (trimStart (reverse (trimStart s))).

(** [s.split(".")]: the pieces between the separator characters. *)
Fixpoint split_on (sep : ascii) (s : t) : list t :=
  match s with
  | [] => [[]]
  | c :: s' =>
      if decide (c = sep) then [] :: split_on sep s'
      else match split_on sep s' with
           | piece :: rest => (c :: piece) :: rest
           | [] => [[c]]
           end
  end.

(** [parts.join(".")]. *)
Fixpoint join (sep : t) (parts : list t) : t :=
  match parts with
  | [] => []
  | [p] => p
  | p :: rest => p ++ sep ++ join sep rest
  end.

(** The substring relation the specification speaks of. *)
Definition contains (p s : t) : Prop := ∃ pre post, s = pre ++ p ++ post.

End Str.

(** ** Regular expressions

    The fragment of JavaScript regular expressions the sources use:
    literals, character classes, sequence, alternation and repetition,
    matched without anchors, with or without the [i] flag. *)

Module RegExp.

Inductive regex : Type :=
| Void : regex                       (* matches nothing *)
| Eps : regex                        (* the empty pattern *)
| Chr : ascii → regex                (* a literal character *)
| Cls : (ascii → bool) → regex       (* a character class *)
| Seq : regex → regex → regex
| Alt : regex → regex → regex
| Star : regex → regex.

(** A literal word. *)
Definition word (w : Str.t) : regex := foldr (λ c r, Seq (Chr c) r) Eps w.

(** [r+] *)
Definition plus (r : regex) : regex := Seq r (Star r).

(** [r1|r2|...] *)
Definition alts (rs : list regex) : regex := foldr Alt Void rs.

(** Character comparison; with the [i] flag both sides are canonicalised
    (upper-cased) first. *)
Definition chr_eqb (ignoreCase : bool) (c a : ascii) : bool :=
  if ignoreCase then bool_decide (Str.upper_char c = Str.upper_char a)
  else bool_decide (c = a).

Fixpoint nullable (r : regex) : bool :=
  match r with
  | Void => false
  | Eps => true
  | Chr _ => false
  | Cls _ => false
  | Seq r1 r2 => nullable r1 && nullable r2
  | Alt r1 r2 => nullable r1 || nullable r2
  | Star _ => true
  end.

(** What is left of [r] after reading [a]. *)
Fixpoint deriv (i : bool) (a : ascii) (r : regex) : regex :=
  match r with
  | Void => Void
  | Eps => Void
  | Chr c => if chr_eqb i c a then Eps else Void
  | Cls p => if p a then Eps else Void
  | Seq r1 r2 =>
      if nullable r1 then Alt (Seq (deriv i a r1) r2) (deriv i a r2)
      else Seq (deriv i a r1) r2
  | Alt r1 r2 => Alt (deriv i a r1) (deriv i a r2)
  | Star r1 => Seq (deriv i a r1) (Star r1)
  end.

(** Does [r] match at the start of [s]? *)
Fixpoint match_here (i : bool) (r : regex) (s : Str.t) : bool :=
  nullable r ||
  match s with
  | [] => false
  | a :: s' => match_here i (deriv i a r) s'
  end.

(** [RegExp.prototype.test] / a truthy [String.prototype.match]: the
    pattern matches somewhere in [s]. *)
Fixpoint test (i : bool) (r : regex) (s : Str.t) : bool :=
  match_here i r s ||
  match s with
  | [] => false
  | _ :: s' => test i r s'
  end.

(** The language of a pattern. *)
Inductive matches (i : bool) : regex → Str.t → Prop :=
| m_eps : matches i Eps []
| m_chr c a : chr_eqb i c a = true → matches i (Chr c) [a]
| m_cls (p : ascii → bool) a : p a = true → matches i (Cls p) [a]
| m_seq r1 r2 s1 s2 :
    matches i r1 s1 → matches i r2 s2 → matches i (Seq r1 r2) (s1 ++ s2)
| m_alt_l r1 r2 s : matches i r1 s → matches i (Alt r1 r2) s
| m_alt_r r1 r2 s : matches i r2 s → matches i (Alt r1 r2) s
| m_star_nil r : matches i (Star r) []
| m_star_cons r s1 s2 :
    matches i r s1 → matches i (Star r) s2 → matches i (Star r) (s1 ++ s2).

End RegExp.

(** ** Risk assessment (src/agent/Risk.ts) *)

Module Risk.
Import RegExp.

Inductive RiskLevel := low | medium | high.

#[global] Instance RiskLevel_eq_dec : EqDecision RiskLevel.
Proof. solve_decision. Defined.

(** [/checkout|payment|order|purchase|billing|subscription/] *)
Definition financial_keywords : list Str.t :=
  Str.lit <$> ["checkout"; "payment"; "order"; "purchase"; "billing";
               "subscription"]%string.

Definition financial_re : regex := alts (word <$> financial_keywords).

Definition not_slash (c : ascii) : bool := bool_decide (c ≠ "/"%char).

(** [/\/users\/[^/]+\/delete|\/account\/close|\/account\/delete/] *)
Definition account_re : regex :=
  alts [ Seq (word (Str.lit "/users/"))
             (Seq (plus (Cls not_slash)) (word (Str.lit "/delete")));
         word (Str.lit "/account/close");
         word (Str.lit "/account/delete") ].

(** [/\/auth\/|\/login|\/logout|\/register/] *)
Definition auth_paths : list Str.t :=
  Str.lit <$> ["/auth/"; "/login"; "/logout"; "/register"]%string.

Definition auth_re : regex := alts (word <$> auth_paths).

Definition assessRisk (method url : Str.t) : RiskLevel :=
  let upperMethod := Str.toUpperCase method in
  let lowerUrl := Str.toLowerCase url in
  if bool_decide (upperMethod = Str.lit "DELETE") then high
  else if test false financial_re lowerUrl then high
  else if test false account_re lowerUrl then high
  else if bool_decide (upperMethod = Str.lit "PUT")
          || bool_decide (upperMethod = Str.lit "PATCH") then medium
  else if test false auth_re lowerUrl then medium
  else low.

End Risk.

(** ** The agent core (src/agent/Agent.ts, src/agent/Events.ts) *)

Module Agent.
Import Risk.

Inductive ExecutionMode := EXECUTE | OBSERVE_ONLY | DOCUMENT_ONLY.
Inductive ApprovalDecision := yes | no | doc.
Inductive ActionDecision := act_yes | act_no.
Inductive NextStepsDecision := ns_actions | ns_network.
Inductive LlmStatus := thinking | idle.

#[global] Instance ExecutionMode_eq_dec : EqDecision ExecutionMode.
Proof. solve_decision. Defined.
#[global] Instance ApprovalDecision_eq_dec : EqDecision ApprovalDecision.
Proof. solve_decision. Defined.
#[global] Instance ActionDecision_eq_dec : EqDecision ActionDecision.
Proof. solve_decision. Defined.

(** The tagged union [AgentEvent]. *)
Inductive AgentEvent :=
| ev_info (message : Str.t)
| ev_ui_action (label : Str.t) (action : option Str.t)
| ev_action_suggestion (action : Str.t) (reason : option Str.t)
| ev_next_steps (summary question : Str.t)
| ev_user_prompt (prompt : Str.t)
| ev_llm_status (status : LlmStatus) (message : option Str.t)
| ev_approval_required (action method endpoint : Str.t)
    (preview : option Str.t) (risk : RiskLevel)
| ev_network (method url : Str.t) (status timestamp : Z)
| ev_flow (name step : Str.t)
| ev_mode_change (mode : ExecutionMode)
| ev_exploration_insight (page : Str.t) (apisFound : nat) (insight : Str.t)
    (apis : option (list Str.t))
| ev_exploration_summary (totalPages totalApis : nat) (summary : Str.t)
    (topFindings : list Str.t).

(** Listeners are callbacks, compared by identity ([l !== cb]); a
    listener is named by a number. *)
Definition Listener := nat.

(** What a listener may do to the agent while it handles an event:
    subscribe or unsubscribe a callback.  A listener returns; what it
    starts and leaves to run later (the rest of an [async] listener) is not
    part of its call. *)
Inductive Cmd :=
| cmd_onEvent (cb : Listener)
| cmd_offEvent (cb : Listener).

(** The payload of [requestApproval]. *)
Record ApprovalPayload := {
  ap_action : Str.t;
  ap_method : Str.t;
  ap_endpoint : Str.t;
  ap_preview : option Str.t;
  ap_risk : RiskLevel;
}.

(** The state of an [Agent] object.

    [this.listeners] is a reference to an array object: [push] changes
    the array it points to, [filter] builds a new one.  [arrays] is the
    store of array objects and [listeners] the address the field holds.

    A promise made by [requestApproval] is named by its index in
    [approvals], which holds [None] while the promise is pending and the
    decision once it is resolved; [resolver] holds the promise whose
    [resolve] function is parked in the slot.  The two other rendezvous
    are alike.  [invoked] is the history of listener calls. *)
Record t := mk {
  arrays : list (list Listener);
  listeners : nat;
  approvals : list (option ApprovalDecision);
  resolver : option nat;
  actionPromises : list (option ActionDecision);
  actionResolver : option nat;
  nextStepsPromises : list (option NextStepsDecision);
  nextStepsResolver : option nat;
  mode : ExecutionMode;
  invoked : list (Listener * AgentEvent);
}.

(** [new Agent()] *)
Definition init : t :=
  {| arrays := [[]]; listeners := 0;
     approvals := []; resolver := None;
     actionPromises := []; actionResolver := None;
     nextStepsPromises := []; nextStepsResolver := None;
     mode := OBSERVE_ONLY; invoked := [] |}.

Definition with_arrays (f : list (list Listener) → list (list Listener)) (a : t) : t :=
  mk (f (arrays a)) (listeners a) (approvals a) (resolver a)
     (actionPromises a) (actionResolver a)
     (nextStepsPromises a) (nextStepsResolver a) (mode a) (invoked a).

Definition with_listeners (l : nat) (a : t) : t :=
  mk (arrays a) l (approvals a) (resolver a)
     (actionPromises a) (actionResolver a)
     (nextStepsPromises a) (nextStepsResolver a) (mode a) (invoked a).

Definition with_approval (ps : list (option ApprovalDecision)) (r : option nat) (a : t) : t :=
  mk (arrays a) (listeners a) ps r
     (actionPromises a) (actionResolver a)
     (nextStepsPromises a) (nextStepsResolver a) (mode a) (invoked a).

Definition with_action (ps : list (option ActionDecision)) (r : option nat) (a : t) : t :=
  mk (arrays a) (listeners a) (approvals a) (resolver a)
     ps r (nextStepsPromises a) (nextStepsResolver a) (mode a) (invoked a).

Definition with_nextSteps (ps : list (option NextStepsDecision)) (r : option nat) (a : t) : t :=
  mk (arrays a) (listeners a) (approvals a) (resolver a)
     (actionPromises a) (actionResolver a) ps r (mode a) (invoked a).

Definition with_mode (m : ExecutionMode) (a : t) : t :=
  mk (arrays a) (listeners a) (approvals a) (resolver a)
     (actionPromises a) (actionResolver a)
     (nextStepsPromises a) (nextStepsResolver a) m (invoked a).

Definition with_invoked (h : list (Listener * AgentEvent)) (a : t) : t :=
  mk (arrays a) (listeners a) (approvals a) (resolver a)
     (actionPromises a) (actionResolver a)
     (nextStepsPromises a) (nextStepsResolver a) (mode a) h.

(** The array [this.listeners] points to. *)
Definition registered (a : t) : list Listener :=
  default [] (arrays a !! listeners a).

(** Calling [resolve(d)] on promise [p]: settles it if it is pending. *)
Definition settle {D} (p : nat) (d : D) (ps : list (option D)) : list (option D) :=
  match ps !! p with
  | Some None => <[p := Some d]> ps
  | _ => ps
  end.

Section WithListeners.
(** The code of the listeners. *)
Variable body : Listener → AgentEvent → list Cmd.

(** [this.listeners.push(cb)] *)
Definition onEvent (cb : Listener) (a : t) : t :=
  with_arrays (alter (λ arr, arr ++ [cb]) (listeners a)) a.

(** [this.listeners = this.listeners.filter((l) => l !== cb)] *)
Definition offEvent (cb : Listener) (a : t) : t :=
  let fresh := filter (λ l, l ≠ cb) (registered a) in
  with_listeners (length (arrays a)) (with_arrays (λ h, h ++ [fresh]) a).

Definition run_cmd (a : t) (c : Cmd) : t :=
  match c with
  | cmd_onEvent cb => onEvent cb a
  | cmd_offEvent cb => offEvent cb a
  end.

(** The call [l(event)]. *)
Definition call (l : Listener) (event : AgentEvent) (a : t) : t :=
  foldl run_cmd (with_invoked (invoked a ++ [(l, event)]) a) (body l event).

(** One turn of [Array.prototype.forEach] over the array at address
    [arr]: index [k] is visited if the array has it. *)
Definition forEach_turn (arr : nat) (event : AgentEvent) (a : t) (k : nat) : t :=
  match arrays a !! arr ≫= (λ l, l !! k) with
  | Some l => call l event a
  | None => a
  end.

(** [this.listeners.forEach((l) => l(event))]: the array and its length
    are read once, when the loop starts. *)
Definition emit (event : AgentEvent) (a : t) : t :=
  let arr := listeners a in
  let len := length (registered a) in
  foldl (forEach_turn arr event) a (seq 0 len).

Definition requestApproval (payload : ApprovalPayload) (a : t) : nat * t :=
  let a1 := emit (ev_approval_required (ap_action payload) (ap_method payload)
                    (ap_endpoint payload) (ap_preview payload) (ap_risk payload)) a in
  let p := length (approvals a1) in
  (p, with_approval (approvals a1 ++ [None]) (Some p) a1).

Definition resolveApproval (decision : ApprovalDecision) (a : t) : t :=
  match resolver a with
  | Some p => with_approval (settle p decision (approvals a)) None a
  | None => a
  end.

Definition requestActionDecision (action : Str.t) (reason : option Str.t) (a : t) : nat * t :=
  let a1 := emit (ev_action_suggestion action reason) a in
  let p := length (actionPromises a1) in
  (p, with_action (actionPromises a1 ++ [None]) (Some p) a1).

Definition resolveActionDecision (decision : ActionDecision) (a : t) : t :=
  match actionResolver a with
  | Some p => with_action (settle p decision (actionPromises a)) None a
  | None => a
  end.

Definition requestNextSteps (summary question : Str.t) (a : t) : nat * t :=
  let a1 := emit (ev_next_steps summary question) a in
  let p := length (nextStepsPromises a1) in
  (p, with_nextSteps (nextStepsPromises a1 ++ [None]) (Some p) a1).

Definition resolveNextSteps (decision : NextStepsDecision) (a : t) : t :=
  match nextStepsResolver a with
  | Some p => with_nextSteps (settle p decision (nextStepsPromises a)) None a
  | None => a
  end.

Definition setMode (m : ExecutionMode) (a : t) : t :=
  emit (ev_mode_change m) (with_mode m a).

(** What an [async] call hands back: a value that is there at once, or
    the outcome of a promise that is still awaited. *)
Inductive Awaited :=
| Now (v : option ApprovalDecision)
| Await (p : nat).

(** The value of an awaited result, once there is one. *)
Definition result_in (a : t) (r : Awaited) : option (option ApprovalDecision) :=
  match r with
  | Now v => Some v
  | Await p =>
      match approvals a !! p with
      | Some (Some d) => Some (Some d)
      | _ => None
      end
  end.

(** [`${method} ${url}`] *)
Definition describe (method url : Str.t) : Str.t := method ++ Str.lit " " ++ url.

Definition handleNetworkCall (method url : Str.t) (status timestamp : Z) (a : t) : Awaited * t :=
  let risk := assessRisk method url in
  let a1 := emit (ev_network method url status timestamp) a in
  let payload := {| ap_action := describe method url; ap_method := method;
                    ap_endpoint := url; ap_preview := None; ap_risk := risk |} in
  if bool_decide (risk = high) then
    let '(p, a2) := requestApproval payload a1 in (Await p, a2)
  else if bool_decide (risk = medium) && bool_decide (mode a1 = EXECUTE) then
    let '(p, a2) := requestApproval payload a1 in (Await p, a2)
  else (Now None, a1).

(** The calls a client can make on an agent, for histories of them. *)
Inductive Op :=
| op_onEvent (cb : Listener)
| op_offEvent (cb : Listener)
| op_emit (event : AgentEvent)
| op_requestApproval (payload : ApprovalPayload)
| op_resolveApproval (d : ApprovalDecision)
| op_requestActionDecision (action : Str.t) (reason : option Str.t)
| op_resolveActionDecision (d : ActionDecision)
| op_requestNextSteps (summary question : Str.t)
| op_resolveNextSteps (d : NextStepsDecision)
| op_setMode (m : ExecutionMode)
| op_handleNetworkCall (method url : Str.t) (status timestamp : Z).

Definition run_op (a : t) (o : Op) : t :=
  match o with
  | op_onEvent cb => onEvent cb a
  | op_offEvent cb => offEvent cb a
  | op_emit e => emit e a
  | op_requestApproval pl => (requestApproval pl a).2
  | op_resolveApproval d => resolveApproval d a
  | op_requestActionDecision act r => (requestActionDecision act r a).2
  | op_resolveActionDecision d => resolveActionDecision d a
  | op_requestNextSteps s q => (requestNextSteps s q a).2
  | op_resolveNextSteps d => resolveNextSteps d a
  | op_setMode m => setMode m a
  | op_handleNetworkCall m u s ts => (handleNetworkCall m u s ts a).2
  end.

Definition run (a : t) (ops : list Op) : t := foldl run_op a ops.

End WithListeners.

End Agent.

(** ** URLs

    [new URL(s)] is the platform's parser.  The code reads the host name
    and the path of the result and relies on the constructor throwing on
    text that is no URL; the parser is a parameter of the model ([None]
    stands for the exception). *)

Module Url.

Record t := mk { hostname : Str.t; pathname : Str.t }.

Definition parser := Str.t → option t.

(** The longest prefix of [s] without a character of class [stop], and
    the rest. *)
Fixpoint break_at (stop : ascii → bool) (s : Str.t) : Str.t * Str.t :=
  match s with
  | [] => ([], [])
  | c :: s' =>
      if stop c then ([], s)
      else let '(a, b) := break_at stop s' in (c :: a, b)
  end.

Definition is_alpha (c : ascii) : bool := Str.is_lower c || Str.is_upper c.

Definition is_scheme_char (c : ascii) : bool :=
  is_alpha c
  || (let n := nat_of_ascii c in (48 <=? n)%nat && (n <=? 57)%nat)
  || bool_decide (c = "+"%char) || bool_decide (c = "-"%char)
  || bool_decide (c = "."%char).

Definition is_one_of (cs : string) (c : ascii) : bool :=
  bool_decide (c ∈ Str.lit cs).

(** A parser for plain absolute URLs,
    [scheme://host[:port][/path][?query][#fragment]], used to run the
    model on concrete traffic.  Text without a scheme is rejected, as the
    platform's parser rejects it when no base URL is given. *)
Definition simple : parser := λ s,
  let '(scheme, rest) := break_at (λ c, negb (is_scheme_char c)) s in
  match scheme, rest with
  | c :: _, ":"%char :: "/"%char :: "/"%char :: rest' =>
      if is_alpha c then
        let '(authority, tail) := break_at (is_one_of "/?#") rest' in
        let '(host, _) := break_at (is_one_of ":") authority in
        let '(path, _) := break_at (is_one_of "?#") tail in
        if bool_decide (host = []) then None
        else Some (mk (Str.toLowerCase host)
                      (if bool_decide (path = []) then Str.lit "/" else path))
      else None
  | _, _ => None
  end.

End Url.

(** ** Captured calls (src/browser/networkRecorder.ts) *)

Module Capture.

Abbreviation Headers := (gmap Str.t Str.t).

Record CapturedCall := mkCall {
  method : Str.t;
  url : Str.t;
  status : Z;
  requestHeaders : Headers;
  responseHeaders : Headers;
  requestBody : option Str.t;
  responseBody : option Str.t;
  timestamp : Z;
}.

(** What the driver tells about a request: [request.method()],
    [request.url()], ...; [rq_id] is the identity of the object. *)
Record Request := mkRequest {
  rq_id : nat;
  rq_method : Str.t;
  rq_url : Str.t;
  rq_headers : Headers;
  rq_postData : option Str.t;
  rq_resourceType : Str.t;
}.

Record RequestInfo := mkInfo {
  ri_method : Str.t;
  ri_url : Str.t;
  ri_headers : Headers;
  ri_postData : option Str.t;
  ri_resourceType : Str.t;
  ri_timestamp : Z;
}.

(** What the driver tells about a response; [rs_text] is [None] when
    reading the body fails ([response.text()] rejects). *)
Record Response := mkResponse {
  rs_request : Request;
  rs_url : Str.t;
  rs_status : Z;
  rs_headers : Headers;
  rs_text : option Str.t;
}.

(** How a piece of code ends: it returns, or an exception leaves it; the
    state is the one reached at that point. *)
Inductive Completion (A : Type) :=
| Returned (a : A)
| Thrown (a : A).
Arguments Returned {A} a.
Arguments Thrown {A} a.

Definition state_of {A} (c : Completion A) : A :=
  match c with Returned a | Thrown a => a end.

Definition has_thrown {A} (c : Completion A) : bool :=
  match c with Returned _ => false | Thrown _ => true end.

End Capture.

Module Recorder.
Import Capture.

Section WithListenerState.
(** The state the capture listener works on. *)
Context {S : Type}.
Variable parseURL : Url.parser.

Record t := mk {
  requests : gmap nat RequestInfo;
  captureActive : bool;
  captureBaseDomain : option Str.t;
  includeThirdParty : bool;
  capturedCalls : list CapturedCall;
  onCapture : option (CapturedCall → S → S);
}.

Definition init : t :=
  {| requests := ∅; captureActive := false; captureBaseDomain := None;
     includeThirdParty := false; capturedCalls := []; onCapture := None |}.

(** The marker appended to a cut body. *)
Definition ellipsis : Str.t :=
  [ascii_of_nat 226; ascii_of_nat 128; ascii_of_nat 166].

(** The cap on a stored body, in characters. *)
Definition body_cap : Z := 20000.

Definition truncate (value : option Str.t) : option Str.t :=
  match value with
  | None | Some [] => None
  | Some v =>
      let trimmed := Str.trim v in
      if (Z.of_nat (length trimmed) <=? body_cap)%Z then Some trimmed
      else Some (take (Z.to_nat body_cap) trimmed ++ ellipsis)
  end.

(** [getBaseDomain]; [None] when [new URL] throws. *)
Definition getBaseDomain (url : Str.t) : option Str.t :=
  match parseURL url with
  | None => None
  | Some u =>
      let host := Url.hostname u in
      let parts := filter (λ p, p ≠ []) (Str.split_on "."%char host) in
      if (length parts <=? 2)%nat then Some host
      else Some (Str.join (Str.lit ".") (drop (length parts - 2) parts))
  end.

Definition isSameSite (host baseDomain : Str.t) : bool :=
  bool_decide (host = baseDomain)
  || Str.endsWith (Str.lit "." ++ baseDomain) host.

(** A string-or-null used as a condition. *)
Definition truthy (s : option Str.t) : bool :=
  match s with
  | None | Some [] => false
  | Some _ => true
  end.

(** [shouldCapture]; [None] when [new URL(info.url)] throws. *)
Definition shouldCapture (r : t) (info : RequestInfo) : option bool :=
  let resourceType := ri_resourceType info in
  if bool_decide (resourceType ≠ Str.lit "xhr")
     && bool_decide (resourceType ≠ Str.lit "fetch") then Some false
  else if negb (includeThirdParty r) && truthy (captureBaseDomain r) then
    match parseURL (ri_url info) with
    | None => None
    | Some u =>
        if negb (isSameSite (Url.hostname u) (default [] (captureBaseDomain r)))
        then Some false else Some true
    end
  else Some true.

(** [safeResponseBody]: the [try] block never lets an exception out. *)
Definition safeResponseBody (response : Response) : option Str.t :=
  let contentType := default [] (rs_headers response !! Str.lit "content-type") in
  if negb (Str.includes (Str.lit "application/json") contentType)
     && negb (Str.includes (Str.lit "text/plain") contentType) then None
  else match rs_text response with
       | None => None                  (* caught *)
       | Some text => truncate (Some text)
       end.

(** The [request] handler. *)
Definition on_request (rq : Request) (now : Z) (r : t) : t :=
  mk (<[rq_id rq := mkInfo (rq_method rq) (rq_url rq) (rq_headers rq)
                       (rq_postData rq) (rq_resourceType rq) now]> (requests r))
     (captureActive r) (captureBaseDomain r) (includeThirdParty r)
     (capturedCalls r) (onCapture r).

(** [a || b] on strings. *)
Definition or_else (a b : Str.t) : Str.t :=
  match a with [] => b | _ => a end.

(** The [response] handler up to its first [await]: the request record
    and the method are read here. *)
Definition response_info (response : Response) (r : t) : option RequestInfo :=
  requests r !! rq_id (rs_request response).

Definition response_method (response : Response) (r : t) : Str.t :=
  or_else (or_else (from_option ri_method [] (response_info response r))
                   (rq_method (rs_request response)))
          (Str.lit "GET").

(** The record the handler builds. *)
Definition build_call (response : Response) (info : RequestInfo)
    (method : Str.t) (now : Z) : CapturedCall :=
  {| method := method;
     url := rs_url response;
     status := rs_status response;
     requestHeaders := ri_headers info;
     responseHeaders := rs_headers response;
     requestBody := truncate (ri_postData info);
     responseBody := safeResponseBody response;
     timestamp := now |}.

(** The [response] handler after [await this.agent.handleNetworkCall]:
    the capture flag is read now, the request record was read before. *)
Definition response_capture (response : Response) (info : option RequestInfo)
    (method : Str.t) (now : Z) (st : t * S) : Completion (t * S) :=
  let '(r, s) := st in
  match info with
  | None => Returned st
  | Some info =>
      if negb (captureActive r) then Returned st
      else match shouldCapture r info with
           | None => Thrown st
           | Some false => Returned st
           | Some true =>
               let call := build_call response info method now in
               let r' := mk (requests r) (captureActive r) (captureBaseDomain r)
                            (includeThirdParty r) (capturedCalls r ++ [call])
                            (onCapture r) in
               match onCapture r with
               | Some listener => Returned (r', listener call s)
               | None => Returned (r', s)
               end
      end
  end.

(** [startCapture]: the fields are set in the order of the source, so
    an exception of [getBaseDomain] leaves the first three set. *)
Definition startCapture (baseUrl : Str.t) (third : bool) (r : t) : Completion t :=
  let r1 := mk (requests r) true (captureBaseDomain r) third [] (onCapture r) in
  match getBaseDomain baseUrl with
  | None => Thrown r1
  | Some d => Returned (mk (requests r) true (Some d) third [] (onCapture r))
  end.

Definition stopCapture (r : t) : t :=
  mk (requests r) false (captureBaseDomain r) (includeThirdParty r)
     (capturedCalls r) (onCapture r).

Definition getCapturedCalls (r : t) : list CapturedCall := capturedCalls r.

Definition setCaptureListener (l : option (CapturedCall → S → S)) (r : t) : t :=
  mk (requests r) (captureActive r) (captureBaseDomain r) (includeThirdParty r)
     (capturedCalls r) l.

End WithListenerState.

Arguments t : clear implicits.

End Recorder.

(** ** The session accumulator (src/index.tsx) *)

Module Session.
Import Capture.

Record t := mk {
  captureActive : bool;
  captureUniqueKeys : gset Str.t;
  sessionCalls : list CapturedCall;
}.

Definition init : t :=
  {| captureActive := false; captureUniqueKeys := ∅; sessionCalls := [] |}.

Section WithUrl.
Variable parseURL : Url.parser.
(** The URL the agent was opened on. *)
Variable url : Str.t.

Definition getApiKey (call : CapturedCall) : Str.t :=
  match parseURL (Capture.url call) with
  | Some parsed =>
      method call ++ Str.lit " " ++ Url.hostname parsed ++ Url.pathname parsed
  | None => method call ++ Str.lit " " ++ Capture.url call
  end.

(** The shared capture listener. *)
Definition onCapturedCall (call : CapturedCall) (s : t) : t :=
  let key := getApiKey call in
  if decide (key ∈ captureUniqueKeys s) then s
  else mk (captureActive s) (captureUniqueKeys s ∪ {[key]})
          (sessionCalls s ++ [call]).

(** [startCaptureSession], on the recorder and the session ([browser]
    is there once the agent runs). *)
Definition startCaptureSession (st : Recorder.t t * t) : Completion (Recorder.t t * t) :=
  let '(r, s) := st in
  if captureActive s then Returned st
  else
    let s1 := mk true (captureUniqueKeys s) (sessionCalls s) in
    match Recorder.startCapture parseURL url false r with
    | Thrown r1 => Thrown (r1, s1)
    | Returned r1 =>
        Returned (Recorder.setCaptureListener (Some onCapturedCall) r1, s1)
    end.

(** [finalizeCapture] up to the writing of the documents; the third
    component is the list handed to [writeDocs], if any. *)
Definition finalizeCapture (st : Recorder.t t * t)
    : Recorder.t t * t * option (list CapturedCall) :=
  let '(r, s) := st in
  if negb (captureActive s) then (r, s, None)
  else
    let s1 := mk false (captureUniqueKeys s) (sessionCalls s) in
    (Recorder.setCaptureListener None (Recorder.stopCapture r), s1,
     Some (sessionCalls s1)).

End WithUrl.

End Session.

(** ** The running system: agent, recorder and session under a stream of
    browser events and user commands

    Every handler runs from one suspension point to the next without
    interleaving.  A [response] handler that has to wait for an approval
    is parked with what it had read so far, and goes on when its promise is
    resolved.  Reading the response body is taken as one step with the
    rest of the handler. *)

Module World.
Import Capture.

Record Parked := mkParked {
  pk_promise : nat;
  pk_response : Response;
  pk_info : option RequestInfo;
  pk_method : Str.t;
}.

Record t := mk {
  agent : Agent.t;
  recorder : Recorder.t Session.t;
  session : Session.t;
  parked : list Parked;
  (** Requests whose [response] handler ended with an exception. *)
  rejected : list nat;
}.

Definition init : t :=
  {| agent := Agent.init; recorder := Recorder.init; session := Session.init;
     parked := []; rejected := [] |}.

Inductive Event :=
| request_observed (rq : Request) (now : Z)
| response_observed (response : Response) (now : Z)
| agent_called (o : Agent.Op) (now : Z)
| capture_started
| capture_finalized.

Section WithEnvironment.
Variable parseURL : Url.parser.
Variable url : Str.t.
Variable body : Agent.Listener → Agent.AgentEvent → list Agent.Cmd.

(** The rest of a [response] handler. *)
Definition resume (response : Response) (info : option RequestInfo)
    (method : Str.t) (now : Z) (w : t) : t :=
  match Recorder.response_capture parseURL response info method now
          (recorder w, session w) with
  | Returned (r, s) => mk (agent w) r s (parked w) (rejected w)
  | Thrown (r, s) =>
      mk (agent w) r s (parked w) (rejected w ++ [rq_id (rs_request response)])
  end.

Definition settled (a : Agent.t) (p : nat) : bool :=
  match Agent.approvals a !! p with
  | Some (Some _) => true
  | _ => false
  end.

(** The parked handlers whose promise has been resolved go on, oldest
    first; the others stay. *)
Definition wake (now : Z) (w : t) : t :=
  let ready := filter (λ k, settled (agent w) (pk_promise k) = true) (parked w) in
  let waiting := filter (λ k, settled (agent w) (pk_promise k) ≠ true) (parked w) in
  foldl (λ w' k, resume (pk_response k) (pk_info k) (pk_method k) now w')
        (mk (agent w) (recorder w) (session w) waiting (rejected w)) ready.

(** The [response] handler. *)
Definition on_response (response : Response) (now : Z) (w : t) : t :=
  let info := Recorder.response_info response (recorder w) in
  let method := Recorder.response_method response (recorder w) in
  let '(gate, a) := Agent.handleNetworkCall body method (rs_url response)
                      (rs_status response) now (agent w) in
  let w1 := mk a (recorder w) (session w) (parked w) (rejected w) in
  match gate with
  | Agent.Now _ => resume response info method now w1
  | Agent.Await p =>
      mk a (recorder w) (session w)
         (parked w ++ [mkParked p response info method]) (rejected w)
  end.

Definition step (w : t) (e : Event) : t :=
  match e with
  | request_observed rq now =>
      mk (agent w) (Recorder.on_request rq now (recorder w)) (session w)
         (parked w) (rejected w)
  | response_observed response now => on_response response now w
  | agent_called o now =>
      wake now (mk (Agent.run_op body (agent w) o) (recorder w) (session w)
                   (parked w) (rejected w))
  | capture_started =>
      let '(r, s) := state_of (Session.startCaptureSession parseURL url
                                 (recorder w, session w)) in
      mk (agent w) r s (parked w) (rejected w)
  | capture_finalized =>
      let '(r, s, _) := Session.finalizeCapture (recorder w, session w) in
      mk (agent w) r s (parked w) (rejected w)
  end.

Definition run (w : t) (es : list Event) : t := foldl step w es.

End WithEnvironment.

End World.

(** ** Exploration (src/index.tsx, [exploreVisiblePages])

    The model keeps the control flow of the run and what it does to the
    browser: the order of the candidates, the checks made on each of them,
    the navigations and their outcome.  The analysis of a visited page by
    the reasoning service is left out. *)

Module Explore.
Import RegExp.

Inductive CandidateType := link | button.

Record Candidate := mkCandidate {
  label : Str.t;
  href : option Str.t;
  type : CandidateType;
}.

Inductive Priority := prio_high | prio_medium | prio_low.

#[global] Instance Priority_eq_dec : EqDecision Priority.
Proof. solve_decision. Defined.

Record PrioritizedPage := mkPage {
  pp_label : Str.t;
  pp_priority : Priority;
}.

(** The part of the plan the run reads. *)
Record Plan := mkPlan {
  prioritizedPages : list PrioritizedPage;
  skipReasons : list Str.t;          (* the labels of the skip list *)
}.

(** The plain words of the unsafe pattern ([sign\s*out] is the one
    alternative that is not a plain word). *)
Definition unsafe_words : list Str.t :=
  Str.lit <$> ["logout"; "delete"; "remove"; "unsubscribe"; "checkout";
               "payment"; "order"; "purchase"; "buy"]%string.

(** [/(logout|sign\s*out|delete|remove|unsubscribe|checkout|payment|order|purchase|buy)/i] *)
Definition unsafe_re : regex :=
  alts [ word (Str.lit "logout");
         Seq (word (Str.lit "sign"))
             (Seq (Star (Cls Str.is_space)) (word (Str.lit "out")));
         word (Str.lit "delete");
         word (Str.lit "remove");
         word (Str.lit "unsubscribe");
         word (Str.lit "checkout");
         word (Str.lit "payment");
         word (Str.lit "order");
         word (Str.lit "purchase");
         word (Str.lit "buy") ].

Definition isUnsafeLabel (label : Str.t) : bool := test true unsafe_re label.

(** [candidate.href] where the code uses it as a condition: an absent or
    empty link counts as none. *)
Definition href_of (c : Candidate) : option Str.t :=
  match href c with
  | Some ((_ :: _) as h) => Some h
  | _ => None
  end.

(** How the outside answers during a run, by position in the order of
    visit. *)
Record Env := mkEnv {
  (** the navigation returns ([true]) or throws ([false]) *)
  navigates : nat → Candidate → bool;
  (** the answer to [requestActionDecision]; [None]: it never comes *)
  decides : nat → Candidate → option Agent.ActionDecision;
  (** the steps between the navigation and the recording of the page
      (screenshot, page context) return, or an exception ends the run *)
  completes : nat → Candidate → bool;
  (** [goBackOrNavigate] returns, or its exception ends the run *)
  returns : nat → Candidate → bool;
}.

(** What a run does to the browser: it goes to a candidate, with
    [navigateSoft(candidate.href)] when the candidate has a link and
    [performSuggestedAction(candidate.label)] otherwise, or it goes back
    to where it started; the call returns or throws. *)
Inductive Action :=
| navigation (c : Candidate) (returned : bool)
| goBackOrNavigate (target : Str.t) (returned : bool).

(** How a run ends: the loop is left, an exception outside the [try] of
    the navigation ends it, or it waits for an answer that never comes. *)
Inductive Ending := finished | aborted | stalled.

(** The variables of the loop ([explored], [visited],
    [pagesExploredNames]), what was done to the browser ([actions]) and
    what the loop itself told the agent ([emitted]: its messages and its
    questions about risky candidates). *)
Record State := mkState {
  explored : nat;
  visited : gset Str.t;
  pagesExploredNames : list Str.t;
  actions : list Action;
  emitted : list Agent.AgentEvent;
}.

Definition start : State :=
  {| explored := 0; visited := ∅; pagesExploredNames := []; actions := [];
     emitted := [] |}.

Definition emit (e : Agent.AgentEvent) (st : State) : State :=
  mkState (explored st) (visited st) (pagesExploredNames st) (actions st)
          (emitted st ++ [e]).

Definition act (a : Action) (st : State) : State :=
  mkState (explored st) (visited st) (pagesExploredNames st) (actions st ++ [a])
          (emitted st).

(** A label between double quotes. *)
Definition quoted (s : Str.t) : Str.t := [ascii_of_nat 34] ++ s ++ [ascii_of_nat 34].

Section WithUrl.
Variable parseURL : Url.parser.
(** The URL the agent was opened on, and the URL of the page when the
    run starts. *)
Variable url baseUrl : Str.t.

Definition isRiskyNavigation (c : Candidate) : bool :=
  if isUnsafeLabel (label c) then true
  else match href_of c with
       | None => false
       | Some h =>
           match parseURL h, parseURL url with
           | Some target, Some base =>
               let targetHost := Url.hostname target in
               let baseHost := Url.hostname base in
               bool_decide (targetHost ≠ baseHost)
               && negb (Str.endsWith (Str.lit "." ++ baseHost) targetHost)
           | _, _ => true                     (* caught *)
           end
       end.

(** *** Phase 1: the order of visit *)

Definition with_priority (p : Priority) (plan : Plan) : list PrioritizedPage :=
  filter (λ pp, pp_priority pp = p) (prioritizedPages plan).

Definition priorityOrder (plan : Plan) : list PrioritizedPage :=
  with_priority prio_high plan ++ with_priority prio_medium plan
  ++ with_priority prio_low plan.

Definition key (c : Candidate) : Str.t := Str.toLowerCase (label c).

Definition place_planned (candidates : list Candidate)
    (acc : list Candidate * gset Str.t) (pp : PrioritizedPage)
    : list Candidate * gset Str.t :=
  let '(ordered, usedLabels) := acc in
  match List.find (λ c, bool_decide (key c = Str.toLowerCase (pp_label pp))
                        && bool_decide (key c ∉ usedLabels)) candidates with
  | Some c => (ordered ++ [c], usedLabels ∪ {[key c]})
  | None => acc
  end.

Definition place_rest (acc : list Candidate * gset Str.t) (c : Candidate)
    : list Candidate * gset Str.t :=
  let '(ordered, usedLabels) := acc in
  if decide (key c ∈ usedLabels) then acc
  else (ordered ++ [c], usedLabels ∪ {[key c]}).

Definition orderedCandidates (candidates : list Candidate) (plan : Plan)
    : list Candidate :=
  (foldl place_rest
     (foldl (place_planned candidates) ([], ∅) (priorityOrder plan))
     candidates).1.

(** *** Phase 2: the visits *)

Variable env : Env.
Variable skipLabels : gset Str.t.

(** The outcome of one turn of the loop: go on with the next candidate,
    or the run ends here. *)
Inductive Turn :=
| Next (st : State)
| End (how : Ending) (st : State).

Definition state_after (t : Turn) : State :=
  match t with Next st | End _ st => st end.

(** From the navigation on: the candidate passed every check. *)
Definition navigate (i : nat) (c : Candidate) (st : State) : Turn :=
  let st := emit (Agent.ev_info (Str.lit "Exploring " ++ quoted (label c)
                                   ++ Str.lit "...")) st in
  let failed st :=
    Next (emit (Agent.ev_info (Str.lit "Navigation failed for "
                                 ++ quoted (label c) ++ Str.lit ". Skipping.")) st) in
  let arrived st :=
    let st := mkState (Datatypes.S (explored st)) (visited st)
                      (pagesExploredNames st) (actions st) (emitted st) in
    if completes env i c then
      let st := mkState (explored st) (visited st)
                        (pagesExploredNames st ++ [label c]) (actions st)
                        (emitted st) in
      if returns env i c then Next (act (goBackOrNavigate baseUrl true) st)
      else End aborted (act (goBackOrNavigate baseUrl false) st)
    else End aborted st in
  if navigates env i c then
    let st := act (navigation c true) st in
    match href_of c with
    | Some h =>
        arrived (mkState (explored st) (visited st ∪ {[h]})
                         (pagesExploredNames st) (actions st) (emitted st))
    | None => arrived st
    end
  else failed (act (navigation c false) st).

(** The body of the loop, below the budget test. *)
Definition turn (i : nat) (c : Candidate) (st : State) : Turn :=
  if isUnsafeLabel (label c) then Next st
  else if bool_decide (key c ∈ skipLabels) && negb (isRiskyNavigation c) then
    Next (emit (Agent.ev_info (Str.lit "Skipping " ++ quoted (label c)
                                 ++ Str.lit " (low API value).")) st)
  else if from_option (λ h, bool_decide (h ∈ visited st)) false (href_of c) then Next st
  else if isRiskyNavigation c then
    let st := emit (Agent.ev_action_suggestion
                      (Str.lit "Open " ++ quoted (label c))
                      (Some (default (Str.lit "Visible button") (href_of c)))) st in
    match decides env i c with
    | None => End stalled st
    | Some d => if decide (d ≠ Agent.act_yes) then Next st else navigate i c st
    end
  else navigate i c st.

(** [for (const candidate of orderedCandidates)] *)
Fixpoint visit (i : nat) (cs : list Candidate) (st : State) : Ending * State :=
  match cs with
  | [] => (finished, st)
  | c :: rest =>
      if (8 <=? explored st)%nat then (finished, st)
      else match turn i c st with
           | Next st' => visit (Datatypes.S i) rest st'
           | End how st' => (how, st')
           end
  end.

End WithUrl.

(** [exploreVisiblePages], from the candidates and the plan on. *)
Definition exploreVisiblePages (parseURL : Url.parser) (url baseUrl : Str.t)
    (env : Env) (candidates : list Candidate) (plan : Plan) : Ending * State :=
  match candidates with
  | [] => (finished,
           emit (Agent.ev_info (Str.lit "No visible navigation items found.")) start)
  | _ =>
      let skipLabels : gset Str.t :=
        list_to_set (Str.toLowerCase <$> skipReasons plan) in
      visit parseURL url baseUrl env skipLabels 0
            (orderedCandidates candidates plan) start
  end.

Definition attempt_of (a : Action) : option (Candidate * bool) :=
  match a with
  | navigation c ok => Some (c, ok)
  | goBackOrNavigate _ _ => None
  end.

(** The candidates a run tried to open, with the outcome of each try. *)
Definition attempts (st : State) : list (Candidate * bool) :=
  omap attempt_of (actions st).

(** The candidates whose page was opened. *)
Definition visits (st : State) : list Candidate :=
  (filter (λ a, a.2 = true) (attempts st)).*1.

End Explore.

(** ** The specification's side

    What the specification says in its own words, for the comparisons
    below. *)

Module Spec.
Import Risk.

(** *** Risk tiers (section 4.2) *)

(** The URL, lower-cased, contains one of the financial keywords:
    checkout, payment, order, purchase, billing, subscription. *)
Definition financial (u : Str.t) : Prop :=
  Str.contains (Str.lit "checkout") u ∨ Str.contains (Str.lit "payment") u
  ∨ Str.contains (Str.lit "order") u ∨ Str.contains (Str.lit "purchase") u
  ∨ Str.contains (Str.lit "billing") u ∨ Str.contains (Str.lit "subscription") u.

(** The URL is an account-deletion path: [/users/<id>/delete] with a
    non-empty [<id>] free of slashes, [/account/close] or
    [/account/delete]. *)
Definition account_deletion (u : Str.t) : Prop :=
  (∃ pre id post,
      u = pre ++ Str.lit "/users/" ++ id ++ Str.lit "/delete" ++ post
      ∧ id ≠ [] ∧ "/"%char ∉ id)
  ∨ Str.contains (Str.lit "/account/close") u
  ∨ Str.contains (Str.lit "/account/delete") u.

(** The URL is an authentication path: it contains [/auth/], [/login],
    [/logout] or [/register]. *)
Definition auth (u : Str.t) : Prop :=
  Str.contains (Str.lit "/auth/") u ∨ Str.contains (Str.lit "/login") u
  ∨ Str.contains (Str.lit "/logout") u ∨ Str.contains (Str.lit "/register") u.

(** The six rules in their order: a rule applies when none before it
    does. *)
Inductive classify (method url : Str.t) : RiskLevel → Prop :=
| rule_delete :
    Str.toUpperCase method = Str.lit "DELETE" →
    classify method url high
| rule_financial :
    Str.toUpperCase method ≠ Str.lit "DELETE" →
    financial (Str.toLowerCase url) →
    classify method url high
| rule_account :
    Str.toUpperCase method ≠ Str.lit "DELETE" →
    ¬ financial (Str.toLowerCase url) →
    account_deletion (Str.toLowerCase url) →
    classify method url high
| rule_modify :
    Str.toUpperCase method = Str.lit "PUT"
    ∨ Str.toUpperCase method = Str.lit "PATCH" →
    ¬ financial (Str.toLowerCase url) →
    ¬ account_deletion (Str.toLowerCase url) →
    classify method url medium
| rule_auth :
    Str.toUpperCase method ∉ Str.lit <$> ["DELETE"; "PUT"; "PATCH"]%string →
    ¬ financial (Str.toLowerCase url) →
    ¬ account_deletion (Str.toLowerCase url) →
    auth (Str.toLowerCase url) →
    classify method url medium
| rule_otherwise :
    Str.toUpperCase method ∉ Str.lit <$> ["DELETE"; "PUT"; "PATCH"]%string →
    ¬ financial (Str.toLowerCase url) →
    ¬ account_deletion (Str.toLowerCase url) →
    ¬ auth (Str.toLowerCase url) →
    classify method url low.

(** *** Event dispatch (sections 4.1 and 5) *)

(** What a subscription call of a handler does to the list of
    listeners. *)
Definition subscription (ls : list Agent.Listener) (c : Agent.Cmd) : list Agent.Listener :=
  match c with
  | Agent.cmd_onEvent cb => ls ++ [cb]
  | Agent.cmd_offEvent cb => filter (λ l, l ≠ cb) ls
  end.

(** The listeners after a dispatch over the snapshot [ls]: the
    subscription calls of the handlers, in the order they ran. *)
Definition after_dispatch (body : Agent.Listener → Agent.AgentEvent → list Agent.Cmd)
    (event : Agent.AgentEvent) (ls : list Agent.Listener) : list Agent.Listener :=
  foldl subscription ls (ls ≫= λ l, body l event).

(** The calls of a dispatch over the snapshot [ls]. *)
Definition dispatch (event : Agent.AgentEvent) (ls : list Agent.Listener)
    : list (Agent.Listener * Agent.AgentEvent) :=
  (λ l, (l, event)) <$> ls.

(** *** Unsafe labels (section 4.4) *)

(** A label is unsafe when, whatever the case of its letters, it contains
    one of the words of the pattern, or [sign] and [out] with nothing but
    white space between them. *)
Definition unsafe_label (l : Str.t) : Prop :=
  (∃ w, w ∈ Explore.unsafe_words
        ∧ Str.contains (Str.toUpperCase w) (Str.toUpperCase l))
  ∨ (∃ gap, Forall (λ c, Str.is_space c = true) gap
            ∧ Str.contains
                (Str.toUpperCase (Str.lit "sign" ++ gap ++ Str.lit "out"))
                (Str.toUpperCase l)).

(** *** Deduplication (sections 3 and 4.3) *)

(** First occurrence wins: the [i]-th call of a stream is kept when no
    call before it has its key. *)
Definition first_of_key {A K : Type} `{EqDecision K} (key : A → K) (calls : list A)
    (i : nat) (c : A) : bool :=
  bool_decide (key c ∉ key <$> take i calls).

Definition first_occurrences {A K : Type} `{EqDecision K} (key : A → K)
    (calls : list A) : list A :=
  (filter (λ ic, first_of_key key calls ic.1 ic.2 = true) (imap pair calls)).*2.

(** *** Same-site policy (section 4.3) *)

(** The labels of a host name. *)
Definition labels (host : Str.t) : list Str.t :=
  filter (λ p, p ≠ []) (Str.split_on "."%char host).

(** The registrable base domain: the last two labels. *)
Definition registrable (host : Str.t) : list Str.t :=
  let ls := labels host in drop (length ls - 2) ls.

Definition shares_base_domain (host baseHost : Str.t) : Prop :=
  registrable host = registrable baseHost.

(** When a response is to give a captured call: a capture session is
    active, the request of the response was recorded, it is an XHR or a
    fetch and, unless third parties are included, its host shares the base
    domain of the base URL of the capture. *)
Definition capture_expected (parseURL : Url.parser) (baseUrl : Str.t)
    (active third : bool) (info : option Capture.RequestInfo) : Prop :=
  active = true
  ∧ ∃ i, info = Some i
    ∧ (Capture.ri_resourceType i = Str.lit "xhr"
       ∨ Capture.ri_resourceType i = Str.lit "fetch")
    ∧ (third = true
       ∨ ∃ u b, parseURL (Capture.ri_url i) = Some u ∧ parseURL baseUrl = Some b
                ∧ shares_base_domain (Url.hostname u) (Url.hostname b)).

End Spec.

(** ** Invariants and other notions of the proofs *)

Module Inv.

(** *** The agent *)

(** The listener field points into the store. *)
Definition wf (a : Agent.t) : Prop := Agent.listeners a < length (Agent.arrays a).

(** Everything but the listeners and the history of calls. *)
Definition rendezvous (a : Agent.t) :=
  (Agent.approvals a, Agent.resolver a, Agent.actionPromises a,
   Agent.actionResolver a, Agent.nextStepsPromises a, Agent.nextStepsResolver a,
   Agent.mode a).

(** The array at [arr] still starts with [snap]. *)
Definition extends (arr : nat) (snap : list Agent.Listener) (a : Agent.t) : Prop :=
  ∃ extra, Agent.arrays a !! arr = Some (snap ++ extra).

(** A promise that is pending and not in the slot. *)
Definition orphan (p : nat) (a : Agent.t) : Prop :=
  Agent.approvals a !! p = Some None ∧ Agent.resolver a ≠ Some p.

(** The promise in the slot, if any, is pending. *)
Definition slot_pending (a : Agent.t) : Prop :=
  ∀ p, Agent.resolver a = Some p → Agent.approvals a !! p = Some None.

(** The event [handleNetworkCall] emits first. *)
Definition network_event (method url : Str.t) (status timestamp : Z) : Agent.AgentEvent :=
  Agent.ev_network method url status timestamp.

(** The request for approval [handleNetworkCall] makes. *)
Definition approval_event (method url : Str.t) : Agent.AgentEvent :=
  Agent.ev_approval_required (Agent.describe method url) method url None
    (Risk.assessRisk method url).

(** *** The recorder and the session *)

(** The host is the base domain or a subdomain of it. *)
Definition same_site (host baseDomain : Str.t) : Prop :=
  host = baseDomain ∨ ∃ sub, host = sub ++ Str.lit "." ++ baseDomain.

(** A host name with no empty label: no dot at either end and no two dots
    in a row. *)
Definition well_formed (host : Str.t) : Prop :=
  [] ∉ Str.split_on "."%char host.

(** The base domain that [getBaseDomain] computes from a host name. *)
Definition base_domain (host : Str.t) : Str.t :=
  if decide (length (Spec.labels host) ≤ 2) then host
  else Str.join (Str.lit ".") (Spec.registrable host).

(** The filter of the handler, as the code applies it once the risk gate
    has let the handler go on. *)
Definition passes {S : Type} (parseURL : Url.parser) (r : Recorder.t S)
    (info : option Capture.RequestInfo) : Prop :=
  Recorder.captureActive r = true
  ∧ ∃ i, info = Some i
    ∧ (Capture.ri_resourceType i = Str.lit "xhr"
       ∨ Capture.ri_resourceType i = Str.lit "fetch")
    ∧ (Recorder.includeThirdParty r = true
       ∨ Recorder.truthy (Recorder.captureBaseDomain r) = false
       ∨ ∃ u, parseURL (Capture.ri_url i) = Some u
              ∧ same_site (Url.hostname u)
                  (default [] (Recorder.captureBaseDomain r))).

(** The listener called on each call of a stream. *)
Definition deliver (parseURL : Url.parser) (calls : list Capture.CapturedCall)
    (s : Session.t) : Session.t :=
  foldl (λ s c, Session.onCapturedCall parseURL c s) s calls.

(** The set of keys is the set of the keys of the calls kept, and no two
    calls kept have the same key. *)
Definition consistent (parseURL : Url.parser) (s : Session.t) : Prop :=
  Session.captureUniqueKeys s
  = list_to_set (Session.getApiKey parseURL <$> Session.sessionCalls s)
  ∧ NoDup (Session.getApiKey parseURL <$> Session.sessionCalls s).

(** The only capture listener ever installed is the one of the session. *)
Definition listener_known (parseURL : Url.parser) (r : Recorder.t Session.t) : Prop :=
  Recorder.onCapture r = None
  ∨ Recorder.onCapture r = Some (Session.onCapturedCall parseURL).

Definition sound (parseURL : Url.parser) (w : World.t) : Prop :=
  consistent parseURL (World.session w) ∧ listener_known parseURL (World.recorder w).

(** The handlers that are parked wait each for a promise of its own, and
    that promise is pending. *)
Definition waiting (w : World.t) : Prop :=
  NoDup (World.pk_promise <$> World.parked w)
  ∧ ∀ k, k ∈ World.parked w →
         Agent.approvals (World.agent w) !! World.pk_promise k = Some None.

(** *** Exploration *)

(** [sign\s*out] *)
Definition sign_out : RegExp.regex :=
  RegExp.Seq (RegExp.word (Str.lit "sign"))
    (RegExp.Seq (RegExp.Star (RegExp.Cls Str.is_space)) (RegExp.word (Str.lit "out"))).

(** What a turn of the loop can add: a try counts as a visit, and its link
    as visited, when the navigation returned. *)
Definition gain (ok : bool) : nat := if ok then 1 else 0.

Definition seen (c : Explore.Candidate) (ok : bool) : gset Str.t :=
  if ok then from_option singleton ∅ (Explore.href_of c) else ∅.

(** The counter is the number of pages opened, no candidate tried is
    unsafe, and the links visited are those of the pages opened. *)
Definition tidy (st : Explore.State) : Prop :=
  Explore.explored st = length (Explore.visits st)
  ∧ (∀ c ok, (c, ok) ∈ Explore.attempts st →
       Explore.isUnsafeLabel (Explore.label c) = false)
  ∧ Explore.visited st = list_to_set (omap Explore.href_of (Explore.visits st)).

End Inv.

(** ** Sample traffic

    The scenarios of the specification (section 8) and a few more, on the
    site [https://x.com], with listeners that do nothing. *)

Module Scenario.
Import Capture World.

Definition base : Str.t := Str.lit "https://x.com".

Definition silent : Agent.Listener → Agent.AgentEvent → list Agent.Cmd := λ _ _, [].

(** Listener 1 subscribes listener 3 and unsubscribes listener 2 whenever
    it is called; the others do nothing. *)
Definition meddling : Agent.Listener → Agent.AgentEvent → list Agent.Cmd :=
  λ l _, if decide (l = 1) then [Agent.cmd_onEvent 3; Agent.cmd_offEvent 2] else [].

Definition json : Headers :=
  {[ Str.lit "content-type" := Str.lit "application/json" ]}.

(** An XHR, and its response with status 200 and a JSON body. *)
Definition xhr (id : nat) (method url : string) : Request :=
  mkRequest id (Str.lit method) (Str.lit url) ∅ None (Str.lit "xhr").

Definition ok (rq : Request) (text : string) : Response :=
  mkResponse rq (rq_url rq) 200 json (Some (Str.lit text)).

(** Two calls with one key. *)
Definition items1 : Request := xhr 1 "GET" "https://x.com/api/items?x=1".
Definition items2 : Request := xhr 2 "GET" "https://x.com/api/items?x=2".

Definition twice : list Event :=
  [ capture_started;
    request_observed items1 10; response_observed (ok items1 "[1]") 11;
    request_observed items2 20; response_observed (ok items2 "[2]") 21 ].

(** Two high-risk calls, the second answered before the first is
    approved, then two approvals. *)
Definition checkout : Request := xhr 1 "POST" "https://x.com/api/checkout".
Definition payment : Request := xhr 2 "POST" "https://x.com/api/payment".

Definition superseded : list Event :=
  [ capture_started;
    request_observed checkout 10; response_observed (ok checkout "{}") 11;
    request_observed payment 20; response_observed (ok payment "{}") 21;
    agent_called (Agent.op_resolveApproval Agent.yes) 30;
    agent_called (Agent.op_resolveApproval Agent.yes) 31 ].

(** A capture on a host of one label, and a call to a subdomain of it. *)
Definition localhost : Str.t := Str.lit "http://localhost".
Definition subdomain : Request := xhr 1 "GET" "http://api.localhost/items".

Definition single_label : list Event :=
  [ capture_started;
    request_observed subdomain 10; response_observed (ok subdomain "[]") 11 ].

(** A call to the host of the capture, written with its final dot. *)
Definition dotted : Request := xhr 1 "GET" "https://x.com./api/items".

Definition final_dot : list Event :=
  [ capture_started;
    request_observed dotted 10; response_observed (ok dotted "[]") 11 ].

(** A request whose URL is no URL. *)
Definition broken : Request := xhr 1 "GET" "not a url".

Definition malformed : list Event :=
  [ capture_started;
    request_observed broken 10; response_observed (ok broken "{}") 11 ].

(** A recorder in a capture session on [base]. *)
Definition capturing : Recorder.t Session.t :=
  state_of (Recorder.startCapture Url.simple base false Recorder.init).

Definition info_of (rq : Request) (now : Z) : RequestInfo :=
  mkInfo (rq_method rq) (rq_url rq) (rq_headers rq) (rq_postData rq)
         (rq_resourceType rq) now.

(** Pages to explore: links on the site; every navigation returns and
    every question is answered with yes unless said otherwise. *)
Definition page (name : string) : Explore.Candidate :=
  Explore.mkCandidate (Str.lit name) (Some (Str.lit "https://x.com/" ++ Str.lit name))
    Explore.link.

Definition ten_pages : list Explore.Candidate :=
  page <$> ["p0"; "p1"; "p2"; "p3"; "p4"; "p5"; "p6"; "p7"; "p8"; "p9"]%string.

(** Twenty candidates, two of them unsafe. *)
Definition twenty_pages : list Explore.Candidate :=
  page <$> ["Logout"; "Orders"; "q0"; "q1"; "q2"; "q3"; "q4"; "q5"; "q6"; "q7";
            "q8"; "q9"; "r0"; "r1"; "r2"; "r3"; "r4"; "r5"; "r6"; "r7"]%string.

Definition smooth : Explore.Env :=
  Explore.mkEnv (λ _ _, true) (λ _ _, Some Agent.act_yes) (λ _ _, true)
    (λ _ _, true).

(** The first two navigations throw. *)
Definition flaky : Explore.Env :=
  Explore.mkEnv (λ i _, bool_decide (2 ≤ i)) (λ _ _, Some Agent.act_yes) (λ _ _, true)
    (λ _ _, true).

Definition no_plan : Explore.Plan := Explore.mkPlan [] [].

(** A plan that ranks the unsafe candidates high. *)
Definition reckless_plan : Explore.Plan :=
  Explore.mkPlan
    [ Explore.mkPage (Str.lit "logout") Explore.prio_high;
      Explore.mkPage (Str.lit "Orders") Explore.prio_high;
      Explore.mkPage (Str.lit "q3") Explore.prio_medium ]
    [].

End Scenario.

(** ** More of JavaScript's strings and collections *)

Module Text.

Definition is_digit (c : ascii) : bool :=
  let n := nat_of_ascii c in (48 <=? n)%nat && (n <=? 57)%nat.

(** A character of [[a-z0-9]] under the [i] flag. *)
Definition is_alnum (c : ascii) : bool :=
  Str.is_lower c || Str.is_upper c || is_digit c.

Fixpoint dropWhile (p : ascii → bool) (s : Str.t) : Str.t :=
  match s with
  | c :: s' => if p c then dropWhile p s' else s
  | [] => []
  end.

(** [s.replace(/[cls]+/g, sub)]: every maximal run of characters of the
    class gives way to one [sub]; [in_run] tells that the character before
    was of the class. *)
Fixpoint replace_runs (cls : ascii → bool) (sub : Str.t) (in_run : bool)
    (s : Str.t) : Str.t :=
  match s with
  | [] => []
  | c :: s' =>
      if cls c then (if in_run then [] else sub) ++ replace_runs cls sub true s'
      else c :: replace_runs cls sub false s'
  end.

Definition replaceAll (cls : ascii → bool) (sub : Str.t) (s : Str.t) : Str.t :=
  replace_runs cls sub false s.

(** [s.replace(/^[cls]+|[cls]+$/g, '')]: the run at the start and the run
    at the end are taken off. *)
Definition strip (cls : ascii → bool) (s : Str.t) : Str.t :=
  reverse (dropWhile cls (reverse (dropWhile cls s))).

(** [s.slice(0, n)] *)
Definition slice0 (n : nat) (s : Str.t) : Str.t := take n s.

(** [s.split(/\s+/)]: the pieces between the maximal runs of white
    space; [cur] is the piece being read, [in_run] as above. *)
Fixpoint split_runs (cls : ascii → bool) (cur : Str.t) (in_run : bool)
    (s : Str.t) : list Str.t :=
  match s with
  | [] => [cur]
  | c :: s' =>
      if cls c then
        if in_run then split_runs cls cur true s'
        else cur :: split_runs cls [] true s'
      else split_runs cls (cur ++ [c]) false s'
  end.

Definition split_ws (s : Str.t) : list Str.t := split_runs Str.is_space [] false s.

End Text.

(** [Map<string, V>]: the entries in the order their keys were first set,
    which is the order [values()] and [entries()] go through them. *)

Module JsMap.

Definition t (V : Type) := list (Str.t * V).

Definition get {V} (k : Str.t) (m : t V) : option V :=
  snd <$> List.find (λ e, bool_decide (e.1 = k)) m.

Definition has {V} (k : Str.t) (m : t V) : bool :=
  bool_decide (k ∈ m.*1).

Fixpoint set {V} (k : Str.t) (v : V) (m : t V) : t V :=
  match m with
  | [] => [(k, v)]
  | e :: m' => if decide (e.1 = k) then (k, v) :: m' else e :: set k v m'
  end.

Definition values {V} (m : t V) : list V := m.*2.

Definition keys {V} (m : t V) : list Str.t := m.*1.

End JsMap.

(** ** Flows (src/agent/FlowTracker.ts) *)

Module FlowTracker.

Record NetworkCall := mkNetworkCall {
  nc_method : Str.t;
  nc_url : Str.t;
  nc_status : Z;
  nc_timestamp : Z;
}.

Record FlowStep := mkStep {
  fs_name : Str.t;
  fs_step : Str.t;
  fs_timestamp : Z;
  fs_networkCalls : list NetworkCall;
  fs_uiActions : list Str.t;
}.

Record Flow := mkFlow {
  name : Str.t;
  steps : list FlowStep;
  startTime : Z;
  endTime : option Z;
}.

(** The flows are objects: the map and [currentFlow] hold references to
    them, and [addStep] and [endFlow] change the object [currentFlow]
    points to.  [objects] is the store of the flow objects ever made, a
    flow being named by its index in it. *)
Record t := mk {
  objects : list Flow;
  flows : JsMap.t nat;
  currentFlow : option nat;
}.

(** [new FlowTracker()] *)
Definition init : t := {| objects := []; flows := []; currentFlow := None |}.

Definition startFlow (name : Str.t) (now : Z) (ft : t) : t :=
  let flow := length (objects ft) in
  mk (objects ft ++ [mkFlow name [] now None])
     (JsMap.set name flow (flows ft))
     (Some flow).

Definition untitled : Str.t := Str.lit "Untitled Flow".

(** The flow object [currentFlow] points to. *)
Definition getCurrentFlow (ft : t) : option Flow :=
  currentFlow ft ≫= λ a, objects ft !! a.

(** [addStep]; [nowStart] is the clock read by [startFlow] when a flow has
    to be started, [now] the clock read for the step. *)
Definition addStep (stepName : Str.t) (networkCalls : list NetworkCall)
    (uiActions : list Str.t) (nowStart now : Z) (ft : t) : t :=
  let ft1 := match currentFlow ft with
             | None => startFlow untitled nowStart ft
             | Some _ => ft
             end in
  let step := mkStep (Recorder.or_else (from_option name [] (getCurrentFlow ft1)) untitled)
                     stepName now networkCalls uiActions in
  match currentFlow ft1 with
  | Some a =>
      mk (alter (λ f, mkFlow (name f) (steps f ++ [step]) (startTime f) (endTime f))
                a (objects ft1))
         (flows ft1) (currentFlow ft1)
  | None => ft1
  end.

Definition endFlow (now : Z) (ft : t) : t :=
  match currentFlow ft with
  | Some a =>
      mk (alter (λ f, mkFlow (name f) (steps f) (startTime f) (Some now))
                a (objects ft))
         (flows ft) None
  | None => ft
  end.

Definition getFlow (name : Str.t) (ft : t) : option Flow :=
  JsMap.get name (flows ft) ≫= λ a, objects ft !! a.

Definition getAllFlows (ft : t) : list Flow :=
  omap (λ a, objects ft !! a) (JsMap.values (flows ft)).

(** The calls that change a tracker, for histories of them. *)
Inductive Op :=
| op_startFlow (name : Str.t) (now : Z)
| op_addStep (stepName : Str.t) (networkCalls : list NetworkCall)
    (uiActions : list Str.t) (nowStart now : Z)
| op_endFlow (now : Z).

Definition run_op (ft : t) (o : Op) : t :=
  match o with
  | op_startFlow n now => startFlow n now ft
  | op_addStep s calls acts nowStart now => addStep s calls acts nowStart now ft
  | op_endFlow now => endFlow now ft
  end.

Definition run (ft : t) (ops : list Op) : t := foldl run_op ft ops.

End FlowTracker.

(** ** The command line (src/index.tsx, [main] and what it calls)

    [new URL(s)] gives the protocol together with the parts [Url.t]
    holds; [None] stands for the exception.  The functions of [node:path]
    are parameters. *)

Module Cli.

Definition normalizeUrl (url : Str.t) : Str.t :=
  if negb (Str.startsWith (Str.lit "http://") url)
     && negb (Str.startsWith (Str.lit "https://") url)
  then Str.lit "https://" ++ url
  else url.

(** [arg === "--docs-path" || arg === "-d"] *)
Definition is_docs_flag (arg : Str.t) : bool :=
  bool_decide (arg = Str.lit "--docs-path") || bool_decide (arg = Str.lit "-d").

(** [args.findIndex((arg, i) => (...) && i + 1 < args.length)]; [None]
    for -1. *)
Definition docsPathIndex (args : list Str.t) : option nat :=
  fst <$> List.find (λ ia : nat * Str.t,
                       is_docs_flag ia.2 && (ia.1 + 1 <? length args)%nat)
                    (imap pair args).

(** [rawPath], from the arguments or from [WEBDOC_DOCS_PATH]. *)
Definition rawPath (args : list Str.t) (env : option Str.t) : option Str.t :=
  match docsPathIndex args with
  | Some i => args !! (i + 1)
  | None => env
  end.

(** [rawPath || "docs"] *)
Definition pathToResolve (args : list Str.t) (env : option Str.t) : Str.t :=
  match rawPath args env with
  | Some (c :: p) => c :: p
  | _ => Str.lit "docs"
  end.

(** The arguments left for the command once the option and its value are
    taken out. *)
Definition filteredArgs (args : list Str.t) : list Str.t :=
  (filter (λ ia : nat * Str.t,
             ia.2 ≠ Str.lit "--docs-path" ∧ ia.2 ≠ Str.lit "-d"
             ∧ ¬ (0 < ia.1
                  ∧ (args !! (ia.1 - 1) = Some (Str.lit "--docs-path")
                     ∨ args !! (ia.1 - 1) = Some (Str.lit "-d"))))
          (imap pair args)).*2.

Section WithPlatform.
Variable parse : Str.t → option (Str.t * Url.t).
Variable isAbsolute : Str.t → bool.
Variable resolve : list Str.t → Str.t.
Variable cwd : Str.t.
Variable env : option Str.t.

Definition parseURL : Url.parser := λ s, snd <$> parse s.

Definition isValidUrl (url : Str.t) : bool :=
  match parse url with
  | Some (protocol, _) =>
      bool_decide (protocol = Str.lit "http:")
      || bool_decide (protocol = Str.lit "https:")
  | None => false
  end.

(** [parseDocsPath]: the path it returns (the warning about
    [node_modules] goes to the console only). *)
Definition parseDocsPath (args : list Str.t) : Str.t :=
  let p := pathToResolve args env in
  if isAbsolute p then p else resolve [cwd; p].

(** How [main] goes on: what it prints and the exit code, or the call of
    [runAgent]. *)
Inductive Outcome :=
| help_shown
| version_shown
| agent_run (url docsPath : Str.t)
| url_required
| invalid_url (urlArg : Str.t)
| export_not_implemented
| invalid_export_format
| unknown_command (command : Str.t).

Definition one_of (ws : list string) (s : Str.t) : bool :=
  bool_decide (s ∈ Str.lit <$> ws).

Definition main (args : list Str.t) : Outcome :=
  match args !! 0 with
  | None | Some [] => help_shown
  | Some command =>
      if one_of ["help"; "--help"; "-h"] command then help_shown
      else if one_of ["version"; "--version"; "-v"] command then version_shown
      else
        let docsPath := parseDocsPath args in
        if bool_decide (command = Str.lit "open") then
          match filteredArgs args !! 1 with
          | None | Some [] => url_required
          | Some urlArg =>
              let url := normalizeUrl urlArg in
              if isValidUrl url then agent_run url docsPath
              else invalid_url urlArg
          end
        else if bool_decide (command = Str.lit "export") then
          match args !! 1 with
          | Some format =>
              if one_of ["md"; "markdown"; "openapi"; "open-api"] format
              then export_not_implemented else invalid_export_format
          | None => invalid_export_format
          end
        else unknown_command command
  end.

End WithPlatform.

End Cli.

(** ** Writing the documents (src/index.tsx, [writeDocs] and what it
    calls) *)

Module Docs.
Import Capture.

(** The first loop of [getPrimaryHost] and of [getPrimaryOrigin]: how
    often each host (origin) occurs; a URL that does not parse is passed
    over. *)
Definition tally (part : Str.t → option Str.t) (calls : list CapturedCall)
    : JsMap.t nat :=
  foldl (λ counts call,
           match part (url call) with
           | Some host =>
               JsMap.set host (default 0 (JsMap.get host counts) + 1) counts
           | None => counts
           end) [] calls.

(** The second loop: the entry with the greatest count, the first of
    them. *)
Definition top (counts : JsMap.t nat) : Str.t * nat :=
  foldl (λ (acc : Str.t * nat) (e : Str.t * nat),
           if (acc.2 <? e.2)%nat then e else acc) ([], 0) counts.

(** [topHost || null] *)
Definition primary (part : Str.t → option Str.t) (calls : list CapturedCall)
    : option Str.t :=
  match (top (tally part calls)).1 with
  | [] => None
  | h => Some h
  end.

Section WithUrl.
Variable parseURL : Url.parser.
(** [new URL(s).origin] *)
Variable originOf : Str.t → option Str.t.

Definition getPrimaryHost (calls : list CapturedCall) : option Str.t :=
  primary (λ u, Url.hostname <$> parseURL u) calls.

Definition getPrimaryOrigin (calls : list CapturedCall) : option Str.t :=
  primary originOf calls.

End WithUrl.

Definition is_dash (c : ascii) : bool := bool_decide (c = "-"%char).

(** [apiHost.replace(/[^a-z0-9]+/gi, "-").replace(/^-+|-+$/g, '').toLowerCase()] *)
Definition slug (apiHost : Str.t) : Str.t :=
  Str.toLowerCase
    (Text.strip is_dash
       (Text.replaceAll (λ c, negb (Text.is_alnum c)) (Str.lit "-") apiHost)).

(** The names of the two files, inside the directory of the documents. *)
Definition mdName (apiHost : Str.t) : Str.t := slug apiHost ++ Str.lit "-api.md".
Definition swaggerName (apiHost : Str.t) : Str.t :=
  slug apiHost ++ Str.lit "-openapi.json".

End Docs.

(** A platform to run the command line on: plain absolute URLs with
    their protocol, POSIX paths joined with a slash. *)

Module Platform.

Definition parse (s : Str.t) : option (Str.t * Url.t) :=
  let '(scheme, _) := Url.break_at (λ c, negb (Url.is_scheme_char c)) s in
  (λ u, (Str.toLowerCase scheme ++ Str.lit ":", u)) <$> Url.simple s.

Definition isAbsolute (p : Str.t) : bool := Str.startsWith (Str.lit "/") p.

Definition resolve (parts : list Str.t) : Str.t := Str.join (Str.lit "/") parts.

Definition cwd : Str.t := Str.lit "/home/dev".

End Platform.

(** ** The browser controller (src/browser/playwright.ts): what it
    computes itself on the texts and the elements the page gives it *)

Module Browser.

(** [clean] of [getPageContext] ([n] is 120) and of
    [getNavigationCandidates] ([n] is 80):
    [(text || '').replace(/\s+/g, " ").trim().slice(0, n)] *)
Definition clean (n : nat) (text : option Str.t) : Str.t :=
  Text.slice0 n
    (Str.trim (Text.replaceAll Str.is_space (Str.lit " ") (default [] text))).

(** The loop that [takeUnique] and [getNavigationCandidates] share:

      for (const item of items) {
        if (<item is passed over> || seen.has(key)) continue;
        seen.add(key); result.push(item);
        if (result.length >= max) break;
      }

    [takeUnique] passes the empty texts over and takes the item as its
    key; [getNavigationCandidates] passes nothing over and builds a key. *)
Fixpoint unique_upto {A} (key : A → Str.t) (passed_over : A → bool) (max : nat)
    (items : list A) (seen : gset Str.t) (result : list A) : list A :=
  match items with
  | [] => result
  | item :: rest =>
      if passed_over item || bool_decide (key item ∈ seen)
      then unique_upto key passed_over max rest seen result
      else
        let result' := result ++ [item] in
        if (max <=? length result')%nat then result'
        else unique_upto key passed_over max rest (seen ∪ {[key item]}) result'
  end.

Definition takeUnique (items : list Str.t) (max : nat) : list Str.t :=
  unique_upto id (λ item, bool_decide (item = [])) max items ∅ [].

Definition type_name (t : Explore.CandidateType) : Str.t :=
  match t with
  | Explore.link => Str.lit "link"
  | Explore.button => Str.lit "button"
  end.

(** [`${item.type}:${item.label}:${item.href || ''}`] *)
Definition candidateKey (item : Explore.Candidate) : Str.t :=
  type_name (Explore.type item) ++ Str.lit ":" ++ Explore.label item
  ++ Str.lit ":" ++ default [] (Explore.href item).

(** The end of [getNavigationCandidates]: the candidates read off the
    page (the visible links, then the visible buttons), without repeats,
    25 at most. *)
Definition uniqueCandidates (candidates : list Explore.Candidate)
    : list Explore.Candidate :=
  unique_upto candidateKey (λ _, false) 25 candidates ∅ [].

(** The private [normalizeUrl] of the controller. *)
Definition normalizeUrl (url : Str.t) : Str.t :=
  let trimmed := Str.trim url in
  if Str.startsWith (Str.lit "http://") trimmed
     || Str.startsWith (Str.lit "https://") trimmed
  then trimmed
  else Str.lit "https://" ++ trimmed.

End Browser.

(** ** What goes to the model for the documents (src/llm/gemini.ts,
    [generateApiDocumentation] and [pickHeaders]) *)

Module Gemini.
Import Capture.

Definition allowlist : list Str.t :=
  Str.lit <$> ["content-type"; "authorization"; "x-api-key"; "x-request-id";
               "set-cookie"; "cookie"]%string.

Definition redacted : Str.t := Str.lit "<redacted>".

(** [pickHeaders].  The loop goes through [Object.keys(headers)]; every
    key it writes gets the same value, so the object it builds does not
    depend on the order of the keys. *)
Definition pickHeaders (headers : Headers) : Headers :=
  foldl (λ (result : Headers) (key : Str.t),
           let lower := Str.toLowerCase key in
           if bool_decide (lower ∈ allowlist) then <[lower := redacted]> result
           else result)
        ∅ (map_to_list headers).*1.

(** An element of [trimmed]. *)
Record Entry := mkEntry {
  e_method : Str.t;
  e_url : Str.t;
  e_status : Z;
  e_requestHeaders : Headers;
  e_responseHeaders : Headers;
  e_requestBody : option Str.t;
  e_responseBody : option Str.t;
}.

(** [calls.slice(0, 60).map(...)]: what [generateApiDocumentation] puts
    into the prompt. *)
Definition trimmed (calls : list CapturedCall) : list Entry :=
  (λ call, {| e_method := method call;
              e_url := url call;
              e_status := status call;
              e_requestHeaders := pickHeaders (requestHeaders call);
              e_responseHeaders := pickHeaders (responseHeaders call);
              e_requestBody := requestBody call;
              e_responseBody := responseBody call |}) <$> take 60 calls.

End Gemini.

(** ** The terminal application (src/cli/App.tsx, src/cli/Prompt.tsx)

    The state of the component, the handler it subscribes to the agent
    and the handlers of the two prompts it shows.  A handler sees the state
    of the last rendering, which is the current one whenever a key comes. *)

Module App.
Import Agent.

Record State := mk {
  events : list AgentEvent;
  pendingApproval : option AgentEvent;
  pendingSuggestion : option AgentEvent;
  typedAction : Str.t;
  showNetworkLogs : bool;
  llmStatus : LlmStatus * option Str.t;
}.

(** The state of the first rendering. *)
Definition init (initialEvents : list AgentEvent) : State :=
  {| events := initialEvents; pendingApproval := None; pendingSuggestion := None;
     typedAction := []; showNetworkLogs := false; llmStatus := (idle, None) |}.

Definition setEvents (f : list AgentEvent → list AgentEvent) (st : State) : State :=
  mk (f (events st)) (pendingApproval st) (pendingSuggestion st) (typedAction st)
     (showNetworkLogs st) (llmStatus st).

Definition setPendingApproval (e : option AgentEvent) (st : State) : State :=
  mk (events st) e (pendingSuggestion st) (typedAction st) (showNetworkLogs st)
     (llmStatus st).

Definition setPendingSuggestion (e : option AgentEvent) (st : State) : State :=
  mk (events st) (pendingApproval st) e (typedAction st) (showNetworkLogs st)
     (llmStatus st).

Definition setLlmStatus (s : LlmStatus * option Str.t) (st : State) : State :=
  mk (events st) (pendingApproval st) (pendingSuggestion st) (typedAction st)
     (showNetworkLogs st) s.

Definition is_approval_required (e : AgentEvent) : bool :=
  match e with ev_approval_required _ _ _ _ _ => true | _ => false end.

Definition is_action_suggestion (e : AgentEvent) : bool :=
  match e with ev_action_suggestion _ _ => true | _ => false end.

Definition is_network (e : AgentEvent) : bool :=
  match e with ev_network _ _ _ _ => true | _ => false end.

(** [handleEvent], the listener of the component. *)
Definition handleEvent (event : AgentEvent) (st : State) : State :=
  match event with
  | ev_llm_status status message => setLlmStatus (status, message) st
  | _ =>
      let st := setEvents (λ prev, prev ++ [event]) st in
      let st := if is_approval_required event
                then setPendingApproval (Some event) st else st in
      if is_action_suggestion event
      then setPendingSuggestion (Some event) st else st
  end.

(** [handleApprovalDecision] and [handleSuggestionDecision], on the
    component and the agent. *)
Definition handleApprovalDecision (decision : ApprovalDecision)
    (sa : State * Agent.t) : State * Agent.t :=
  match pendingApproval sa.1 with
  | Some _ => (setPendingApproval None sa.1, resolveApproval decision sa.2)
  | None => sa
  end.

Definition handleSuggestionDecision (decision : ActionDecision)
    (sa : State * Agent.t) : State * Agent.t :=
  match pendingSuggestion sa.1 with
  | Some _ => (setPendingSuggestion None sa.1, resolveActionDecision decision sa.2)
  | None => sa
  end.

(** [events.filter(...).slice(-20)]: the lines of the event log. *)
Definition visibleEvents (st : State) : list AgentEvent :=
  let shown := filter (λ event, (if showNetworkLogs st then true
                                 else negb (is_network event)) = true)
                      (events st) in
  drop (length shown - 20) shown.

(** The key handler of [ApprovalPrompt], with [onDecision] as the
    component sets it. *)
Definition approvalInput (input : Str.t) (sa : State * Agent.t) : State * Agent.t :=
  if bool_decide (input = Str.lit "y") || bool_decide (input = Str.lit "Y")
  then handleApprovalDecision yes sa
  else if bool_decide (input = Str.lit "n") || bool_decide (input = Str.lit "N")
  then handleApprovalDecision no sa
  else if bool_decide (input = Str.lit "d") || bool_decide (input = Str.lit "D")
  then handleApprovalDecision doc sa
  else sa.

(** The key handler of [ActionSuggestionPrompt]. *)
Definition suggestionInput (input : Str.t) (sa : State * Agent.t) : State * Agent.t :=
  if bool_decide (input = Str.lit "y") || bool_decide (input = Str.lit "Y")
  then handleSuggestionDecision act_yes sa
  else if bool_decide (input = Str.lit "n") || bool_decide (input = Str.lit "N")
  then handleSuggestionDecision act_no sa
  else sa.

End App.

(** ** What a prompt of the user asks for (src/index.tsx,
    [handleUserPrompt]): the tests it makes, in their order *)

Module UserPrompt.
Import RegExp.

(** [/(i'?m logged in|i am logged in|logged in|login complete|signed in)/i] *)
Definition login_re : regex :=
  alts [ Seq (Chr "i") (Seq (Alt (Chr "'") Eps) (word (Str.lit "m logged in")));
         word (Str.lit "i am logged in");
         word (Str.lit "logged in");
         word (Str.lit "login complete");
         word (Str.lit "signed in") ].

(** [/(stop capture|generate docs|document api|create docs)/i] *)
Definition docs_re : regex :=
  alts (word <$> (Str.lit <$> ["stop capture"; "generate docs"; "document api";
                               "create docs"]%string)).

(** [/(explore|crawl|surf pages|discover pages|find pages|explore site)/i] *)
Definition explore_re : regex :=
  alts (word <$> (Str.lit <$> ["explore"; "crawl"; "surf pages"; "discover pages";
                               "find pages"; "explore site"]%string)).

(** [/(what can you see|what do you see|describe|summarize|summary|what is on|what's on)/i] *)
Definition describe_re : regex :=
  alts (word <$> (Str.lit <$> ["what can you see"; "what do you see"; "describe";
                               "summarize"; "summary"; "what is on";
                               "what's on"]%string)).

(** The branch [handleUserPrompt] takes. *)
Inductive Branch :=
| capture_on            (* /capture, /capture on, /capture start *)
| capture_off           (* /capture off, /capture stop *)
| capture_usage
| login_confirmed
| docs_requested
| exploration
| description
| instruction.

#[global] Instance Branch_eq_dec : EqDecision Branch.
Proof. solve_decision. Defined.

Definition branch (prompt : Str.t) : Branch :=
  let promptLower := Str.toLowerCase prompt in
  if Str.startsWith (Str.lit "/capture") promptLower then
    match Text.split_ws promptLower !! 1 with
    | None | Some [] => capture_on
    | Some arg =>
        if bool_decide (arg = Str.lit "on") || bool_decide (arg = Str.lit "start")
        then capture_on
        else if bool_decide (arg = Str.lit "off") || bool_decide (arg = Str.lit "stop")
        then capture_off
        else capture_usage
    end
  else if test true login_re promptLower then login_confirmed
  else if test true docs_re promptLower then docs_requested
  else if test true explore_re promptLower then exploration
  else if test true describe_re promptLower then description
  else instruction.

End UserPrompt.

(** ** Notions of the properties below *)

Module Notions.

(** How often [h] occurs in [hs]. *)
Definition occurrences (h : Str.t) (hs : list Str.t) : nat :=
  length (filter (λ x, x = h) hs).

(** [h] occurs in [hs] before [h'] does, if [h'] does at all. *)
Definition first_before (hs : list Str.t) (h h' : Str.t) : Prop :=
  ∃ pre post, hs = pre ++ h :: post ∧ h' ∉ pre.

(** [h] is the most frequent element of [hs], the one that comes first
    among the most frequent ones. *)
Definition most_frequent (hs : list Str.t) (h : Str.t) : Prop :=
  h ∈ hs
  ∧ ∀ h', occurrences h' hs ≤ occurrences h hs
          ∧ (h' ≠ h → occurrences h' hs = occurrences h hs → first_before hs h h').

(** The hosts (origins) of the calls whose URL parses. *)
Definition parts (part : Str.t → option Str.t) (calls : list Capture.CapturedCall)
    : list Str.t :=
  omap (λ c, part (Capture.url c)) calls.

(** A character of a file name made from a slug: a small letter, a digit
    or a dash. *)
Definition slug_char (c : ascii) : Prop :=
  Str.is_lower c = true ∨ Text.is_digit c = true ∨ c = "-"%char.

(** *** The command line *)

(** The arguments that are kept, read off from left to right: [prev] is
    the argument before. *)
Fixpoint kept (prev : option Str.t) (l : list Str.t) : list Str.t :=
  match l with
  | [] => []
  | a :: l' =>
      (if Cli.is_docs_flag a || from_option Cli.is_docs_flag false prev
       then [] else [a])
      ++ kept (Some a) l'
  end.

(** The test of the filter in [filteredArgs]. *)
Definition keeps (args : list Str.t) (ia : nat * Str.t) : Prop :=
  ia.2 ≠ Str.lit "--docs-path" ∧ ia.2 ≠ Str.lit "-d"
  ∧ ¬ (0 < ia.1
       ∧ (args !! (ia.1 - 1) = Some (Str.lit "--docs-path")
          ∨ args !! (ia.1 - 1) = Some (Str.lit "-d"))).

#[global] Instance keeps_dec args ia : Decision (keeps args ia).
Proof. unfold keeps. apply _. Defined.

(** *** Flows *)

(** The keys of the map are distinct, every entry points to a flow of its
    name, and the current flow is in the map under its name. *)
Definition flows_wf (ft : FlowTracker.t) : Prop :=
  NoDup (JsMap.keys (FlowTracker.flows ft))
  ∧ (∀ k a, (k, a) ∈ FlowTracker.flows ft →
       ∃ f, FlowTracker.objects ft !! a = Some f ∧ FlowTracker.name f = k)
  ∧ (∀ a, FlowTracker.currentFlow ft = Some a →
       ∃ f, FlowTracker.objects ft !! a = Some f
            ∧ (FlowTracker.name f, a) ∈ FlowTracker.flows ft).

(** *** The agent *)

(** The mode a call sets, if it sets one. *)
Definition mode_set (o : Agent.Op) : option Agent.ExecutionMode :=
  match o with
  | Agent.op_setMode m => Some m
  | _ => None
  end.

(** *** The running system *)

(** The recorder captures only while a capture session is on. *)
Definition steady (parseURL : Url.parser) (w : World.t) : Prop :=
  Inv.sound parseURL w
  ∧ (Session.captureActive (World.session w) = false →
     Recorder.captureActive (World.recorder w) = false).

(** From [w] to [w'] the list of the session got calls at its end, none
    of them if no capture session is on in [w]. *)
Definition grown (w w' : World.t) : Prop :=
  ∃ more,
    Session.sessionCalls (World.session w')
    = Session.sessionCalls (World.session w) ++ more
    ∧ (Session.captureActive (World.session w) = false → more = []).

(** A body as the recorder stores it: no longer than the cap and the
    marker, and with no white space around it. *)
Definition capped (b : option Str.t) : Prop :=
  ∀ t, b = Some t →
    (Z.of_nat (length t) ≤ Recorder.body_cap + Z.of_nat (length Recorder.ellipsis))%Z
    ∧ (∀ c, head t = Some c → Str.is_space c = false)
    ∧ (∀ c, last t = Some c → Str.is_space c = false).

(** The content type of a call says JSON or plain text. *)
Definition textual (c : Capture.CapturedCall) : Prop :=
  let contentType :=
    default [] (Capture.responseHeaders c !! Str.lit "content-type") in
  Str.includes (Str.lit "application/json") contentType = true
  ∨ Str.includes (Str.lit "text/plain") contentType = true.

(** A call as the recorder builds it. *)
Definition well_built (c : Capture.CapturedCall) : Prop :=
  Capture.method c ≠ []
  ∧ capped (Capture.requestBody c)
  ∧ capped (Capture.responseBody c)
  ∧ (is_Some (Capture.responseBody c) → textual c).

(** The calls of the session are well built, and so will be those of the
    responses that wait. *)
Definition kept_well (parseURL : Url.parser) (w : World.t) : Prop :=
  Inv.sound parseURL w
  ∧ Forall well_built (Session.sessionCalls (World.session w))
  ∧ Forall (λ k, World.pk_method k ≠ []) (World.parked w).

(** *** The order of visit of an exploration *)

(** The first candidate with key [k]. *)
Definition pick (candidates : list Explore.Candidate) (k : Str.t)
    : option Explore.Candidate :=
  List.find (λ c, bool_decide (Explore.key c = k)) candidates.

(** The keys of the plan, in the order of the priorities. *)
Definition plan_keys (plan : Explore.Plan) : list Str.t :=
  (λ pp, Str.toLowerCase (Explore.pp_label pp)) <$> Explore.priorityOrder plan.

(** The keys of the plan that a candidate has, each once. *)
Definition planned_keys (candidates : list Explore.Candidate) (plan : Explore.Plan)
    : list Str.t :=
  Spec.first_occurrences id
    (filter (λ k, k ∈ Explore.key <$> candidates) (plan_keys plan)).

(** *** What a run does to the browser *)

(** What a try does to the browser: the navigation and, when it returned,
    the way back. *)
Definition round_trip (baseUrl : Str.t) (a : Explore.Candidate * bool)
    : list Explore.Action :=
  Explore.navigation a.1 a.2
  :: (if a.2 then [Explore.goBackOrNavigate baseUrl true] else []).

(** The candidate at place [i] of the order of visit was cleared for a
    try: when it is risky the user said yes, and it is on the skip list
    only if it is risky. *)
Definition cleared (parseURL : Url.parser) (url : Str.t) (env : Explore.Env)
    (skipLabels : gset Str.t) (i : nat) (c : Explore.Candidate) : Prop :=
  (Explore.isRiskyNavigation parseURL url c = true →
   Explore.decides env i c = Some Agent.act_yes)
  ∧ (Explore.key c ∈ skipLabels → Explore.isRiskyNavigation parseURL url c = true).



(** *** The terminal application *)

(** The component after its listener was called with the events [es]. *)
Definition handleEvents (st : App.State) (es : list Agent.AgentEvent) : App.State :=
  foldl (λ st e, App.handleEvent e st) st es.

(** The events listener [ui] was called with from [a] to [a']. *)
Definition delivered (ui : Agent.Listener) (a a' : Agent.t) : list Agent.AgentEvent :=
  omap (λ le : Agent.Listener * Agent.AgentEvent,
          if decide (le.1 = ui) then Some le.2 else None)
       (drop (length (Agent.invoked a)) (Agent.invoked a')).

Definition is_llm_status (e : Agent.AgentEvent) : bool :=
  match e with Agent.ev_llm_status _ _ => true | _ => false end.

Definition status_of (e : Agent.AgentEvent) : option (Agent.LlmStatus * option Str.t) :=
  match e with Agent.ev_llm_status s m => Some (s, m) | _ => None end.

(** The last element of [es] that [p] holds of, or else [d]. *)
Definition last_or {A} (p : A → bool) (d : option A) (es : list A) : option A :=
  match last (filter (λ e, p e = true) es) with
  | Some e => Some e
  | None => d
  end.

(** *** The prompts of the user *)

(** [p] contains one of the words. *)
Definition says (ws : list string) (p : Str.t) : bool :=
  existsb (λ w, Str.includes (Str.lit w) p) ws.

End Notions.

(** * Properties *)

(** ** The matcher computes the language of a pattern *)

Module RegExpFacts.
Import RegExp.

Lemma nullable_matches i r : nullable r = true ↔ matches i r [].
Proof.
  split.
  - induction r; simpl; intros H; try discriminate.
    + constructor.
    + apply andb_true_iff in H as [H1 H2].
      change (@nil ascii) with (@nil ascii ++ []). constructor; auto.
    + apply orb_true_iff in H as [H|H]; [apply m_alt_l | apply m_alt_r]; auto.
    + constructor.
  - intros H. remember [] as s eqn:Hs.
    induction H; simpl; try discriminate; auto.
    + apply app_eq_nil in Hs as [-> ->]. rewrite IHmatches1, IHmatches2; auto.
    + rewrite IHmatches; auto.
    + rewrite IHmatches; auto using orb_true_r.
Qed.

Lemma matches_seq_inv i r1 r2 s :
  matches i (Seq r1 r2) s ↔ ∃ s1 s2, s = s1 ++ s2 ∧ matches i r1 s1 ∧ matches i r2 s2.
Proof.
  split.
  - inversion 1; subst; eauto.
  - intros (s1 & s2 & -> & H1 & H2). by constructor.
Qed.

Lemma matches_alt_inv i r1 r2 s :
  matches i (Alt r1 r2) s ↔ matches i r1 s ∨ matches i r2 s.
Proof.
  split.
  - inversion 1; subst; eauto.
  - intros [H|H]; [by apply m_alt_l | by apply m_alt_r].
Qed.

Lemma matches_void_inv i s : matches i Void s ↔ False.
Proof. split; [inversion 1 | done]. Qed.

Lemma matches_eps_inv i s : matches i Eps s ↔ s = [].
Proof. split; [by inversion 1 | intros ->; constructor]. Qed.

Lemma matches_chr_inv i c s : matches i (Chr c) s ↔ ∃ a, s = [a] ∧ chr_eqb i c a = true.
Proof.
  split; [inversion 1; subst; eauto | intros (a & -> & H); by constructor].
Qed.

Lemma matches_cls_inv i p s : matches i (Cls p) s ↔ ∃ a, s = [a] ∧ p a = true.
Proof.
  split; [inversion 1; subst; eauto | intros (a & -> & H); by constructor].
Qed.

(** A non-empty match of a repetition starts with a non-empty match of
    its body. *)
Lemma matches_star_cons_inv i r a s :
  matches i (Star r) (a :: s) →
  ∃ s1 s2, s = s1 ++ s2 ∧ matches i r (a :: s1) ∧ matches i (Star r) s2.
Proof.
  intros H. remember (Star r) as r' eqn:Hr. remember (a :: s) as s' eqn:Hs.
  induction H; try discriminate.
  injection Hr as ->.
  destruct s1 as [|b s1]; simpl in Hs.
  - auto.
  - injection Hs as -> <-. eauto.
Qed.

Lemma deriv_matches i a r s : matches i (deriv i a r) s ↔ matches i r (a :: s).
Proof.
  revert s. induction r; intros s; simpl.
  - by rewrite !matches_void_inv.
  - rewrite matches_void_inv, matches_eps_inv. split; [tauto | discriminate].
  - rewrite matches_chr_inv. destruct (chr_eqb i a0 a) eqn:E.
    + rewrite matches_eps_inv.
      split; [intros ->; eauto | by intros (a1 & [= -> ->] & _)].
    + rewrite matches_void_inv.
      split; [done | intros (a1 & [= -> ->] & H); congruence].
  - rewrite matches_cls_inv. destruct (b a) eqn:E.
    + rewrite matches_eps_inv.
      split; [intros ->; eauto | by intros (a1 & [= -> ->] & _)].
    + rewrite matches_void_inv.
      split; [done | intros (a1 & [= -> ->] & H); congruence].
  - assert (Hseq : matches i (Seq (deriv i a r1) r2) s ↔
              ∃ s1 s2, s = s1 ++ s2 ∧ matches i r1 (a :: s1) ∧ matches i r2 s2).
    { rewrite matches_seq_inv. setoid_rewrite IHr1. done. }
    rewrite (matches_seq_inv i r1 r2).
    destruct (nullable r1) eqn:E.
    + rewrite matches_alt_inv, Hseq, IHr2. split.
      * intros [(s1 & s2 & -> & H1 & H2) | H].
        -- exists (a :: s1), s2. done.
        -- exists [], (a :: s). split_and!; [done | by apply nullable_matches | done].
      * intros (s1 & s2 & Hs & H1 & H2). destruct s1 as [|b s1]; simpl in Hs.
        -- right. by subst.
        -- injection Hs as -> ->. left. eauto.
    + rewrite Hseq. split.
      * intros (s1 & s2 & -> & H1 & H2). exists (a :: s1), s2. done.
      * intros (s1 & s2 & Hs & H1 & H2). destruct s1 as [|b s1]; simpl in Hs.
        -- apply (nullable_matches i) in H1. congruence.
        -- injection Hs as -> ->. eauto.
  - rewrite !matches_alt_inv, IHr1, IHr2. done.
  - rewrite matches_seq_inv. setoid_rewrite IHr. split.
    + intros (s1 & s2 & -> & H1 & H2). by apply (m_star_cons i r (a :: s1) s2).
    + apply matches_star_cons_inv.
Qed.

Lemma match_here_spec i r s :
  match_here i r s = true ↔ ∃ p q, s = p ++ q ∧ matches i r p.
Proof.
  revert r. induction s as [|a s IH]; intros r; simpl.
  - rewrite orb_false_r, nullable_matches. split.
    + intros H. by exists [], [].
    + intros (p & q & Hs & H). symmetry in Hs. apply app_eq_nil in Hs as [-> _]. done.
  - rewrite orb_true_iff, IH, (nullable_matches i). split.
    + intros [H | (p & q & -> & H)].
      * by exists [], (a :: s).
      * exists (a :: p), q. split; [done | by apply deriv_matches].
    + intros (p & q & Hs & H). destruct p as [|b p]; simpl in Hs.
      * by left.
      * injection Hs as -> ->. right. exists p, q. split; [done | by apply deriv_matches].
Qed.

Lemma test_unfold i r s :
  test i r s = match_here i r s || match s with [] => false | _ :: s' => test i r s' end.
Proof. by destruct s. Qed.

Lemma test_spec i r s :
  test i r s = true ↔ ∃ pre m post, s = pre ++ m ++ post ∧ matches i r m.
Proof.
  induction s as [|a s IH]; rewrite test_unfold.
  - rewrite orb_false_r, match_here_spec. split.
    + intros (p & q & -> & H). by exists [], p, q.
    + intros (pre & m & post & Hs & H). symmetry in Hs.
      apply app_eq_nil in Hs as [-> Hs]. eauto.
  - rewrite orb_true_iff, IH, match_here_spec. split.
    + intros [(p & q & -> & H) | (pre & m & post & -> & H)].
      * by exists [], p, q.
      * by exists (a :: pre), m, post.
    + intros (pre & m & post & Hs & H). destruct pre as [|b pre]; simpl in Hs.
      * left. eauto.
      * injection Hs as -> ->. right. eauto.
Qed.


Lemma chr_eqb_exact c a : chr_eqb false c a = true ↔ c = a.
Proof. unfold chr_eqb. apply bool_decide_eq_true. Qed.

Lemma chr_eqb_fold c a :
  chr_eqb true c a = true ↔ Str.upper_char c = Str.upper_char a.
Proof. unfold chr_eqb. apply bool_decide_eq_true. Qed.

(** A literal word matches itself and nothing else. *)
Lemma matches_word w m : matches false (word w) m ↔ m = w.
Proof.
  revert m. induction w as [|c w IH]; intros m; simpl.
  - apply matches_eps_inv.
  - rewrite matches_seq_inv. split.
    + intros (s1 & s2 & -> & H1 & H2).
      apply matches_chr_inv in H1 as (a & -> & E%chr_eqb_exact).
      apply IH in H2. by subst.
    + intros ->. exists [c], w. split_and!; [done | | by apply IH].
      apply matches_chr_inv. exists c. by rewrite chr_eqb_exact.
Qed.

(** With the [i] flag a literal word matches its spellings in any case. *)
Lemma matches_word_fold w m :
  matches true (word w) m ↔ Str.toUpperCase m = Str.toUpperCase w.
Proof.
  revert m. induction w as [|c w IH]; intros m; simpl.
  - rewrite matches_eps_inv. unfold Str.toUpperCase. split.
    + by intros ->.
    + by intros ?%fmap_nil_inv.
  - rewrite matches_seq_inv. split.
    + intros (s1 & s2 & -> & H1 & H2).
      apply matches_chr_inv in H1 as (a & -> & E%chr_eqb_fold).
      apply IH in H2. unfold Str.toUpperCase in *. simpl. by f_equal.
    + destruct m as [|a m]; [done|]. unfold Str.toUpperCase. simpl. intros [= E1 E2].
      exists [a], m. split_and!; [done | | by apply IH].
      apply matches_chr_inv. exists a. by rewrite chr_eqb_fold.
Qed.

Lemma matches_alts i rs m : matches i (alts rs) m ↔ ∃ r, r ∈ rs ∧ matches i r m.
Proof.
  induction rs as [|r rs IH]; simpl.
  - rewrite matches_void_inv. split; [done | by intros (r & ?%elem_of_nil & _)].
  - rewrite matches_alt_inv, IH. split.
    + intros [H | (r' & Hin & H)]; [exists r | exists r']; split; auto;
        [by left | by right].
    + intros (r' & [-> | Hin]%elem_of_cons & H); eauto.
Qed.

Lemma matches_star_cls i p m :
  matches i (Star (Cls p)) m ↔ Forall (λ c, p c = true) m.
Proof.
  split.
  - intros H. remember (Star (Cls p)) as r eqn:Hr.
    induction H; try discriminate; [constructor|].
    injection Hr as ->. apply matches_cls_inv in H as (a & -> & Ha).
    constructor; auto.
  - induction 1 as [|a m Ha _ IH]; [constructor|].
    apply (m_star_cons i (Cls p) [a] m); [by constructor | done].
Qed.

Lemma matches_plus_cls i p m :
  matches i (plus (Cls p)) m ↔ m ≠ [] ∧ Forall (λ c, p c = true) m.
Proof.
  unfold plus. rewrite matches_seq_inv. split.
  - intros (s1 & s2 & -> & (a & -> & Ha)%matches_cls_inv & H2%matches_star_cls).
    split; [done | by constructor].
  - intros [Hne H]. destruct H as [|a m Ha H]; [done|].
    exists [a], m. split_and!; [done | by constructor | by apply matches_star_cls].
Qed.

(** An alternation of words is found in a text when one of the words
    occurs in it. *)
Lemma test_words ws s :
  test false (alts (word <$> ws)) s = true ↔ ∃ w, w ∈ ws ∧ Str.contains w s.
Proof.
  rewrite test_spec. unfold Str.contains. split.
  - intros (pre & m & post & -> & (r & (w & -> & Hw)%list_elem_of_fmap & Hm)%matches_alts).
    apply matches_word in Hm as ->. eauto.
  - intros (w & Hw & pre & post & ->). exists pre, w, post. split; [done|].
    apply matches_alts. exists (word w). split; [|by apply matches_word].
    apply list_elem_of_fmap. eauto.
Qed.

End RegExpFacts.

(** ** Risk assessment *)

Module RiskFacts.
Import RegExp RegExpFacts Risk.

Lemma financial_test u : test false financial_re u = true ↔ Spec.financial u.
Proof.
  unfold financial_re, financial_keywords, Spec.financial. rewrite test_words.
  split.
  - intros (w & Hw & Hc).
    repeat (apply elem_of_cons in Hw as [-> | Hw]; [tauto|]).
    by apply elem_of_nil in Hw.
  - intros H. repeat (destruct H as [H | H]; [eexists; split; [|exact H]|]);
      [..|eexists; split; [|exact H]]; repeat first [by left | right].
Qed.

Lemma auth_test u : test false auth_re u = true ↔ Spec.auth u.
Proof.
  unfold auth_re, auth_paths, Spec.auth. rewrite test_words.
  split.
  - intros (w & Hw & Hc).
    repeat (apply elem_of_cons in Hw as [-> | Hw]; [tauto|]).
    by apply elem_of_nil in Hw.
  - intros H. repeat (destruct H as [H | H]; [eexists; split; [|exact H]|]);
      [..|eexists; split; [|exact H]]; repeat first [by left | right].
Qed.

Lemma not_slash_free id : Forall (λ c, not_slash c = true) id ↔ "/"%char ∉ id.
Proof.
  rewrite Forall_forall. unfold not_slash. split.
  - intros H Hin. apply H in Hin. by apply bool_decide_eq_true in Hin.
  - intros H c Hc. apply bool_decide_eq_true. by intros ->.
Qed.

Lemma account_matches m :
  matches false account_re m ↔
    (∃ id, m = Str.lit "/users/" ++ id ++ Str.lit "/delete"
           ∧ id ≠ [] ∧ "/"%char ∉ id)
    ∨ m = Str.lit "/account/close" ∨ m = Str.lit "/account/delete".
Proof.
  unfold account_re.
  match goal with
  | |- matches _ (alts [?a; ?b; ?c]) _ ↔ _ =>
      change (alts [a; b; c]) with (Alt a (Alt b (Alt c Void)))
  end.
  rewrite !matches_alt_inv, matches_void_inv, !matches_word.
  split.
  - intros [H | [H | [H | []]]]; auto.
    apply matches_seq_inv in H as (s1 & s2 & -> & ->%matches_word & H2).
    apply matches_seq_inv in H2
      as (id & s3 & -> & [Hne Hid]%matches_plus_cls & ->%matches_word).
    apply not_slash_free in Hid. left. eauto.
  - intros [(id & -> & Hne & Hid) | [H | H]]; auto.
    left. apply matches_seq_inv.
    exists (Str.lit "/users/"), (id ++ Str.lit "/delete").
    split_and!; [done | by apply matches_word |].
    apply matches_seq_inv. exists id, (Str.lit "/delete").
    split_and!; [done | | by apply matches_word].
    apply matches_plus_cls. by rewrite not_slash_free.
Qed.

Lemma account_test u : test false account_re u = true ↔ Spec.account_deletion u.
Proof.
  rewrite test_spec. unfold Spec.account_deletion, Str.contains.
  setoid_rewrite account_matches. split.
  - intros (pre & m & post & -> & [(id & -> & Hne & Hid) | [-> | ->]]).
    + left. exists pre, id, post. by rewrite <- !(assoc_L (++)).
    + right; left. eauto.
    + right; right. eauto.
  - intros [(pre & id & post & -> & Hne & Hid) | [(pre & post & ->) | (pre & post & ->)]].
    + exists pre, (Str.lit "/users/" ++ id ++ Str.lit "/delete"), post.
      split; [by rewrite <- !(assoc_L (++)) | left; eauto].
    + exists pre, (Str.lit "/account/close"), post. auto.
    + exists pre, (Str.lit "/account/delete"), post. auto.
Qed.

(** [assessRisk] with its tests read as the properties they decide. *)
Lemma assessRisk_high_delete method url :
  Str.toUpperCase method = Str.lit "DELETE" → assessRisk method url = high.
Proof. intros H. unfold assessRisk. by rewrite bool_decide_eq_true_2. Qed.

Lemma assessRisk_sound method url r : Spec.classify method url r → assessRisk method url = r.
Proof.
  intros H. unfold assessRisk.
  destruct H as [Hd | Hd Hf | Hd Hf Ha | Hm Hf Ha | Hm Hf Ha Hau | Hm Hf Ha Hau].
  - by rewrite bool_decide_eq_true_2.
  - rewrite bool_decide_eq_false_2 by done.
    apply financial_test in Hf. by rewrite Hf.
  - rewrite bool_decide_eq_false_2 by done.
    rewrite <- financial_test, not_true_iff_false in Hf. rewrite Hf.
    apply account_test in Ha. by rewrite Ha.
  - rewrite <- financial_test, not_true_iff_false in Hf.
    rewrite <- account_test, not_true_iff_false in Ha. rewrite Hf, Ha.
    destruct Hm as [Hm | Hm]; rewrite Hm; by vm_compute.
  - rewrite <- financial_test, not_true_iff_false in Hf.
    rewrite <- account_test, not_true_iff_false in Ha.
    apply auth_test in Hau. rewrite Hf, Ha, Hau.
    rewrite !bool_decide_eq_false_2; [done | set_solver..].
  - rewrite <- financial_test, not_true_iff_false in Hf.
    rewrite <- account_test, not_true_iff_false in Ha.
    rewrite <- auth_test, not_true_iff_false in Hau. rewrite Hf, Ha, Hau.
    rewrite !bool_decide_eq_false_2; [done | set_solver..].
Qed.

Lemma assessRisk_complete method url : Spec.classify method url (assessRisk method url).
Proof.
  unfold assessRisk.
  destruct (bool_decide_reflect (Str.toUpperCase method = Str.lit "DELETE")) as [|Hd];
    [by apply Spec.rule_delete|].
  destruct (test false financial_re _) eqn:Hf;
    [by apply Spec.rule_financial, financial_test|].
  rewrite <- not_true_iff_false, financial_test in Hf.
  destruct (test false account_re _) eqn:Ha;
    [by apply Spec.rule_account, account_test|].
  rewrite <- not_true_iff_false, account_test in Ha.
  destruct (bool_decide_reflect (Str.toUpperCase method = Str.lit "PUT")) as [|Hput];
    [apply Spec.rule_modify; auto|].
  destruct (bool_decide_reflect (Str.toUpperCase method = Str.lit "PATCH")) as [|Hpatch];
    [apply Spec.rule_modify; auto|].
  assert (Str.toUpperCase method ∉ Str.lit <$> ["DELETE"; "PUT"; "PATCH"]%string).
  { simpl. rewrite !elem_of_cons, elem_of_nil. tauto. }
  simpl. destruct (test false auth_re _) eqn:Hau.
  - by apply Spec.rule_auth, auth_test.
  - rewrite <- not_true_iff_false, auth_test in Hau. by apply Spec.rule_otherwise.
Qed.

(** C2. [assessRisk] is a total function of the method and the URL, and it
    is the six rules of the specification in their order, the first that
    applies deciding: a tier is the outcome of the rules exactly when
    [assessRisk] computes it, so the rules give every pair one tier and
    only one.  In particular DELETE in any case is high on every URL; PUT
    and PATCH are medium on a URL that none of the rules before theirs
    applies to (no financial keyword, no account-deletion path); GET
    /products is low; and two calls on the same input agree.  Rule by
    rule: a URL that contains checkout, payment, order, purchase, billing
    or subscription, in any case of letters, is high whatever the method;
    so is an account-deletion path; a URL that contains [/auth/], [/login],
    [/logout] or [/register] is medium when no rule before applies; and a
    call that no rule applies to is low. *)
Theorem assessRisk_priority_order :
  (∀ method url r, Spec.classify method url r ↔ assessRisk method url = r)
  ∧ (∀ method url, ∃ r, Spec.classify method url r)
  ∧ (∀ method url r1 r2,
       Spec.classify method url r1 → Spec.classify method url r2 → r1 = r2)
  ∧ (∀ method url,
       Str.toUpperCase method = Str.lit "DELETE" → assessRisk method url = high)
  ∧ (∀ method url,
       Str.toUpperCase method = Str.lit "PUT"
       ∨ Str.toUpperCase method = Str.lit "PATCH" →
       ¬ Spec.financial (Str.toLowerCase url) →
       ¬ Spec.account_deletion (Str.toLowerCase url) →
       assessRisk method url = medium)
  ∧ assessRisk (Str.lit "GET") (Str.lit "/products") = low
  ∧ (∀ method url r1 r2,
       assessRisk method url = r1 → assessRisk method url = r2 → r1 = r2)
  ∧ (∀ method url w,
       w ∈ Str.lit <$> ["checkout"; "payment"; "order"; "purchase"; "billing";
                        "subscription"]%string →
       Str.contains w (Str.toLowerCase url) →
       assessRisk method url = high)
  ∧ (∀ method url,
       Spec.account_deletion (Str.toLowerCase url) → assessRisk method url = high)
  ∧ (∀ method url w,
       w ∈ Str.lit <$> ["/auth/"; "/login"; "/logout"; "/register"]%string →
       Str.contains w (Str.toLowerCase url) →
       Str.toUpperCase method ≠ Str.lit "DELETE" →
       ¬ Spec.financial (Str.toLowerCase url) →
       ¬ Spec.account_deletion (Str.toLowerCase url) →
       assessRisk method url = medium)
  ∧ (∀ method url,
       Str.toUpperCase method ∉ Str.lit <$> ["DELETE"; "PUT"; "PATCH"]%string →
       ¬ Spec.financial (Str.toLowerCase url) →
       ¬ Spec.account_deletion (Str.toLowerCase url) →
       ¬ Spec.auth (Str.toLowerCase url) →
       assessRisk method url = low).
Proof.
  assert (Hiff : ∀ method url r,
             Spec.classify method url r ↔ assessRisk method url = r).
  { intros method url r. split; [apply assessRisk_sound|].
    intros <-. apply assessRisk_complete. }
  split_and!.
  - exact Hiff.
  - intros method url. eexists. apply assessRisk_complete.
  - intros method url r1 r2 H1%Hiff H2%Hiff. congruence.
  - apply assessRisk_high_delete.
  - intros method url Hm Hf Ha. apply assessRisk_sound. by apply Spec.rule_modify.
  - by vm_compute.
  - congruence.
  - intros method url w Hw Hc.
    assert (Hf : Spec.financial (Str.toLowerCase url)).
    { unfold Spec.financial.
      repeat (apply elem_of_cons in Hw as [-> | Hw]; [tauto|]).
      by apply elem_of_nil in Hw. }
    destruct (decide (Str.toUpperCase method = Str.lit "DELETE")).
    + by apply assessRisk_high_delete.
    + apply assessRisk_sound. by apply Spec.rule_financial.
  - intros method url Ha.
    destruct (decide (Str.toUpperCase method = Str.lit "DELETE"));
      [by apply assessRisk_high_delete|].
    unfold assessRisk. rewrite bool_decide_eq_false_2 by done.
    destruct (test false financial_re _); [done|].
    apply account_test in Ha. by rewrite Ha.
  - intros method url w Hw Hc Hd Hf Ha.
    assert (Hau : Spec.auth (Str.toLowerCase url)).
    { unfold Spec.auth.
      repeat (apply elem_of_cons in Hw as [-> | Hw]; [tauto|]).
      by apply elem_of_nil in Hw. }
    destruct (decide (Str.toUpperCase method = Str.lit "PUT")) as [Hput | Hput];
      [apply assessRisk_sound, Spec.rule_modify; auto|].
    destruct (decide (Str.toUpperCase method = Str.lit "PATCH")) as [Hpatch | Hpatch];
      [apply assessRisk_sound, Spec.rule_modify; auto|].
    apply assessRisk_sound, Spec.rule_auth; try done.
    simpl. rewrite !elem_of_cons, elem_of_nil. tauto.
  - intros method url Hm Hf Ha Hau. apply assessRisk_sound.
    by apply Spec.rule_otherwise.
Qed.

(** The order of the rules at work: the rule on account-deletion paths
    comes before the rule on PUT and PATCH, so a PUT on [/account/close],
    a URL with none of the financial keywords, is high. *)
Lemma modify_on_account_path_is_high :
  let url := Str.lit "https://x.com/account/close" in
  ¬ Spec.financial (Str.toLowerCase url)
  ∧ assessRisk (Str.lit "PUT") url = high
  ∧ assessRisk (Str.lit "PUT") url ≠ medium.
Proof.
  split_and!.
  - rewrite <- financial_test. by vm_compute.
  - by vm_compute.
  - by vm_compute.
Qed.

(** The scenarios of the specification, a PATCH of a profile and a POST
    to a checkout URL, and one call for each of the other rules. *)
Lemma assessRisk_priority_order_witness :
  assessRisk (Str.lit "PATCH") (Str.lit "https://x.com/api/profile") = medium
  ∧ assessRisk (Str.lit "delete") (Str.lit "https://x.com/api/items/7") = high
  ∧ assessRisk (Str.lit "POST") (Str.lit "https://x.com/api/Checkout") = high
  ∧ assessRisk (Str.lit "GET") (Str.lit "https://x.com/users/7/delete") = high
  ∧ assessRisk (Str.lit "POST") (Str.lit "https://x.com/login") = medium
  ∧ assessRisk (Str.lit "GET") (Str.lit "https://x.com/api/items") = low.
Proof.
  destruct assessRisk_priority_order
    as (_ & _ & _ & Hdelete & Hmodify & _ & _ & Hfin & Hacc & Hauth & Hlow).
  split_and!.
  - apply Hmodify.
    + right. by vm_compute.
    + rewrite <- financial_test. by vm_compute.
    + rewrite <- account_test. by vm_compute.
  - apply Hdelete. by vm_compute.
  - apply (Hfin _ _ (Str.lit "checkout")); [by left|].
    by exists (Str.lit "https://x.com/api/"), [].
  - apply Hacc. rewrite <- account_test. by vm_compute.
  - apply (Hauth _ _ (Str.lit "/login")).
    + right; by left.
    + by exists (Str.lit "https://x.com"), [].
    + by vm_compute.
    + rewrite <- financial_test. by vm_compute.
    + rewrite <- account_test. by vm_compute.
  - apply Hlow.
    + vm_compute. intros Hin.
      repeat (apply elem_of_cons in Hin as [Hin | Hin]; [discriminate|]).
      by apply elem_of_nil in Hin.
    + rewrite <- financial_test. by vm_compute.
    + rewrite <- account_test. by vm_compute.
    + rewrite <- auth_test. by vm_compute.
Defined.

End RiskFacts.

(** ** The agent core *)

Module AgentFacts.
Import Risk Agent Inv.

Section WithListeners.
Variable body : Listener → AgentEvent → list Cmd.

Lemma registered_wf a : wf a → arrays a !! listeners a = Some (registered a).
Proof.
  unfold wf, registered. intros H.
  destruct (lookup_lt_is_Some_2 _ _ H) as [l Hl]. by rewrite Hl.
Qed.

Lemma registered_not_wf a : ¬ wf a → registered a = [].
Proof.
  unfold wf, registered. intros H.
  rewrite lookup_ge_None_2; [done | lia].
Qed.

Lemma run_cmd_spec a c :
  wf a →
  wf (run_cmd a c)
  ∧ registered (run_cmd a c) = Spec.subscription (registered a) c
  ∧ invoked (run_cmd a c) = invoked a
  ∧ rendezvous (run_cmd a c) = rendezvous a
  ∧ ∀ arr snap, extends arr snap a → extends arr snap (run_cmd a c).
Proof.
  intros Hwf. pose proof (registered_wf a Hwf) as Hreg.
  destruct c as [cb | cb]; simpl.
  - unfold onEvent, wf, registered, extends in *. simpl.
    rewrite length_alter. split_and!; try done.
    + rewrite list_lookup_alter_eq, Hreg. done.
    + intros arr snap [extra He].
      destruct (decide (arr = listeners a)) as [-> | Hne].
      * rewrite list_lookup_alter_eq, He. simpl.
        exists (extra ++ [cb]). by rewrite (assoc_L (++)).
      * rewrite list_lookup_alter_ne by done. eauto.
  - unfold offEvent, wf, registered, extends in *. simpl.
    rewrite length_app. simpl. split_and!; try done.
    + lia.
    + rewrite lookup_app_r by lia. by rewrite Nat.sub_diag.
    + intros arr snap [extra He]. exists extra.
      rewrite lookup_app_l; [done | by eapply lookup_lt_Some].
Qed.

Lemma run_cmds_spec cs a :
  wf a →
  wf (foldl run_cmd a cs)
  ∧ registered (foldl run_cmd a cs) = foldl Spec.subscription (registered a) cs
  ∧ invoked (foldl run_cmd a cs) = invoked a
  ∧ rendezvous (foldl run_cmd a cs) = rendezvous a
  ∧ ∀ arr snap, extends arr snap a → extends arr snap (foldl run_cmd a cs).
Proof.
  revert a. induction cs as [|c cs IH]; intros a Hwf; simpl; [done|].
  destruct (run_cmd_spec a c Hwf) as (Hwf' & Hr & Hi & Hz & He).
  destruct (IH _ Hwf') as (? & Hr' & Hi' & Hz' & He').
  split_and!; [done | by rewrite Hr', Hr | by rewrite Hi' | by rewrite Hz' | auto].
Qed.

Lemma call_spec l event a :
  wf a →
  wf (call body l event a)
  ∧ registered (call body l event a)
    = foldl Spec.subscription (registered a) (body l event)
  ∧ invoked (call body l event a) = invoked a ++ [(l, event)]
  ∧ rendezvous (call body l event a) = rendezvous a
  ∧ ∀ arr snap, extends arr snap a → extends arr snap (call body l event a).
Proof.
  intros Hwf. unfold call.
  by destruct (run_cmds_spec (body l event)
                 (with_invoked (invoked a ++ [(l, event)]) a) Hwf).
Qed.

(** The first [k] turns of the loop of [emit] over the array at [arr],
    whose content was [snap] when the loop started. *)
Lemma forEach_turns arr snap event a k :
  wf a → extends arr snap a → k ≤ length snap →
  let a' := foldl (forEach_turn body arr event) a (seq 0 k) in
  wf a'
  ∧ extends arr snap a'
  ∧ invoked a' = invoked a ++ Spec.dispatch event (take k snap)
  ∧ registered a'
    = foldl Spec.subscription (registered a) (take k snap ≫= λ l, body l event)
  ∧ rendezvous a' = rendezvous a.
Proof.
  intros Hwf Hext. induction k as [|k IH]; intros Hk; cbv zeta.
  - cbn [seq foldl]. rewrite take_0. cbn. by rewrite (right_id_L [] (++)).
  - rewrite seq_S, foldl_app. cbn [foldl Nat.add]. cbv zeta in IH.
    destruct IH as (Hwf' & [extra He] & Hi & Hr & Hz); [lia|].
    destruct (lookup_lt_is_Some_2 snap k) as [l Hl]; [lia|].
    set (a_k := foldl (forEach_turn body arr event) a (seq 0 k)) in *.
    assert (Hturn : forEach_turn body arr event a_k k = call body l event a_k).
    { unfold forEach_turn. rewrite He. simpl.
      by rewrite (lookup_app_l_Some _ _ _ _ Hl). }
    rewrite Hturn.
    destruct (call_spec l event _ Hwf') as (? & Hr' & Hi' & Hz' & He').
    rewrite (take_S_r _ _ _ Hl). unfold Spec.dispatch.
    rewrite fmap_app, bind_app, foldl_app. simpl.
    rewrite (right_id_L [] (++)).
    split_and!.
    + done.
    + apply He'. by exists extra.
    + rewrite Hi', Hi. unfold Spec.dispatch. by rewrite (assoc_L (++)).
    + by rewrite Hr', Hr.
    + by rewrite Hz'.
Qed.

Lemma emit_spec event a :
  invoked (emit body event a) = invoked a ++ Spec.dispatch event (registered a)
  ∧ registered (emit body event a) = Spec.after_dispatch body event (registered a)
  ∧ rendezvous (emit body event a) = rendezvous a
  ∧ (wf a → wf (emit body event a)).
Proof.
  unfold emit, Spec.after_dispatch. destruct (decide (wf a)) as [Hwf | Hwf].
  - destruct (forEach_turns (listeners a) (registered a) event a
                (length (registered a))) as (? & _ & Hi & Hr & Hz).
    + done.
    + exists []. by rewrite (right_id_L [] (++)), registered_wf.
    + done.
    + rewrite firstn_all in Hi, Hr. done.
  - rewrite (registered_not_wf a Hwf). simpl.
    by rewrite (right_id_L [] (++)), (registered_not_wf a Hwf).
Qed.

(** C8. [emit] calls, in the order of registration, exactly the listeners
    that were registered when it was called: the calls it adds to the
    history are the dispatch of the event over that list, whatever the
    handlers subscribe or unsubscribe meanwhile.  What the handlers did
    shows in the list of listeners once [emit] has returned, and the next
    [emit] goes over that list. *)
Theorem emit_dispatches_snapshot event a :
  invoked (emit body event a) = invoked a ++ Spec.dispatch event (registered a)
  ∧ registered (emit body event a)
    = Spec.after_dispatch body event (registered a)
  ∧ ∀ next,
      invoked (emit body next (emit body event a))
      = invoked a ++ Spec.dispatch event (registered a)
        ++ Spec.dispatch next (Spec.after_dispatch body event (registered a)).
Proof.
  destruct (emit_spec event a) as (Hi & Hr & _ & _).
  split_and!; [done | done |].
  intros next. destruct (emit_spec next (emit body event a)) as (Hi' & _).
  by rewrite Hi', Hi, Hr, (assoc_L (++)).
Qed.

(** *** The approval rendezvous *)

Lemma settle_pending {D} p (d : D) ps :
  ps !! p = Some None →
  settle p d ps = <[p := Some d]> ps
  ∧ settle p d ps !! p = Some (Some d)
  ∧ (∀ q, q ≠ p → settle p d ps !! q = ps !! q)
  ∧ length (settle p d ps) = length ps.
Proof.
  intros H. unfold settle. rewrite H. split_and!.
  - done.
  - apply list_lookup_insert_eq. by eapply lookup_lt_Some.
  - intros q Hq. by apply list_lookup_insert_ne.
  - apply length_insert.
Qed.

Lemma settle_other {D} p (d : D) ps q : q ≠ p → settle p d ps !! q = ps !! q.
Proof.
  intros Hq. unfold settle. destruct (ps !! p) as [[|]|]; try done.
  by apply list_lookup_insert_ne.
Qed.

Lemma requestApproval_spec payload a :
  let event := ev_approval_required (ap_action payload) (ap_method payload)
                 (ap_endpoint payload) (ap_preview payload) (ap_risk payload) in
  let r := requestApproval body payload a in
  r.1 = length (approvals a)
  ∧ approvals r.2 = approvals a ++ [None]
  ∧ resolver r.2 = Some r.1
  ∧ approvals r.2 !! r.1 = Some None
  ∧ invoked r.2 = invoked a ++ Spec.dispatch event (registered a)
  ∧ registered r.2 = Spec.after_dispatch body event (registered a)
  ∧ mode r.2 = mode a.
Proof.
  intros event r. subst r. unfold requestApproval. fold event.
  destruct (emit_spec event a) as (Hi & Hr & Hz & _).
  injection Hz as Hap _ _ _ _ _ Hm. simpl. rewrite Hap.
  split_and!; try done.
  by rewrite lookup_app_r, Nat.sub_diag.
Qed.

Lemma emit_slot_pending event a : slot_pending a → slot_pending (emit body event a).
Proof.
  unfold slot_pending. destruct (emit_spec event a) as (_ & _ & Hz & _).
  injection Hz as -> -> _ _ _ _ _. done.
Qed.

Lemma requestApproval_slot_pending payload a :
  slot_pending (requestApproval body payload a).2.
Proof.
  destruct (requestApproval_spec payload a) as (_ & _ & Hres & Hpend & _).
  intros p Hp. rewrite Hres in Hp. by injection Hp as <-.
Qed.

Lemma resolveApproval_slot_pending d a : slot_pending (resolveApproval d a).
Proof.
  unfold slot_pending, resolveApproval. intros p.
  destruct (resolver a) as [q|] eqn:Hq; simpl; [done | by rewrite Hq].
Qed.

Lemma handleNetworkCall_state method url status timestamp a :
  let a1 := emit body (ev_network method url status timestamp) a in
  (handleNetworkCall body method url status timestamp a).2 = a1
  ∨ ∃ payload,
      (handleNetworkCall body method url status timestamp a).2
      = (requestApproval body payload a1).2.
Proof.
  intros a1. unfold handleNetworkCall. fold a1.
  destruct (bool_decide (assessRisk method url = high)).
  - right.
    match goal with |- context [requestApproval body ?pl a1] => exists pl end.
    by destruct (requestApproval body _ a1).
  - destruct (bool_decide (assessRisk method url = medium) && _).
    + right.
      match goal with |- context [requestApproval body ?pl a1] => exists pl end.
      by destruct (requestApproval body _ a1).
    + by left.
Qed.

Lemma run_op_slot_pending a o : slot_pending a → slot_pending (run_op body a o).
Proof.
  intros H. destruct o; simpl; try done.
  - by apply emit_slot_pending.
  - apply requestApproval_slot_pending.
  - apply resolveApproval_slot_pending.
  - unfold requestActionDecision. simpl. by apply emit_slot_pending.
  - unfold resolveActionDecision. by destruct (actionResolver a).
  - unfold requestNextSteps. simpl. by apply emit_slot_pending.
  - unfold resolveNextSteps. by destruct (nextStepsResolver a).
  - unfold setMode. by apply emit_slot_pending.
  - destruct (handleNetworkCall_state method url status timestamp a)
      as [-> | (payload & ->)].
    + by apply emit_slot_pending.
    + apply requestApproval_slot_pending.
Qed.

Lemma run_slot_pending ops a : slot_pending a → slot_pending (run body a ops).
Proof.
  revert a. unfold run. induction ops as [|o ops IH]; intros a H; simpl; [done|].
  by apply IH, run_op_slot_pending.
Qed.

(** C6. [resolveApproval] without a pending request changes nothing.  With
    a request pending it resolves the promise in the slot with the decision
    given, leaves every other promise and the rest of the agent as they
    were, and empties the slot, so that a second [resolveApproval] changes
    nothing again.  After [requestApproval] the promise it returned is the
    one pending in the slot, and in every state an agent can reach the
    promise in the slot is pending. *)
Theorem resolveApproval_rendezvous decision a :
  (resolver a = None → resolveApproval decision a = a)
  ∧ (∀ p, resolver a = Some p → approvals a !! p = Some None →
       let a' := resolveApproval decision a in
       approvals a' !! p = Some (Some decision)
       ∧ (∀ q, q ≠ p → approvals a' !! q = approvals a !! q)
       ∧ length (approvals a') = length (approvals a)
       ∧ resolver a' = None
       ∧ a' = with_approval (approvals a') None a
       ∧ ∀ again, resolveApproval again a' = a')
  ∧ (∀ payload,
       let r := requestApproval body payload a in
       resolver r.2 = Some r.1 ∧ approvals r.2 !! r.1 = Some None
       ∧ approvals (resolveApproval decision r.2) !! r.1 = Some (Some decision))
  ∧ (∀ ops p,
       resolver (run body init ops) = Some p →
       approvals (run body init ops) !! p = Some None).
Proof.
  split_and!.
  - intros H. unfold resolveApproval. by rewrite H.
  - intros p Hp Hpending. unfold resolveApproval. rewrite Hp. simpl.
    destruct (settle_pending p decision _ Hpending) as (_ & H1 & H2 & H3).
    split_and!; done.
  - intros payload r.
    destruct (requestApproval_spec payload a) as (_ & _ & Hres & Hpend & _).
    fold r in Hres, Hpend. split_and!; [done | done |].
    unfold resolveApproval. rewrite Hres. simpl.
    by destruct (settle_pending r.1 decision _ Hpend) as (_ & H1 & _).
  - intros ops. by apply run_slot_pending.
Qed.

Lemma emit_orphan p event a : orphan p a → orphan p (emit body event a).
Proof.
  unfold orphan. destruct (emit_spec event a) as (_ & _ & Hz & _).
  injection Hz as -> -> _ _ _ _ _. done.
Qed.

Lemma requestApproval_orphan p payload a :
  orphan p a → orphan p (requestApproval body payload a).2.
Proof.
  intros [Hp Hr].
  destruct (requestApproval_spec payload a) as (Hnew & Hap & Hres & _).
  unfold orphan. rewrite Hap, Hres, Hnew.
  pose proof (lookup_lt_Some _ _ _ Hp) as Hlt.
  split; [by rewrite lookup_app_l | intros [= E]; lia].
Qed.

Lemma resolveApproval_orphan p d a : orphan p a → orphan p (resolveApproval d a).
Proof.
  intros [Hp Hr]. unfold orphan, resolveApproval.
  destruct (resolver a) as [q|] eqn:Hq; simpl; [|by rewrite Hq].
  split; [|done]. rewrite settle_other; [done | congruence].
Qed.

Lemma run_op_orphan p a o : orphan p a → orphan p (run_op body a o).
Proof.
  intros H. destruct o; simpl; try done.
  - by apply emit_orphan.
  - by apply requestApproval_orphan.
  - by apply resolveApproval_orphan.
  - unfold requestActionDecision. simpl. by apply emit_orphan.
  - unfold resolveActionDecision. by destruct (actionResolver a).
  - unfold requestNextSteps. simpl. by apply emit_orphan.
  - unfold resolveNextSteps. by destruct (nextStepsResolver a).
  - unfold setMode. by apply emit_orphan.
  - destruct (handleNetworkCall_state method url status timestamp a)
      as [-> | (payload & ->)].
    + by apply emit_orphan.
    + by apply requestApproval_orphan, emit_orphan.
Qed.

Lemma run_orphan p ops a : orphan p a → orphan p (run body a ops).
Proof.
  revert a. unfold run. induction ops as [|o ops IH]; intros a H; simpl; [done|].
  by apply IH, run_op_orphan.
Qed.

Lemma emit_approvals event a :
  approvals (emit body event a) = approvals a
  ∧ resolver (emit body event a) = resolver a.
Proof.
  destruct (emit_spec event a) as (_ & _ & Hz & _).
  by injection Hz as -> -> _ _ _ _ _.
Qed.

Lemma settle_length {D} p (d : D) ps : length (settle p d ps) = length ps.
Proof.
  unfold settle. destruct (ps !! p) as [[|]|]; try done. apply length_insert.
Qed.

(** No call on the agent takes a promise away. *)
Lemma run_op_approvals_length a o :
  length (approvals a) ≤ length (approvals (run_op body a o)).
Proof.
  destruct o; cbn [run_op]; try done.
  - by destruct (emit_approvals event a) as [-> _].
  - destruct (requestApproval_spec payload a) as (_ & -> & _).
    rewrite length_app. lia.
  - unfold resolveApproval. destruct (resolver a); simpl; [|done].
    by rewrite settle_length.
  - unfold requestActionDecision. simpl.
    by destruct (emit_approvals (ev_action_suggestion action reason) a) as [-> _].
  - unfold resolveActionDecision. by destruct (actionResolver a).
  - unfold requestNextSteps. simpl.
    by destruct (emit_approvals (ev_next_steps summary question) a) as [-> _].
  - unfold resolveNextSteps. by destruct (nextStepsResolver a).
  - unfold setMode.
    by destruct (emit_approvals (ev_mode_change m) (with_mode m a)) as [-> _].
  - destruct (handleNetworkCall_state method url status timestamp a)
      as [-> | (payload & ->)].
    + by destruct (emit_approvals (ev_network method url status timestamp) a)
        as [-> _].
    + destruct (requestApproval_spec payload
                  (emit body (ev_network method url status timestamp) a))
        as (_ & -> & _).
      destruct (emit_approvals (ev_network method url status timestamp) a)
        as [-> _].
      rewrite length_app. lia.
Qed.

(** What the risk gate leaves behind: a new promise, pending and in the
    slot, when it asks for an approval; the promises and the slot as they
    were when it does not. *)
Lemma handleNetworkCall_promise method url status timestamp a :
  let r := handleNetworkCall body method url status timestamp a in
  match r.1 with
  | Await p =>
      p = length (approvals a) ∧ approvals r.2 = approvals a ++ [None]
      ∧ resolver r.2 = Some p
  | Now _ => approvals r.2 = approvals a ∧ resolver r.2 = resolver a
  end.
Proof.
  intros r. subst r. unfold handleNetworkCall.
  set (a1 := emit body (ev_network method url status timestamp) a).
  destruct (emit_approvals (ev_network method url status timestamp) a)
    as [Hap Hres]. fold a1 in Hap, Hres.
  assert (Hask : ∀ payload,
            let r := requestApproval body payload a1 in
            r.1 = length (approvals a) ∧ approvals r.2 = approvals a ++ [None]
            ∧ resolver r.2 = Some r.1).
  { intros payload r.
    destruct (requestApproval_spec payload a1) as (H1 & H2 & H3 & _).
    fold r in H1, H2, H3. by rewrite H1, H2, Hap in *. }
  destruct (bool_decide (assessRisk method url = high)).
  - match goal with |- context [requestApproval body ?pl a1] =>
      specialize (Hask pl); destruct (requestApproval body pl a1) as [p a2]
    end.
    simpl in *. destruct Hask as (-> & -> & ->). done.
  - destruct (bool_decide (assessRisk method url = medium) && _).
    + match goal with |- context [requestApproval body ?pl a1] =>
        specialize (Hask pl); destruct (requestApproval body pl a1) as [p a2]
      end.
      simpl in *. destruct Hask as (-> & -> & ->). done.
    + done.
Qed.

(** C7. The rendezvous is one slot.  A second [requestApproval] made while
    the first is pending takes the slot: it holds the second promise, the
    first promise is pending and no longer in it, and whatever is called on
    the agent afterwards, any number of [resolveApproval] with any decision
    included, the first promise stays pending. *)
Theorem superseded_approval_never_resolves payload1 payload2 a ops :
  let r1 := requestApproval body payload1 a in
  let r2 := requestApproval body payload2 r1.2 in
  resolver r1.2 = Some r1.1
  ∧ resolver r2.2 = Some r2.1
  ∧ r1.1 ≠ r2.1
  ∧ approvals (run body r2.2 ops) !! r1.1 = Some None.
Proof.
  intros r1 r2.
  destruct (requestApproval_spec payload1 a) as (Hn1 & Ha1 & Hr1 & Hp1 & _).
  destruct (requestApproval_spec payload2 r1.2) as (Hn2 & Ha2 & Hr2 & Hp2 & _).
  fold r1 in Hn1, Ha1, Hr1, Hp1, Hn2, Ha2, Hr2, Hp2. fold r2 in Hn2, Ha2, Hr2, Hp2.
  assert (Hne : r1.1 ≠ r2.1).
  { rewrite Hn2, Ha1, length_app, Hn1. simpl. lia. }
  split_and!; [done | done | done |].
  apply (run_orphan r1.1 ops r2.2). split.
  - rewrite Ha2. apply lookup_app_l_Some. done.
  - rewrite Hr2. congruence.
Qed.

(** *** The risk gate *)

(** C1. [handleNetworkCall] always dispatches a [network] event to the
    listeners registered at the call.  When the risk is high, in every
    mode, or medium in mode EXECUTE, it then requests an approval: an
    [approval_required] event follows, a new promise is parked in the slot,
    and the call hands back what that promise resolves to, so the decision
    given to [resolveApproval] is its result.  In every other case it
    requests nothing: the state is the one [emit] left and the result is
    [null] at once. *)
Theorem handleNetworkCall_gate method url status timestamp a :
  let r := handleNetworkCall body method url status timestamp a in
  let net := network_event method url status timestamp in
  let gated :=
    bool_decide (assessRisk method url = high)
    || bool_decide (assessRisk method url = medium) && bool_decide (mode a = EXECUTE) in
  (∃ rest, invoked r.2 = invoked a ++ Spec.dispatch net (registered a) ++ rest)
  ∧ (gated = true →
       r.1 = Await (length (approvals a))
       ∧ resolver r.2 = Some (length (approvals a))
       ∧ approvals r.2 = approvals a ++ [None]
       ∧ invoked r.2
         = invoked a ++ Spec.dispatch net (registered a)
           ++ Spec.dispatch (approval_event method url)
                (Spec.after_dispatch body net (registered a))
       ∧ result_in r.2 r.1 = None
       ∧ ∀ decision,
           result_in (resolveApproval decision r.2) r.1 = Some (Some decision))
  ∧ (gated = false →
       r = (Now None, emit body net a)
       ∧ approvals r.2 = approvals a
       ∧ resolver r.2 = resolver a
       ∧ invoked r.2 = invoked a ++ Spec.dispatch net (registered a)).
Proof.
  intros r net gated. unfold network_event, approval_event in *.
  destruct (emit_spec net a) as (Hi & Hr & Hz & _).
  injection Hz as Hap Hres _ _ _ _ Hm.
  set (payload := {| ap_action := describe method url; ap_method := method;
                     ap_endpoint := url; ap_preview := None;
                     ap_risk := assessRisk method url |}).
  pose proof (requestApproval_spec payload (emit body net a)) as Hspec.
  cbv zeta in Hspec.
  change (ev_approval_required (ap_action payload) (ap_method payload)
            (ap_endpoint payload) (ap_preview payload) (ap_risk payload))
    with (ev_approval_required (describe method url) method url None
            (assessRisk method url)) in Hspec.
  destruct Hspec as (Hn & Ha' & Hr' & Hp' & Hi' & _).
  assert (Hgate : r = if gated
                      then (Await (requestApproval body payload (emit body net a)).1,
                            (requestApproval body payload (emit body net a)).2)
                      else (Now None, emit body net a)).
  { subst r gated. unfold handleNetworkCall. fold net payload. rewrite Hm.
    destruct (bool_decide (assessRisk method url = high)); simpl;
      [by destruct (requestApproval _ _ _)|].
    destruct (bool_decide (assessRisk method url = medium) && _); simpl;
      [by destruct (requestApproval _ _ _)|done]. }
  set (ra := requestApproval body payload (emit body net a)) in *.
  set (a1 := emit body net a) in *.
  clearbody r gated ra a1. subst r.
  destruct gated; simpl.
  - rewrite Hi', Hi, Hr, <- (assoc_L (++)). simpl in *.
    split_and!; [eauto | | done].
    intros _. rewrite Hr', Ha', Hn, Hap. rewrite Hn, Hap in Hp'.
    split_and!; try done.
    + by rewrite lookup_app_r, Nat.sub_diag.
    + intros decision. unfold resolveApproval, result_in. rewrite Hr'. simpl.
      rewrite Hn, Hap.
      destruct (settle_pending (length (approvals a)) decision _ Hp') as (_ & -> & _).
      done.
  - split_and!; [exists []; by rewrite (right_id_L [] (++)) | done |].
    intros _. by rewrite Hap, Hres, Hi.
Qed.

End WithListeners.

(** Listeners 1 and 2 are registered, and 1 meddles with the list while it
    runs: the dispatch in progress still calls 1 then 2 and not 3; the next
    one calls 1 then 3. *)
Example emit_with_meddling_listener :
  let a := onEvent 2 (onEvent 1 init) in
  let e := ev_info (Str.lit "first") in
  let e' := ev_info (Str.lit "second") in
  invoked (emit Scenario.meddling e a) = [(1, e); (2, e)]
  ∧ registered (emit Scenario.meddling e a) = [1; 3]
  ∧ invoked (emit Scenario.meddling e' (emit Scenario.meddling e a))
    = [(1, e); (2, e); (1, e'); (3, e')].
Proof. by vm_compute. Qed.

(** The scenarios of the specification: a POST to a checkout URL in mode
    OBSERVE_ONLY waits for an approval; a PATCH of a profile in the same
    mode does not. *)
Lemma handleNetworkCall_gate_witness :
  (handleNetworkCall Scenario.silent (Str.lit "POST")
     (Str.lit "https://x.com/api/checkout") 200 0 init).1 = Await 0
  ∧ handleNetworkCall Scenario.silent (Str.lit "PATCH")
      (Str.lit "https://x.com/api/profile") 200 0 init
    = (Now None,
       emit Scenario.silent
         (network_event (Str.lit "PATCH") (Str.lit "https://x.com/api/profile") 200 0)
         init).
Proof.
  split.
  - destruct (handleNetworkCall_gate Scenario.silent (Str.lit "POST")
                (Str.lit "https://x.com/api/checkout") 200 0 init)
      as (_ & Hgated & _).
    by destruct Hgated as (-> & _); [vm_compute|].
  - destruct (handleNetworkCall_gate Scenario.silent (Str.lit "PATCH")
                (Str.lit "https://x.com/api/profile") 200 0 init)
      as (_ & _ & Hfree).
    by destruct Hfree as (-> & _); [vm_compute|].
Defined.

(** A request made on a fresh agent and answered with yes. *)
Lemma resolveApproval_rendezvous_witness :
  let payload := {| ap_action := Str.lit "POST /api/checkout";
                    ap_method := Str.lit "POST";
                    ap_endpoint := Str.lit "/api/checkout";
                    ap_preview := None; ap_risk := high |} in
  let a := (requestApproval Scenario.silent payload init).2 in
  approvals (resolveApproval yes a) !! 0 = Some (Some yes)
  ∧ resolver (resolveApproval yes a) = None
  ∧ resolveApproval no (resolveApproval yes a) = resolveApproval yes a
  ∧ resolveApproval yes init = init.
Proof.
  intros payload a.
  destruct (resolveApproval_rendezvous Scenario.silent yes a) as (_ & Hpending & _).
  destruct (Hpending 0) as (H1 & _ & _ & H2 & _ & H3); [by vm_compute..|].
  destruct (resolveApproval_rendezvous Scenario.silent yes init) as (Hnone & _).
  split_and!; [done | done | apply H3 | by apply Hnone].
Defined.

End AgentFacts.

(** ** Strings *)

Module StrFacts.

Lemma startsWith_spec p s : Str.startsWith p s = true ↔ ∃ post, s = p ++ post.
Proof.
  revert s. induction p as [|a p IH]; intros s; simpl.
  - split; [intros _; by exists s | done].
  - destruct s as [|b s].
    + split; [done | by intros (post & ?)].
    + destruct (decide (a = b)) as [-> | Hne].
      * rewrite IH. split; intros (post & H); exists post; simplify_eq/=; done.
      * split; [done | intros (post & H); by simplify_eq/=].
Qed.

Lemma endsWith_spec p s : Str.endsWith p s = true ↔ ∃ pre, s = pre ++ p.
Proof.
  unfold Str.endsWith. rewrite startsWith_spec. split.
  - intros (post & H). exists (reverse post).
    apply (inj reverse). by rewrite reverse_app, reverse_involutive.
  - intros (pre & ->). exists (reverse pre). by rewrite reverse_app.
Qed.

Lemma includes_spec p s : Str.includes p s = true ↔ Str.contains p s.
Proof.
  unfold Str.contains. induction s as [|a s IH].
  - simpl. rewrite orb_false_r, startsWith_spec. split.
    + intros (post & ->). by exists [], post.
    + intros (pre & post & H). symmetry in H.
      apply app_eq_nil in H as [-> H]. eauto.
  - cbn [Str.includes]. rewrite orb_true_iff, IH, startsWith_spec. split.
    + intros [(post & ->) | (pre & post & ->)].
      * by exists [], post.
      * by exists (a :: pre), post.
    + intros (pre & post & H). destruct pre as [|b pre]; simpl in H.
      * left. eauto.
      * right. simplify_eq. eauto.
Qed.

(** *** [split] and [join] *)

Lemma split_on_cons sep c s :
  Str.split_on sep (c :: s)
  = if decide (c = sep) then [] :: Str.split_on sep s
    else match Str.split_on sep s with
         | piece :: rest => (c :: piece) :: rest
         | [] => [[c]]
         end.
Proof. done. Qed.

Lemma split_on_nonempty sep s : Str.split_on sep s ≠ [].
Proof.
  destruct s as [|c s]; [done|]. rewrite split_on_cons.
  destruct (decide (c = sep)); [done|]. by destruct (Str.split_on sep s).
Qed.

(** The pieces are free of the separator. *)
Lemma split_on_free sep s : Forall (λ p, sep ∉ p) (Str.split_on sep s).
Proof.
  induction s as [|c s IH]; simpl.
  - constructor; [by intros ?%elem_of_nil | constructor].
  - destruct (decide (c = sep)) as [-> | Hne].
    + constructor; [by intros ?%elem_of_nil | exact IH].
    + destruct (Str.split_on sep s) as [|piece rest].
      * constructor; [|constructor].
        intros [-> | ?%elem_of_nil]%elem_of_cons; done.
      * apply Forall_cons in IH as [Hp Hr]. constructor; [|done].
        intros [-> | ?]%elem_of_cons; done.
Qed.

(** Splitting at a separator that is there. *)
Lemma split_on_app sep a b :
  Str.split_on sep (a ++ sep :: b) = Str.split_on sep a ++ Str.split_on sep b.
Proof.
  induction a as [|c a IH]; simpl.
  - by rewrite decide_True.
  - destruct (decide (c = sep)) as [-> | Hne]; [by rewrite IH|].
    rewrite IH. pose proof (split_on_nonempty sep a).
    by destruct (Str.split_on sep a).
Qed.

Lemma join_cons sep p q rest :
  Str.join sep (p :: q :: rest) = p ++ sep ++ Str.join sep (q :: rest).
Proof. done. Qed.

Lemma join_app sep l1 l2 :
  l1 ≠ [] → l2 ≠ [] →
  Str.join sep (l1 ++ l2) = Str.join sep l1 ++ sep ++ Str.join sep l2.
Proof.
  intros H1 H2. induction l1 as [|p l1 IH]; [done|].
  destruct l1 as [|q l1].
  - destruct l2 as [|q l2]; [done|]. done.
  - change ((p :: q :: l1) ++ l2) with (p :: q :: (l1 ++ l2)).
    rewrite !join_cons. change (q :: l1 ++ l2) with ((q :: l1) ++ l2).
    rewrite IH by done. by rewrite <- !(assoc_L (++)).
Qed.

(** Joining the pieces gives the text back. *)
Lemma join_split sep s : Str.join [sep] (Str.split_on sep s) = s.
Proof.
  induction s as [|c s IH]; [done|]. rewrite split_on_cons.
  pose proof (split_on_nonempty sep s) as Hne.
  destruct (decide (c = sep)) as [-> | Hc].
  - destruct (Str.split_on sep s) as [|p rest]; [done|].
    rewrite join_cons. simpl. by rewrite <- IH.
  - destruct (Str.split_on sep s) as [|p rest]; [done|].
    rewrite <- IH. by destruct rest.
Qed.

(** Splitting a join of pieces free of the separator gives the pieces. *)
Lemma split_free sep p : sep ∉ p → Str.split_on sep p = [p].
Proof.
  induction p as [|c p IH]; intros H; [done|]. rewrite split_on_cons.
  rewrite decide_False by (intros ->; apply H; by left).
  rewrite IH; [done|]. intros ?. apply H. by right.
Qed.

Lemma split_join sep parts :
  parts ≠ [] → Forall (λ p, sep ∉ p) parts →
  Str.split_on sep (Str.join [sep] parts) = parts.
Proof.
  intros Hne Hfree. induction parts as [|p parts IH]; [done|].
  apply Forall_cons in Hfree as [Hp Hrest].
  destruct parts as [|q parts]; [by apply split_free|].
  rewrite join_cons. change (p ++ [sep] ++ Str.join [sep] (q :: parts))
    with (p ++ sep :: Str.join [sep] (q :: parts)).
  rewrite split_on_app, IH by done. by rewrite split_free.
Qed.

(** Two texts cut at the first occurrence of a separator are equal when
    their pieces are. *)
Lemma app_sep_inj (c : ascii) (a b x y : Str.t) :
  c ∉ a → c ∉ b → a ++ c :: x = b ++ c :: y → a = b ∧ x = y.
Proof.
  revert b. induction a as [|d a IH]; intros [|e b] Ha Hb Heq; simplify_eq/=.
  - done.
  - exfalso. apply Hb. by left.
  - exfalso. apply Ha. by left.
  - destruct (IH b) as [-> ->]; [| |done|done].
    + intros Hin. apply Ha. by right.
    + intros Hin. apply Hb. by right.
Qed.

End StrFacts.

(** ** The network recorder *)

Module RecorderFacts.
Import Capture Recorder Inv.

(** *** The base domain and the labels of a host *)

Lemma filter_all {A} (P : A → Prop) `{!∀ x, Decision (P x)} (l : list A) :
  Forall P l → filter P l = l.
Proof.
  induction 1 as [|x l Hx _ IH]; [done|].
  by rewrite filter_cons, decide_True, IH.
Qed.

Lemma labels_well_formed host :
  well_formed host → Spec.labels host = Str.split_on "."%char host.
Proof.
  intros Hwf. unfold Spec.labels. apply filter_all, Forall_forall.
  intros p Hp ->. by apply Hwf.
Qed.

Lemma labels_nonempty host : Forall (λ p, p ≠ []) (Spec.labels host).
Proof.
  apply Forall_forall. intros p Hp. unfold Spec.labels in Hp.
  by apply list_elem_of_filter in Hp as [? _].
Qed.

Lemma labels_free host : Forall (λ p, "."%char ∉ p) (Spec.labels host).
Proof.
  apply Forall_forall. intros p Hp. unfold Spec.labels in Hp.
  apply list_elem_of_filter in Hp as [_ Hp].
  revert p Hp. apply Forall_forall, StrFacts.split_on_free.
Qed.

(** The last two labels, when there are two. *)
Lemma registrable_two host :
  2 ≤ length (Spec.labels host) →
  length (Spec.registrable host) = 2
  ∧ Spec.labels host
    = take (length (Spec.labels host) - 2) (Spec.labels host)
      ++ Spec.registrable host.
Proof.
  intros H. unfold Spec.registrable. split.
  - rewrite length_drop. lia.
  - by rewrite take_drop.
Qed.

Lemma registrable_parts host :
  Forall (λ p, p ≠ []) (Spec.registrable host)
  ∧ Forall (λ p, "."%char ∉ p) (Spec.registrable host).
Proof.
  unfold Spec.registrable. split; apply Forall_drop.
  - apply labels_nonempty.
  - apply labels_free.
Qed.

(** The base domain of a well-formed host with two labels or more is its
    last two labels, joined. *)
Lemma base_domain_join host :
  well_formed host → 2 ≤ length (Spec.labels host) →
  base_domain host = Str.join (Str.lit ".") (Spec.registrable host).
Proof.
  intros Hwf H2. unfold base_domain.
  destruct (decide (length (Spec.labels host) ≤ 2)) as [Hle|]; [|done].
  unfold Spec.registrable.
  replace (length (Spec.labels host) - 2) with 0 by lia.
  rewrite drop_0, labels_well_formed by done. symmetry.
  apply StrFacts.join_split.
Qed.

Lemma labels_join parts :
  parts ≠ [] → Forall (λ p, p ≠ []) parts → Forall (λ p, "."%char ∉ p) parts →
  Spec.labels (Str.join (Str.lit ".") parts) = parts.
Proof.
  intros Hne Hfull Hfree. unfold Spec.labels.
  rewrite (StrFacts.split_join "."%char) by done. by apply filter_all.
Qed.

Lemma labels_sub sub parts :
  parts ≠ [] → Forall (λ p, p ≠ []) parts → Forall (λ p, "."%char ∉ p) parts →
  Spec.labels (sub ++ Str.lit "." ++ Str.join (Str.lit ".") parts)
  = Spec.labels sub ++ parts.
Proof.
  intros Hne Hfull Hfree. unfold Spec.labels.
  change (sub ++ Str.lit "." ++ Str.join (Str.lit ".") parts)
    with (sub ++ "."%char :: Str.join ["."%char] parts).
  rewrite StrFacts.split_on_app, filter_app, (StrFacts.split_join "."%char) by done.
  by rewrite (filter_all _ parts).
Qed.

(** For a base host with two labels or more and no empty label, a host
    that is the base domain or a subdomain of it has the last two labels
    of the base host, and a host with no empty label that has them is the
    base domain or a subdomain of it. *)
Lemma same_site_registrable host baseHost :
  well_formed baseHost → 2 ≤ length (Spec.labels baseHost) →
  (same_site host (base_domain baseHost) → Spec.shares_base_domain host baseHost)
  ∧ (well_formed host → Spec.shares_base_domain host baseHost →
     same_site host (base_domain baseHost)).
Proof.
  intros Hwf H2. rewrite (base_domain_join baseHost Hwf H2).
  destruct (registrable_two baseHost H2) as [Hlen _].
  destruct (registrable_parts baseHost) as [Hfull Hfree].
  set (R := Spec.registrable baseHost) in *.
  assert (HR : R ≠ []) by (intros E; by rewrite E in Hlen).
  unfold Spec.shares_base_domain. fold R. split.
  - intros [-> | (sub & ->)]; unfold Spec.registrable.
    + rewrite labels_join by done. rewrite Hlen. by rewrite drop_0.
    + rewrite labels_sub by done. rewrite length_app, Hlen.
      replace (length (Spec.labels sub) + 2 - 2)
        with (length (Spec.labels sub)) by lia.
      apply drop_app_length.
  - intros Hh Hshare.
    assert (H2h : 2 ≤ length (Spec.labels host)).
    { apply (f_equal length) in Hshare. rewrite Hlen in Hshare.
      unfold Spec.registrable in Hshare. rewrite length_drop in Hshare. lia. }
    destruct (registrable_two host H2h) as [_ Hsplit]. rewrite Hshare in Hsplit.
    rewrite (labels_well_formed host Hh) in Hsplit.
    rewrite <- (StrFacts.join_split "."%char host), Hsplit.
    destruct (take _ _) as [|p pre] eqn:Hpre.
    + by left.
    + right. exists (Str.join (Str.lit ".") (p :: pre)).
      by rewrite StrFacts.join_app.
Qed.

(** Outside these bounds the two tests part.  With a base host of one
    label the code lets its subdomains through, which have other last two
    labels; and a host with a dot at its end has the labels of the base
    host and is not let through. *)
Example single_label_base_admits_subdomains :
  isSameSite (Str.lit "api.localhost") (base_domain (Str.lit "localhost")) = true
  ∧ ¬ Spec.shares_base_domain (Str.lit "api.localhost") (Str.lit "localhost").
Proof. split; [by vm_compute | by intros [=]]. Qed.

Example trailing_dot_host_is_refused :
  Spec.shares_base_domain (Str.lit "x.com.") (Str.lit "x.com")
  ∧ isSameSite (Str.lit "x.com.") (base_domain (Str.lit "x.com")) = false.
Proof. split; by vm_compute. Qed.

Section WithListenerState.
Context {S : Type}.
Variable parseURL : Url.parser.

Local Abbreviation passes := (Inv.passes parseURL).

Lemma isSameSite_spec host baseDomain :
  isSameSite host baseDomain = true ↔ same_site host baseDomain.
Proof.
  unfold isSameSite, same_site.
  by rewrite orb_true_iff, bool_decide_eq_true, StrFacts.endsWith_spec.
Qed.

Lemma shouldCapture_true (r : Recorder.t S) i :
  shouldCapture parseURL r i = Some true ↔
    (ri_resourceType i = Str.lit "xhr" ∨ ri_resourceType i = Str.lit "fetch")
    ∧ (includeThirdParty r = true
       ∨ truthy (captureBaseDomain r) = false
       ∨ ∃ u, parseURL (ri_url i) = Some u
              ∧ same_site (Url.hostname u) (default [] (captureBaseDomain r))).
Proof.
  unfold shouldCapture.
  destruct (bool_decide_reflect (ri_resourceType i ≠ Str.lit "xhr")) as [Hx | Hx];
    destruct (bool_decide_reflect (ri_resourceType i ≠ Str.lit "fetch")) as [Hf | Hf];
    simpl.
  - split; [done | intros [[? | ?] _]; done].
  - apply dec_stable in Hf.
    destruct (includeThirdParty r), (truthy (captureBaseDomain r)); simpl;
      try (split; [intros _; split; auto | done]).
    destruct (parseURL (ri_url i)) as [u|] eqn:Hu.
    + destruct (isSameSite _ _) eqn:Hs; simpl.
      * apply isSameSite_spec in Hs. split; [intros _; split; eauto 6 | done].
      * split; [done|]. intros [_ [? | [? | (u' & [= <-] & Hs')]]]; try done.
        apply isSameSite_spec in Hs'. congruence.
    + split; [done|]. intros [_ [? | [? | (u' & ? & _)]]]; done.
  - apply dec_stable in Hx.
    destruct (includeThirdParty r), (truthy (captureBaseDomain r)); simpl;
      try (split; [intros _; split; auto | done]).
    destruct (parseURL (ri_url i)) as [u|] eqn:Hu.
    + destruct (isSameSite _ _) eqn:Hs; simpl.
      * apply isSameSite_spec in Hs. split; [intros _; split; eauto 6 | done].
      * split; [done|]. intros [_ [? | [? | (u' & [= <-] & Hs')]]]; try done.
        apply isSameSite_spec in Hs'. congruence.
    + split; [done|]. intros [_ [? | [? | (u' & ? & _)]]]; done.
  - apply dec_stable in Hx. apply dec_stable in Hf.
    rewrite Hx in Hf. by vm_compute in Hf.
Qed.

Lemma passes_or_not (r : Recorder.t S) info : passes r info ∨ ¬ passes r info.
Proof.
  unfold Inv.passes. destruct info as [i|]; [|right; by intros [_ (i & ? & _)]].
  destruct (captureActive r); [|right; by intros [? _]].
  pose proof (shouldCapture_true r i) as Hsc.
  destruct (shouldCapture parseURL r i) as [[|]|].
  - left. split; [done|]. exists i. split; [done|]. by apply Hsc.
  - right. intros [_ (i' & [= <-] & H)]. by apply Hsc in H.
  - right. intros [_ (i' & [= <-] & H)]. by apply Hsc in H.
Qed.

Lemma response_capture_spec response info method now (r : Recorder.t S) (s : S) :
  let out := state_of (response_capture parseURL response info method now (r, s)) in
  (passes r info →
     ∃ i, info = Some i
          ∧ capturedCalls out.1
            = capturedCalls r ++ [build_call response i method now]
          ∧ out.2 = from_option (λ f, f (build_call response i method now) s) s
                      (onCapture r))
  ∧ (¬ passes r info → out = (r, s)).
Proof.
  unfold Inv.passes. simpl. destruct info as [i|]; simpl.
  - destruct (captureActive r) eqn:Ha; simpl.
    + pose proof (shouldCapture_true r i) as Hsc.
      destruct (shouldCapture parseURL r i) as [[|]|] eqn:E.
      * split; [|intros []; split; [done|]; exists i; split; [done|]; by apply Hsc].
        intros _. exists i. by destruct (onCapture r).
      * split; [|done]. intros [_ (i' & [= <-] & H)]. apply Hsc in H. done.
      * split; [|done]. intros [_ (i' & [= <-] & H)]. apply Hsc in H. done.
    + split; [by intros [? _] | done].
  - split; [by intros [_ (i & ? & _)] | done].
Qed.

End WithListenerState.

End RecorderFacts.

(** ** The session accumulator *)

Module SessionFacts.
Import Capture Session.

Lemma filter_agree {A} (P Q : A → Prop) `{!∀ x, Decision (P x), !∀ x, Decision (Q x)}
    (l : list A) :
  (∀ x, x ∈ l → P x ↔ Q x) → filter P l = filter Q l.
Proof.
  induction l as [|a l IH]; intros Hall; [done|].
  rewrite !filter_cons.
  assert (Ha : P a ↔ Q a) by (apply Hall; left).
  rewrite IH by (intros x Hx; apply Hall; by right).
  destruct (decide (P a)), (decide (Q a)); tauto.
Qed.

(** The calls kept of a stream with one more call: the new call is kept
    when its key is new. *)
Lemma first_occurrences_snoc {A K} `{EqDecision K} (key : A → K) pre c :
  Spec.first_occurrences key (pre ++ [c])
  = Spec.first_occurrences key pre
    ++ (if decide (key c ∈ key <$> pre) then [] else [c]).
Proof.
  unfold Spec.first_occurrences. rewrite imap_app, filter_app, fmap_app. f_equal.
  - f_equal. apply filter_agree. intros [i y] (i' & y' & [= -> ->] & Hl)%elem_of_lookup_imap.
    unfold Spec.first_of_key. simpl.
    rewrite take_app_le; [done|]. apply lookup_lt_Some in Hl. lia.
  - simpl. rewrite filter_cons, filter_nil. unfold Spec.first_of_key. simpl.
    rewrite Nat.add_0_r, take_app_length.
    destruct (decide (key c ∈ key <$> pre)) as [Hin | Hin].
    + rewrite bool_decide_eq_false_2 by tauto. by rewrite decide_False.
    + rewrite bool_decide_eq_true_2 by done. by rewrite decide_True.
Qed.

(** Every key of a list is the key of one of its first occurrences. *)
Lemma first_occurrences_covers {A K} `{EqDecision K} (key : A → K) l c :
  c ∈ l → key c ∈ key <$> Spec.first_occurrences key l.
Proof.
  revert c. induction l as [|x l IH] using rev_ind; intros c;
    [by intros ?%elem_of_nil|].
  intros [Hc | Hx%list_elem_of_singleton]%elem_of_app;
    rewrite first_occurrences_snoc, fmap_app, elem_of_app; [left; by apply IH|].
  subst c. destruct (decide (key x ∈ key <$> l)) as [Hin | Hin].
  - left. apply list_elem_of_fmap in Hin as (y & Heq & Hy). rewrite Heq.
    by apply IH.
  - right. simpl. by left.
Qed.

Section WithUrl.
Variable parseURL : Url.parser.

Local Abbreviation deliver := (Inv.deliver parseURL).
Local Abbreviation consistent := (Inv.consistent parseURL).

Lemma consistent_init : consistent init.
Proof. split; [done | constructor]. Qed.

Lemma onCapturedCall_consistent c s :
  consistent s → consistent (onCapturedCall parseURL c s).
Proof.
  intros [Hk Hn]. unfold onCapturedCall.
  destruct (decide (getApiKey parseURL c ∈ captureUniqueKeys s)) as [Hin | Hin];
    [done|].
  split; simpl.
  - rewrite fmap_app, list_to_set_app_L, Hk. simpl. by rewrite (right_id_L ∅ (∪)).
  - rewrite fmap_app. apply NoDup_app. split_and!; [done | | apply NoDup_singleton].
    intros k Hk1 ->%list_elem_of_singleton. apply Hin. rewrite Hk.
    by apply elem_of_list_to_set.
Qed.

Lemma consistent_size s :
  consistent s → size (captureUniqueKeys s) = length (sessionCalls s).
Proof.
  intros [-> Hn]. rewrite size_list_to_set by done. apply length_fmap.
Qed.

(** The session after a stream of calls holds its first occurrences. *)
Lemma deliver_snoc calls c s :
  deliver (calls ++ [c]) s = onCapturedCall parseURL c (deliver calls s).
Proof. unfold Inv.deliver. by rewrite foldl_app. Qed.

Lemma deliver_first_occurrences calls :
  captureUniqueKeys (deliver calls init)
  = list_to_set (getApiKey parseURL <$> calls)
  ∧ sessionCalls (deliver calls init)
    = Spec.first_occurrences (getApiKey parseURL) calls.
Proof.
  induction calls as [|c calls [IHk IHc]] using rev_ind; [done|].
  rewrite deliver_snoc, first_occurrences_snoc. unfold onCapturedCall.
  rewrite fmap_app, list_to_set_app_L, IHk. simpl. rewrite (right_id_L ∅ (∪)).
  destruct (decide (getApiKey parseURL c ∈ _)) as [Hin | Hin].
  - rewrite elem_of_list_to_set in Hin. rewrite decide_True by done.
    rewrite (right_id_L [] (++)). split; [|done].
    rewrite IHk. apply set_eq. intros k. rewrite elem_of_union, elem_of_singleton.
    rewrite elem_of_list_to_set. split; [by left | by intros [? | ->]].
  - rewrite elem_of_list_to_set in Hin. rewrite decide_False by done.
    simpl. by rewrite IHc.
Qed.

End WithUrl.

End SessionFacts.

(** ** The running system *)

Module WorldFacts.
Import Capture World.

Section WithEnvironment.
Variable parseURL : Url.parser.
Variable url : Str.t.
Variable body : Agent.Listener → Agent.AgentEvent → list Agent.Cmd.

Local Abbreviation sound := (Inv.sound parseURL).

Lemma sound_init : sound World.init.
Proof. split; [apply SessionFacts.consistent_init | by left]. Qed.

Lemma resume_state response info method now w :
  let out := state_of (Recorder.response_capture parseURL response info method now
                         (recorder w, session w)) in
  recorder (resume parseURL response info method now w) = out.1
  ∧ session (resume parseURL response info method now w) = out.2
  ∧ agent (resume parseURL response info method now w) = agent w
  ∧ parked (resume parseURL response info method now w) = parked w.
Proof.
  unfold resume.
  by destruct (Recorder.response_capture _ _ _ _ _ _) as [[r s] | [r s]].
Qed.

Lemma resume_sound response info method now w :
  sound w → sound (resume parseURL response info method now w).
Proof.
  intros [Hc Hl]. unfold Inv.sound.
  destruct (resume_state response info method now w) as (-> & -> & _).
  unfold Recorder.response_capture.
  destruct info as [i|]; [|done].
  destruct (Recorder.captureActive (recorder w)); [|done]. simpl.
  destruct (Recorder.shouldCapture _ _ _) as [[|]|]; [|done..].
  destruct Hl as [Hl | Hl]; rewrite Hl; simpl.
  - split; [done | by left].
  - split; [by apply SessionFacts.onCapturedCall_consistent | by right].
Qed.

Lemma wake_sound now w : sound w → sound (wake parseURL now w).
Proof.
  intros Hs. unfold wake.
  generalize (filter (λ k, settled (agent w) (pk_promise k) = true) (parked w)).
  generalize (filter (λ k, settled (agent w) (pk_promise k) ≠ true) (parked w)).
  intros waiting ready.
  assert (Hs0 : sound (mk (agent w) (recorder w) (session w) waiting (rejected w)))
    by done.
  revert Hs0. generalize (mk (agent w) (recorder w) (session w) waiting (rejected w)).
  induction ready as [|k ready IH]; intros w0 H0; simpl; [done|].
  by apply IH, resume_sound.
Qed.

Lemma step_sound w e : sound w → sound (step parseURL url body w e).
Proof.
  intros Hs. destruct e as [rq now | response now | o now | |]; simpl.
  - done.
  - unfold on_response.
    destruct (Agent.handleNetworkCall _ _ _ _ _ _) as [[v | p] a]; [|done].
    by apply resume_sound.
  - by apply wake_sound.
  - destruct Hs as [[Hk Hn] Hl]. unfold Session.startCaptureSession.
    destruct (Session.captureActive (session w)) eqn:Ha; simpl.
    + by destruct w as [? ? []].
    + unfold Recorder.startCapture.
      destruct (Recorder.getBaseDomain parseURL url); simpl; split; try done.
      by right.
  - destruct Hs as [[Hk Hn] Hl]. unfold Session.finalizeCapture.
    destruct (Session.captureActive (session w)) eqn:Ha; simpl.
    + split; [done | by left].
    + by destruct w as [? ? []].
Qed.

Lemma run_sound w es : sound w → sound (run parseURL url body w es).
Proof.
  revert w. unfold run. induction es as [|e es IH]; intros w H; simpl; [done|].
  by apply IH, step_sound.
Qed.

(** *** The handlers that wait for an approval *)

Lemma resumes_state now ks w :
  let w' := foldl (λ w' k, resume parseURL (pk_response k) (pk_info k)
                             (pk_method k) now w') w ks in
  agent w' = agent w ∧ parked w' = parked w.
Proof.
  revert w. induction ks as [|k ks IH]; intros w; simpl; [done|].
  destruct (IH (resume parseURL (pk_response k) (pk_info k) (pk_method k) now w))
    as [-> ->].
  by destruct (resume_state (pk_response k) (pk_info k) (pk_method k) now w)
    as (_ & _ & -> & ->).
Qed.

Lemma wake_state now w :
  agent (wake parseURL now w) = agent w
  ∧ parked (wake parseURL now w)
    = filter (λ k, settled (agent w) (pk_promise k) ≠ true) (parked w).
Proof. unfold wake. by destruct (resumes_state now
  (filter (λ k, settled (agent w) (pk_promise k) = true) (parked w))
  (mk (agent w) (recorder w) (session w)
      (filter (λ k, settled (agent w) (pk_promise k) ≠ true) (parked w))
      (rejected w))) as [-> ->].
Qed.

Lemma settled_pending a p : Agent.approvals a !! p = Some None → settled a p = false.
Proof. unfold settled. by intros ->. Qed.

Lemma NoDup_fmap_filter {A B} (f : A → B) (P : A → Prop)
    `{!∀ x, Decision (P x)} (l : list A) :
  NoDup (f <$> l) → NoDup (f <$> filter P l).
Proof.
  induction l as [|a l IH]; [done|].
  rewrite fmap_cons, filter_cons. intros [Hnot Hnd]%NoDup_cons.
  destruct (decide (P a)); [|by apply IH].
  rewrite fmap_cons. apply NoDup_cons. split; [|by apply IH].
  intros (x & Hx & [_ Hin]%list_elem_of_filter)%list_elem_of_fmap.
  apply Hnot, list_elem_of_fmap. by exists x.
Qed.

Lemma filter_out_all {A} (P : A → Prop) `{!∀ x, Decision (P x)} (l : list A) :
  (∀ y, y ∈ l → ¬ P y) → filter P l = [].
Proof.
  induction l as [|a l IH]; intros Hall; [done|].
  rewrite filter_cons, decide_False by (apply Hall; by left).
  apply IH. intros y Hy. apply Hall. by right.
Qed.

(** Of a list whose elements differ in [f], the elements that agree with
    one of them in [f] are that one. *)
Lemma filter_same_key {A B} `{!EqDecision B} (f : A → B) (l : list A) (x : A) :
  NoDup (f <$> l) → x ∈ l → filter (λ y, f y = f x) l = [x].
Proof.
  induction l as [|a l IH]; intros Hnd Hin; [by apply elem_of_nil in Hin|].
  rewrite fmap_cons in Hnd. apply NoDup_cons in Hnd as [Hnot Hnd].
  rewrite filter_cons.
  apply elem_of_cons in Hin as [<- | Hin].
  - rewrite decide_True by done. f_equal.
    apply filter_out_all. intros y Hy Heq.
    apply Hnot. rewrite <- Heq. apply list_elem_of_fmap. eauto.
  - rewrite decide_False; [by apply IH|].
    intros Heq. apply Hnot. rewrite Heq. apply list_elem_of_fmap. eauto.
Qed.

Lemma step_waiting w e : Inv.waiting w → Inv.waiting (step parseURL url body w e).
Proof.
  intros Hw. pose proof Hw as [Hnd Hpend].
  destruct e as [rq now | response now | o now | |]; cbn [step].
  - done.
  - unfold on_response.
    pose proof (AgentFacts.handleNetworkCall_promise body
                  (Recorder.response_method response (recorder w))
                  (rs_url response) (rs_status response) now (agent w)) as Hgate.
    cbv zeta in Hgate.
    destruct (Agent.handleNetworkCall _ _ _ _ _ _) as [[v | p] a]; simpl in Hgate.
    + destruct Hgate as [Hap _]. unfold Inv.waiting.
      destruct (resume_state response
                  (Recorder.response_info response (recorder w))
                  (Recorder.response_method response (recorder w)) now
                  (mk a (recorder w) (session w) (parked w) (rejected w)))
        as (_ & _ & -> & ->).
      simpl. rewrite Hap. done.
    + destruct Hgate as (-> & Hap & _). split; simpl.
      * rewrite fmap_app. apply NoDup_app. split_and!; [done | | apply NoDup_singleton].
        intros q (k & -> & Hk)%list_elem_of_fmap Hq.
        apply list_elem_of_singleton in Hq.
        apply Hpend, lookup_lt_Some in Hk. simpl in Hq. lia.
      * rewrite Hap. intros k [Hk | ->%list_elem_of_singleton]%elem_of_app.
        -- by apply lookup_app_l_Some, Hpend.
        -- simpl. by rewrite lookup_app_r, Nat.sub_diag.
  - unfold Inv.waiting.
    destruct (wake_state now (mk (Agent.run_op body (agent w) o) (recorder w)
                                (session w) (parked w) (rejected w)))
      as [-> ->].
    simpl. split; [by apply NoDup_fmap_filter|].
    intros k [Hs Hk]%list_elem_of_filter.
    pose proof (lookup_lt_Some _ _ _ (Hpend k Hk)) as Hlt.
    pose proof (AgentFacts.run_op_approvals_length body (agent w) o) as Hle.
    destruct (lookup_lt_is_Some_2 (Agent.approvals (Agent.run_op body (agent w) o))
                (pk_promise k)) as [v Hv]; [lia|].
    unfold settled in Hs. rewrite Hv in Hs. rewrite Hv.
    by destruct v.
  - by destruct (state_of (Session.startCaptureSession parseURL url
                             (recorder w, session w))) as [r s].
  - by destruct (Session.finalizeCapture _) as [[r s] c].
Qed.

Lemma run_waiting w es : Inv.waiting w → Inv.waiting (run parseURL url body w es).
Proof.
  revert w. unfold run. induction es as [|e es IH]; intros w H; simpl; [done|].
  by apply IH, step_waiting.
Qed.

Lemma waiting_init : Inv.waiting World.init.
Proof. split; [apply NoDup_nil_2 | by intros k Hk%elem_of_nil]. Qed.

(** A parked handler whose promise is pending after a step is parked
    after it. *)
Lemma step_keeps_parked w e k :
  k ∈ parked w →
  Agent.approvals (agent (step parseURL url body w e)) !! pk_promise k = Some None →
  k ∈ parked (step parseURL url body w e).
Proof.
  intros Hk. destruct e as [rq now | response now | o now | |]; cbn [step].
  - done.
  - unfold on_response.
    destruct (Agent.handleNetworkCall _ _ _ _ _ _) as [[v | p] a]; simpl.
    + by destruct (resume_state response
                  (Recorder.response_info response (recorder w))
                  (Recorder.response_method response (recorder w)) now
                  (mk a (recorder w) (session w) (parked w) (rejected w)))
        as (_ & _ & _ & ->).
    + intros _. apply elem_of_app. by left.
  - destruct (wake_state now (mk (Agent.run_op body (agent w) o) (recorder w)
                                (session w) (parked w) (rejected w)))
      as [-> ->].
    simpl. intros Hp. apply list_elem_of_filter. split; [|done].
    by rewrite (settled_pending _ _ Hp).
  - by destruct (state_of (Session.startCaptureSession parseURL url
                                    (recorder w, session w))) as [r s].
  - by destruct (Session.finalizeCapture _) as [[r s] c].
Qed.

(** The agent after a step is the agent before it, or what a call left of
    it. *)
Lemma step_agent w e :
  agent (step parseURL url body w e) = agent w
  ∨ ∃ o, agent (step parseURL url body w e) = Agent.run_op body (agent w) o.
Proof.
  destruct e as [rq now | response now | o now | |]; cbn [step].
  - by left.
  - right.
    exists (Agent.op_handleNetworkCall
              (Recorder.response_method response (recorder w))
              (rs_url response) (rs_status response) now).
    unfold on_response. simpl.
    destruct (Agent.handleNetworkCall _ _ _ _ _ _) as [[v | p] a]; simpl; [|done].
    by destruct (resume_state response
                  (Recorder.response_info response (recorder w))
                  (Recorder.response_method response (recorder w)) now
                  (mk a (recorder w) (session w) (parked w) (rejected w)))
      as (_ & _ & -> & _).
  - right. exists o.
    by destruct (wake_state now (mk (Agent.run_op body (agent w) o) (recorder w)
                                   (session w) (parked w) (rejected w)))
      as [-> _].
  - left. by destruct (state_of (Session.startCaptureSession parseURL url
                                    (recorder w, session w))) as [r s].
  - left. by destruct (Session.finalizeCapture _) as [[r s] c].
Qed.

(** A handler parked on a promise that is pending and not in the slot is
    parked on it for good. *)
Lemma run_keeps_orphan w es k :
  k ∈ parked w → Inv.orphan (pk_promise k) (agent w) →
  k ∈ parked (run parseURL url body w es)
  ∧ Inv.orphan (pk_promise k) (agent (run parseURL url body w es)).
Proof.
  revert w. unfold run. induction es as [|e es IH]; intros w Hk Ho; simpl; [done|].
  assert (Ho' : Inv.orphan (pk_promise k) (agent (step parseURL url body w e))).
  { destruct (step_agent w e) as [-> | [o ->]]; [done|].
    by apply AgentFacts.run_op_orphan. }
  apply IH; [|done].
  apply step_keeps_parked; [done | by destruct Ho'].
Qed.

(** A call on the agent that settles the promise of no parked handler
    changes the agent only. *)
Lemma call_wakes_none w o now :
  (∀ k, k ∈ parked w →
        settled (Agent.run_op body (agent w) o) (pk_promise k) = false) →
  step parseURL url body w (agent_called o now)
  = mk (Agent.run_op body (agent w) o) (recorder w) (session w) (parked w)
       (rejected w).
Proof.
  intros Hnone. cbn [step]. unfold wake. cbn [agent recorder session parked rejected].
  rewrite (filter_out_all (λ k, settled (Agent.run_op body (agent w) o) (pk_promise k)
                             = true))
    by (intros k Hk; by rewrite (Hnone k Hk)).
  rewrite (RecorderFacts.filter_all
             (λ k, settled (Agent.run_op body (agent w) o) (pk_promise k) ≠ true))
    by (apply Forall_forall; intros k Hk; by rewrite (Hnone k Hk)).
  done.
Qed.

(** A [resolveApproval] wakes the handler parked on the promise in the
    slot, and that handler alone. *)
Lemma resolve_wakes w k d now :
  Inv.waiting w → k ∈ parked w → Agent.resolver (agent w) = Some (pk_promise k) →
  step parseURL url body w (agent_called (Agent.op_resolveApproval d) now)
  = resume parseURL (pk_response k) (pk_info k) (pk_method k) now
      (mk (Agent.resolveApproval d (agent w)) (recorder w) (session w)
          (filter (λ k', pk_promise k' ≠ pk_promise k) (parked w)) (rejected w)).
Proof.
  intros [Hnd Hpend] Hk Hres. simpl. unfold wake. simpl.
  assert (Hset : ∀ k', k' ∈ parked w →
            settled (Agent.resolveApproval d (agent w)) (pk_promise k') = true
            ↔ pk_promise k' = pk_promise k).
  { intros k' Hk'. unfold settled, Agent.resolveApproval. rewrite Hres. simpl.
    destruct (decide (pk_promise k' = pk_promise k)) as [-> | Hne].
    - destruct (AgentFacts.settle_pending (pk_promise k) d _ (Hpend k Hk))
        as (_ & -> & _). done.
    - rewrite AgentFacts.settle_other by done. rewrite (Hpend k' Hk').
      split; [done | by intros ?]. }
  rewrite (SessionFacts.filter_agree
             (λ k', settled (Agent.resolveApproval d (agent w)) (pk_promise k') = true)
             (λ k', pk_promise k' = pk_promise k) (parked w) Hset).
  rewrite (SessionFacts.filter_agree
             (λ k', settled (Agent.resolveApproval d (agent w)) (pk_promise k') ≠ true)
             (λ k', pk_promise k' ≠ pk_promise k) (parked w)).
  - by rewrite (filter_same_key pk_promise (parked w) k Hnd Hk).
  - intros k' Hk'. by rewrite (Hset k' Hk').
Qed.

End WithEnvironment.

End WorldFacts.

(** ** Capture and deduplication over whole runs *)

Module CaptureFacts.
Import Capture World.

(** C4. At every point of every run the session list holds one call per
    key: no two of its calls have the same key, the set of keys is the set
    of the keys of its calls, and its size is the length of the list.  Fed
    a stream of calls, the listener keeps the first occurrence of each key
    and drops the later ones, so that every key of the stream has its call
    in the list.  The recorder does not look at keys: a call
    that passes its filter is appended to its own list whatever the session
    has seen.  The key of a call is its method, a space, and the host and
    the path of its URL, the query and the rest of the call left out: two
    calls whose methods have no space, whose hosts have no slash and whose
    paths start with a slash have the same key exactly when they have the
    same method, host and path.  Of a URL that cannot be read the key
    holds the whole text. *)
Theorem session_holds_one_call_per_key
    (parseURL : Url.parser) (url : Str.t)
    (body : Agent.Listener → Agent.AgentEvent → list Agent.Cmd) :
  (∀ events,
     let s := session (run parseURL url body World.init events) in
     NoDup (Session.getApiKey parseURL <$> Session.sessionCalls s)
     ∧ Session.captureUniqueKeys s
       = list_to_set (Session.getApiKey parseURL <$> Session.sessionCalls s)
     ∧ size (Session.captureUniqueKeys s) = length (Session.sessionCalls s))
  ∧ (∀ calls,
       let s := Inv.deliver parseURL calls Session.init in
       Session.sessionCalls s
       = Spec.first_occurrences (Session.getApiKey parseURL) calls
       ∧ Session.captureUniqueKeys s
         = list_to_set (Session.getApiKey parseURL <$> calls))
  ∧ (∀ call s,
       Session.getApiKey parseURL call ∈ Session.captureUniqueKeys s →
       Session.onCapturedCall parseURL call s = s)
  ∧ (∀ response info method now (r : Recorder.t Session.t) s,
       Inv.passes parseURL r info →
       ∃ i, info = Some i
            ∧ Recorder.capturedCalls
                (state_of (Recorder.response_capture parseURL response info
                             method now (r, s))).1
              = Recorder.capturedCalls r
                ++ [Recorder.build_call response i method now])
  ∧ (∀ call,
       Session.getApiKey parseURL call
       = match parseURL (Capture.url call) with
         | Some u =>
             Capture.method call ++ Str.lit " " ++ Url.hostname u ++ Url.pathname u
         | None => Capture.method call ++ Str.lit " " ++ Capture.url call
         end)
  ∧ (∀ c1 c2 u1 u2,
       parseURL (Capture.url c1) = Some u1 → parseURL (Capture.url c2) = Some u2 →
       " "%char ∉ Capture.method c1 → " "%char ∉ Capture.method c2 →
       "/"%char ∉ Url.hostname u1 → "/"%char ∉ Url.hostname u2 →
       head (Url.pathname u1) = Some "/"%char →
       head (Url.pathname u2) = Some "/"%char →
       (Session.getApiKey parseURL c1 = Session.getApiKey parseURL c2
        ↔ Capture.method c1 = Capture.method c2
          ∧ Url.hostname u1 = Url.hostname u2
          ∧ Url.pathname u1 = Url.pathname u2))
  ∧ (∀ calls c,
       c ∈ calls →
       ∃ c', c' ∈ Session.sessionCalls (Inv.deliver parseURL calls Session.init)
             ∧ Session.getApiKey parseURL c' = Session.getApiKey parseURL c).
Proof.
  split_and!.
  - intros events s.
    destruct (WorldFacts.run_sound parseURL url body World.init events
                (WorldFacts.sound_init parseURL)) as [Hc _].
    fold s in Hc. pose proof (SessionFacts.consistent_size parseURL s Hc).
    by destruct Hc.
  - intros calls s.
    by destruct (SessionFacts.deliver_first_occurrences parseURL calls).
  - intros call s Hin. unfold Session.onCapturedCall. by rewrite decide_True.
  - intros response info method now r s Hp.
    destruct (RecorderFacts.response_capture_spec parseURL response info method
                now r s) as [H _].
    destruct (H Hp) as (i & ? & ? & _). eauto.
  - intros call. unfold Session.getApiKey.
    by destruct (parseURL (Capture.url call)).
  - intros c1 c2 u1 u2 H1 H2 Hm1 Hm2 Hh1 Hh2 Hp1 Hp2.
    unfold Session.getApiKey. rewrite H1, H2. split.
    + intros Heq.
      apply (StrFacts.app_sep_inj " "%char) in Heq as [Hm Hrest]; [|done..].
      destruct (Url.pathname u1) as [|a p1]; [done|].
      destruct (Url.pathname u2) as [|b p2]; [done|].
      simpl in Hp1, Hp2. simplify_eq.
      apply (StrFacts.app_sep_inj "/"%char) in Hrest as [Hh Hp]; [|done..].
      by rewrite Hp.
    + by intros (-> & -> & ->).
  - intros calls c Hc.
    destruct (SessionFacts.deliver_first_occurrences parseURL calls) as [_ ->].
    pose proof (SessionFacts.first_occurrences_covers
                  (Session.getApiKey parseURL) calls c Hc) as Hin.
    apply list_elem_of_fmap in Hin as (c' & Heq & Hin). by exists c'.
Qed.

(** The scenario of the specification: two calls with the key
    [GET x.com/api/items]; the recorder keeps both, the session the
    first.  And a stream of five calls: the second differs from the first
    in its query only and is dropped; the others differ from it in the
    method, the path or the host and are kept. *)
Lemma session_holds_one_call_per_key_witness :
  let w := run Url.simple Scenario.base Scenario.silent World.init Scenario.twice in
  let call (m u : string) := mkCall (Str.lit m) (Str.lit u) 200 ∅ ∅ None None 0 in
  let stream := [call "GET" "https://x.com/api/items?x=1";
                 call "GET" "https://x.com/api/items?x=2";
                 call "POST" "https://x.com/api/items";
                 call "GET" "https://x.com/api/users";
                 call "GET" "https://api.x.com/api/items"] in
  Capture.url <$> Recorder.capturedCalls (recorder w)
  = [Str.lit "https://x.com/api/items?x=1"; Str.lit "https://x.com/api/items?x=2"]
  ∧ Capture.url <$> Session.sessionCalls (session w)
    = [Str.lit "https://x.com/api/items?x=1"]
  ∧ size (Session.captureUniqueKeys (session w)) = 1
  ∧ Session.onCapturedCall Url.simple
      (Recorder.build_call (Scenario.ok Scenario.items2 "[2]")
         (Scenario.info_of Scenario.items2 20) (Str.lit "GET") 21)
      (session w) = session w
  ∧ Session.getApiKey Url.simple (call "GET" "https://x.com/api/items?x=1")
    = Str.lit "GET x.com/api/items"
  ∧ Session.getApiKey Url.simple (call "GET" "https://x.com/api/items?x=1")
    ≠ Session.getApiKey Url.simple (call "POST" "https://x.com/api/items")
  ∧ Session.sessionCalls (Inv.deliver Url.simple stream Session.init)
    = [call "GET" "https://x.com/api/items?x=1";
       call "POST" "https://x.com/api/items";
       call "GET" "https://x.com/api/users";
       call "GET" "https://api.x.com/api/items"].
Proof.
  intros w call stream.
  destruct (session_holds_one_call_per_key Url.simple Scenario.base Scenario.silent)
    as (Hrun & Hfirst & Hdup & _ & Hkey & Hsame & _).
  destruct (Hrun Scenario.twice) as (_ & _ & Hsize).
  split_and!.
  - by vm_compute.
  - by vm_compute.
  - fold w in Hsize. rewrite Hsize. by vm_compute.
  - apply Hdup. by vm_compute.
  - rewrite Hkey. by vm_compute.
  - intros Heq.
    apply (Hsame _ _ (Url.mk (Str.lit "x.com") (Str.lit "/api/items"))
                     (Url.mk (Str.lit "x.com") (Str.lit "/api/items")))
      in Heq as [Hm _]; [discriminate | by vm_compute | by vm_compute | ..].
    all: try done.
    all: vm_compute; intros Hin;
      repeat (apply elem_of_cons in Hin as [Hin | Hin]; [discriminate|]);
      by apply elem_of_nil in Hin.
  - destruct (Hfirst stream) as [-> _]. by vm_compute.
Defined.

(** C3, as the code has it.  A [response] handler first goes through the
    risk gate of the agent.  When the gate asks for an approval the handler
    is parked and nothing is captured for the time being.  When the
    handler goes on, at once or after its approval was resolved, it appends
    one call to the list of the recorder exactly when, at that moment, a
    capture session is active, the request of the response had been
    recorded, it is an XHR or a fetch, and third parties are included, or
    the base domain of the capture is empty, or the host of the request is
    the base domain or ends with a dot and the base domain; otherwise the
    list stays as it is.  The base domain is the one [startCapture] took
    from the base URL: its host when it has two labels or fewer, its last
    two labels otherwise.  When the base host has two labels or more and
    no empty label, a host that passes this test shares the last two labels
    of the base host, and a host with no empty label that shares them
    passes it.

    In every run of the system a parked handler waits for a promise that
    is pending, and it stays parked over every event that leaves the
    promise pending; an event that is a call on the agent and settles the
    promise of no parked handler changes the agent only.  When the promise
    of a parked handler is in the slot, [resolveApproval] makes that
    handler, and no other, go on, whatever the decision: the run goes into
    the state the rest of the handler leaves, with the handler no longer
    parked.  When its promise is not in the slot, the handler is
    superseded: whatever events follow, it stays parked and its promise
    pending, so it never goes on. *)
Theorem capture_filter_after_gate
    (parseURL : Url.parser) (url : Str.t)
    (body : Agent.Listener → Agent.AgentEvent → list Agent.Cmd)
    (response : Response) (now : Z) (w : World.t) :
  let info := Recorder.response_info response (recorder w) in
  let method := Recorder.response_method response (recorder w) in
  let gate := Agent.handleNetworkCall body method (rs_url response)
                (rs_status response) now (agent w) in
  let w' := step parseURL url body w (response_observed response now) in
  (∀ p, gate.1 = Agent.Await p →
        recorder w' = recorder w ∧ session w' = session w
        ∧ parked w' = parked w ++ [mkParked p response info method])
  ∧ (∀ v, gate.1 = Agent.Now v →
          w' = resume parseURL response info method now
                 (mk gate.2 (recorder w) (session w) (parked w) (rejected w)))
  ∧ (∀ w0 info0 method0 now0,
       let w1 := resume parseURL response info0 method0 now0 w0 in
       (Inv.passes parseURL (recorder w0) info0 ↔
          ∃ call, Recorder.capturedCalls (recorder w1)
                  = Recorder.capturedCalls (recorder w0) ++ [call])
       ∧ (¬ Inv.passes parseURL (recorder w0) info0 →
            Recorder.capturedCalls (recorder w1)
            = Recorder.capturedCalls (recorder w0)))
  ∧ (∀ baseUrl third (r r' : Recorder.t Session.t),
       Recorder.startCapture parseURL baseUrl third r = Returned r' →
       Recorder.captureActive r' = true
       ∧ Recorder.includeThirdParty r' = third
       ∧ ∃ b, parseURL baseUrl = Some b
              ∧ Recorder.captureBaseDomain r'
                = Some (Inv.base_domain (Url.hostname b)))
  ∧ (∀ host baseHost,
       Inv.well_formed baseHost → 2 ≤ length (Spec.labels baseHost) →
       (Recorder.isSameSite host (Inv.base_domain baseHost) = true →
        Spec.shares_base_domain host baseHost)
       ∧ (Inv.well_formed host → Spec.shares_base_domain host baseHost →
          Recorder.isSameSite host (Inv.base_domain baseHost) = true))
  ∧ (∀ events k,
       let w0 := run parseURL url body World.init events in
       k ∈ parked w0 →
       Agent.approvals (agent w0) !! pk_promise k = Some None
       ∧ (∀ e,
            Agent.approvals (agent (step parseURL url body w0 e)) !! pk_promise k
            = Some None →
            k ∈ parked (step parseURL url body w0 e))
       ∧ (∀ d at_,
            Agent.resolver (agent w0) = Some (pk_promise k) →
            let woken :=
              step parseURL url body w0
                (agent_called (Agent.op_resolveApproval d) at_) in
            woken
            = resume parseURL (pk_response k) (pk_info k) (pk_method k) at_
                (mk (Agent.resolveApproval d (agent w0)) (recorder w0) (session w0)
                    (filter (λ k', pk_promise k' ≠ pk_promise k) (parked w0))
                    (rejected w0))
            ∧ (k ∉ parked woken)
            ∧ Agent.approvals (agent woken) !! pk_promise k = Some (Some d))
       ∧ (Agent.resolver (agent w0) ≠ Some (pk_promise k) →
          ∀ later,
            k ∈ parked (run parseURL url body w0 later)
            ∧ Agent.approvals (agent (run parseURL url body w0 later))
                !! pk_promise k = Some None))
  ∧ (∀ w0 o at_,
       (∀ k, k ∈ parked w0 →
             settled (Agent.run_op body (agent w0) o) (pk_promise k) = false) →
       step parseURL url body w0 (agent_called o at_)
       = mk (Agent.run_op body (agent w0) o) (recorder w0) (session w0)
            (parked w0) (rejected w0)).
Proof.
  intros info method gate w'. split_and!.
  - intros p Hp. subst w'. cbn [step]. unfold on_response. fold info method gate.
    destruct gate as [g a]. simpl in Hp. by subst g.
  - intros v Hv. subst w'. cbn [step]. unfold on_response. fold info method gate.
    destruct gate as [g a]. simpl in Hv. by subst g.
  - intros w0 info0 method0 now0 w1.
    destruct (WorldFacts.resume_state parseURL response info0 method0 now0 w0)
      as (Hr & _). fold w1 in Hr.
    destruct (RecorderFacts.response_capture_spec parseURL response info0 method0
                now0 (recorder w0) (session w0)) as [Hyes Hno].
    rewrite Hr. split; [split|].
    + intros Hp. destruct (Hyes Hp) as (i & _ & -> & _). eauto.
    + intros [call Hcall].
      destruct (RecorderFacts.passes_or_not parseURL (recorder w0) info0)
        as [|Hn]; [done|].
      rewrite (Hno Hn) in Hcall. simpl in Hcall.
      apply (f_equal length) in Hcall. rewrite length_app in Hcall. simpl in Hcall. lia.
    + intros Hn. by rewrite (Hno Hn).
  - intros baseUrl third r r'.
    unfold Recorder.startCapture, Recorder.getBaseDomain, Inv.base_domain.
    destruct (parseURL baseUrl) as [b|]; [|done].
    change (filter (λ p, p ≠ []) (Str.split_on "."%char (Url.hostname b)))
      with (Spec.labels (Url.hostname b)).
    unfold Spec.registrable.
    destruct (decide (length (Spec.labels (Url.hostname b)) ≤ 2)) as [Hle | Hgt].
    + pose proof Hle as Hb. apply Nat.leb_le in Hb. rewrite Hb.
      intros [= <-]. simpl. split_and!; [done | done |].
      exists b. by rewrite decide_True.
    + assert (Hb : (length (Spec.labels (Url.hostname b)) <=? 2) = false)
        by (apply Nat.leb_gt; lia).
      rewrite Hb.
      intros [= <-]. simpl. split_and!; [done | done |].
      exists b. by rewrite decide_False.
  - intros host baseHost Hwf H2.
    destruct (RecorderFacts.same_site_registrable host baseHost Hwf H2)
      as [Hto Hfrom].
    split.
    + intros Hs. by apply Hto, RecorderFacts.isSameSite_spec.
    + intros Hh Hshare. by apply RecorderFacts.isSameSite_spec, Hfrom.
  - intros events k w0 Hk.
    pose proof (WorldFacts.run_waiting parseURL url body World.init events
                  WorldFacts.waiting_init) as Hw.
    fold w0 in Hw. pose proof Hw as [Hnd Hpend].
    split_and!.
    + by apply Hpend.
    + intros e. by apply WorldFacts.step_keeps_parked.
    + intros d at_ Hres woken. subst woken.
      rewrite (WorldFacts.resolve_wakes parseURL url body w0 k d at_ Hw Hk Hres).
      split; [done|].
      match goal with |- context [resume parseURL ?r ?i ?m ?n ?x] =>
        destruct (WorldFacts.resume_state parseURL r i m n x) as (_ & _ & -> & ->)
      end.
      cbn [agent parked]. split.
      * by intros [Hne _]%list_elem_of_filter.
      * unfold Agent.resolveApproval. rewrite Hres. simpl.
        by destruct (AgentFacts.settle_pending (pk_promise k) d _ (Hpend k Hk))
          as (_ & -> & _).
    + intros Hslot later.
      destruct (WorldFacts.run_keeps_orphan parseURL url body w0 later k Hk)
        as [Hin [Hp _]]; [split; [by apply Hpend | done]|].
      done.
  - intros w0 o at_. apply WorldFacts.call_wakes_none.
Qed.

(** A response that no approval gate holds back: it is captured when the
    handler goes on.  And the two checkout and payment calls of
    [Scenario.superseded], both parked: the approval given next makes the
    handler of the payment call go on, and its call is captured; the
    handler of the checkout call, whose promise the second request took
    out of the slot, stays parked whatever follows. *)
Lemma capture_filter_after_gate_witness :
  let w := run Url.simple Scenario.base Scenario.silent World.init
             (take 2 Scenario.twice) in
  let response := Scenario.ok Scenario.items1 "[1]" in
  let w5 := run Url.simple Scenario.base Scenario.silent World.init
              (take 5 Scenario.superseded) in
  let first := mkParked 0 (Scenario.ok Scenario.checkout "{}")
                 (Some (Scenario.info_of Scenario.checkout 10)) (Str.lit "POST") in
  let second := mkParked 1 (Scenario.ok Scenario.payment "{}")
                  (Some (Scenario.info_of Scenario.payment 20)) (Str.lit "POST") in
  (∃ call,
     Recorder.capturedCalls
       (recorder (resume Url.simple response
                    (Some (Scenario.info_of Scenario.items1 10)) (Str.lit "GET") 11 w))
     = Recorder.capturedCalls (recorder w) ++ [call])
  ∧ parked w5 = [first; second]
  ∧ (∀ d,
       let woken := step Url.simple Scenario.base Scenario.silent w5
                      (agent_called (Agent.op_resolveApproval d) 30) in
       Capture.url <$> Recorder.capturedCalls (recorder woken)
       = [Str.lit "https://x.com/api/payment"]
       ∧ parked woken = [first])
  ∧ ∀ later,
      first ∈ parked (run Url.simple Scenario.base Scenario.silent w5 later).
Proof.
  intros w response w5 first second.
  destruct (capture_filter_after_gate Url.simple Scenario.base Scenario.silent
              response 11 w)
    as (_ & _ & Hresume & _ & _ & Hparked & _).
  split_and!.
  - destruct (Hresume w (Some (Scenario.info_of Scenario.items1 10)) (Str.lit "GET")
                11%Z) as [Hiff _].
    apply Hiff. split; [by vm_compute|].
    eexists. split; [reflexivity|]. split; [left; by vm_compute|].
    right; right. exists (Url.mk (Str.lit "x.com") (Str.lit "/api/items")).
    split; [by vm_compute|]. left. by vm_compute.
  - by vm_compute.
  - intros d woken.
    destruct (Hparked (take 5 Scenario.superseded) second) as (_ & _ & Hwake & _).
    { change (second ∈ parked w5). vm_compute. right. left. }
    destruct (Hwake d 30%Z) as (Heq & _); [by vm_compute|].
    subst woken. fold w5 in Heq. rewrite Heq. split; by vm_compute.
  - intros later.
    destruct (Hparked (take 5 Scenario.superseded) first) as (_ & _ & _ & Hstays).
    { change (first ∈ parked w5). vm_compute. left. }
    apply Hstays. by vm_compute.
Defined.

(** The claim of the specification fails on [Scenario.superseded].  When
    the response to the checkout call is observed a capture session is
    active, its request is recorded, it is an XHR and its host is the base
    domain of the capture; the session stays active to the end.  Yet the
    list of the recorder never gets a call for it: its handler waits for an
    approval that the request for the payment call took the slot of, and
    that no later call on the agent can give.

    It fails on the test of the host as well.  In [Scenario.single_label]
    the capture is on [localhost] and the call goes to [api.localhost]:
    the two hosts do not share their last two labels, and the call is
    captured.  In [Scenario.final_dot] the capture is on [x.com] and the
    call goes to [x.com.]: the hosts share their last two labels, no
    approval is asked for, and the call is not captured. *)
Lemma approval_gate_withholds_a_capture :
  let after n := run Url.simple Scenario.base Scenario.silent World.init
                   (take n Scenario.superseded) in
  let response := Scenario.ok Scenario.checkout "{}" in
  let local n := run Url.simple Scenario.localhost Scenario.silent World.init
                   (take n Scenario.single_label) in
  let dot n := run Url.simple Scenario.base Scenario.silent World.init
                 (take n Scenario.final_dot) in
  (Spec.capture_expected Url.simple Scenario.base
     (Recorder.captureActive (recorder (after 2)))
     (Recorder.includeThirdParty (recorder (after 2)))
     (Recorder.response_info response (recorder (after 2)))
   ∧ Recorder.captureActive (recorder (after 7)) = true
   ∧ Capture.url <$> Recorder.capturedCalls (recorder (after 7))
     = [Str.lit "https://x.com/api/payment"]
   ∧ ¬ (∃ call, call ∈ Recorder.capturedCalls (recorder (after 7))
                ∧ Capture.url call = rs_url response)
   ∧ pk_response <$> parked (after 7) = [response]
   ∧ ∀ ops, Agent.approvals (Agent.run Scenario.silent (agent (after 7)) ops) !! 0
            = Some None)
  ∧ (¬ Spec.capture_expected Url.simple Scenario.localhost
         (Recorder.captureActive (recorder (local 2)))
         (Recorder.includeThirdParty (recorder (local 2)))
         (Recorder.response_info (Scenario.ok Scenario.subdomain "[]")
            (recorder (local 2)))
     ∧ Capture.url <$> Recorder.capturedCalls (recorder (local 2)) = []
     ∧ Capture.url <$> Recorder.capturedCalls (recorder (local 3))
       = [Str.lit "http://api.localhost/items"])
  ∧ (Spec.capture_expected Url.simple Scenario.base
       (Recorder.captureActive (recorder (dot 2)))
       (Recorder.includeThirdParty (recorder (dot 2)))
       (Recorder.response_info (Scenario.ok Scenario.dotted "[]")
          (recorder (dot 2)))
     ∧ Recorder.capturedCalls (recorder (dot 3)) = []
     ∧ parked (dot 3) = [] ∧ rejected (dot 3) = []).
Proof.
  intros after response local dot. split_and!.
  - split; [by vm_compute|].
    exists (Scenario.info_of Scenario.checkout 10).
    split; [by vm_compute|]. split; [left; by vm_compute|].
    right. exists (Url.mk (Str.lit "x.com") (Str.lit "/api/checkout")),
                  (Url.mk (Str.lit "x.com") (Str.lit "/")).
    split_and!; by vm_compute.
  - by vm_compute.
  - by vm_compute.
  - intros (call & Hin & Hurl).
    assert (Hurls : Capture.url call
                    ∈ Capture.url <$> Recorder.capturedCalls (recorder (after 7)))
      by (apply list_elem_of_fmap; eauto).
    rewrite Hurl in Hurls. vm_compute in Hurls.
    apply list_elem_of_singleton in Hurls. discriminate.
  - by vm_compute.
  - intros ops. apply AgentFacts.run_orphan. split; by vm_compute.
  - intros (_ & i & Hi & _ & [Hthird | (u & b & Hu & Hb & Hshare)]).
    + by vm_compute in Hthird.
    + vm_compute in Hi. injection Hi as <-.
      vm_compute in Hu, Hb. injection Hu as <-. injection Hb as <-.
      vm_compute in Hshare. discriminate.
  - by vm_compute.
  - by vm_compute.
  - split; [by vm_compute|].
    exists (Scenario.info_of Scenario.dotted 10).
    split; [by vm_compute|]. split; [left; by vm_compute|].
    right. exists (Url.mk (Str.lit "x.com.") (Str.lit "/api/items")),
                  (Url.mk (Str.lit "x.com") (Str.lit "/")).
    split_and!; by vm_compute.
  - by vm_compute.
  - by vm_compute.
  - by vm_compute.
Qed.

(** A body that cannot be read, or whose content type is neither JSON nor
    plain text, is left out of the call; no exception comes of it. *)
Lemma unreadable_body_is_omitted (response : Response) :
  (rs_text response = None → Recorder.safeResponseBody response = None)
  ∧ (Str.includes (Str.lit "application/json")
       (default [] (rs_headers response !! Str.lit "content-type")) = false →
     Str.includes (Str.lit "text/plain")
       (default [] (rs_headers response !! Str.lit "content-type")) = false →
     Recorder.safeResponseBody response = None).
Proof.
  unfold Recorder.safeResponseBody. split.
  - intros ->. by destruct (negb _ && negb _).
  - by intros -> ->.
Qed.

(** C9, where the code departs from it.  The filter parses the URL of the
    request outside any [try]: in a capture session without third parties,
    an XHR or fetch whose URL the parser rejects makes [shouldCapture]
    throw, and the exception leaves the [response] handler before anything
    is captured. *)
Theorem malformed_request_url_throws {S : Type} (parseURL : Url.parser)
    (response : Response) (info : RequestInfo) (method : Str.t) (now : Z)
    (r : Recorder.t S) (s : S) :
  Recorder.captureActive r = true →
  ri_resourceType info = Str.lit "xhr" ∨ ri_resourceType info = Str.lit "fetch" →
  Recorder.includeThirdParty r = false →
  Recorder.truthy (Recorder.captureBaseDomain r) = true →
  parseURL (ri_url info) = None →
  Recorder.shouldCapture parseURL r info = None
  ∧ Recorder.response_capture parseURL response (Some info) method now (r, s)
    = Thrown (r, s).
Proof.
  intros Ha Hrt Ht Hb Hu.
  assert (Hsc : Recorder.shouldCapture parseURL r info = None).
  { unfold Recorder.shouldCapture. rewrite Ht, Hb, Hu. simpl.
    destruct Hrt as [-> | ->]; by vm_compute. }
  split; [done|]. unfold Recorder.response_capture. by rewrite Ha, Hsc.
Qed.

(** An XHR with the URL [not a url] during a capture on [https://x.com]:
    the handler throws, and the run records the rejection and no call. *)
Lemma malformed_request_url_throws_witness :
  Recorder.response_capture Url.simple (Scenario.ok Scenario.broken "{}")
    (Some (Scenario.info_of Scenario.broken 10)) (Str.lit "GET") 11
    (Scenario.capturing, Session.init)
  = Thrown (Scenario.capturing, Session.init)
  ∧ rejected (run Url.simple Scenario.base Scenario.silent World.init
                Scenario.malformed) = [1]
  ∧ Recorder.capturedCalls
      (recorder (run Url.simple Scenario.base Scenario.silent World.init
                   Scenario.malformed)) = [].
Proof.
  split_and!.
  - by destruct (malformed_request_url_throws Url.simple
                   (Scenario.ok Scenario.broken "{}")
                   (Scenario.info_of Scenario.broken 10) (Str.lit "GET") 11
                   Scenario.capturing Session.init)
      as [_ ->]; [vm_compute | left; vm_compute | vm_compute..].
  - by vm_compute.
  - by vm_compute.
Defined.

End CaptureFacts.

(** ** Exploration *)

Module ExploreFacts.
Import RegExp RegExpFacts Explore Inv.

(** *** The unsafe pattern *)

Lemma is_space_upper c : Str.is_space (Str.upper_char c) = Str.is_space c.
Proof. by destruct c as [[] [] [] [] [] [] [] []]. Qed.

Lemma spaces_upper g gap :
  Str.toUpperCase g = Str.toUpperCase gap →
  Forall (λ c, Str.is_space c = true) gap → Forall (λ c, Str.is_space c = true) g.
Proof.
  unfold Str.toUpperCase. revert gap.
  induction g as [|a g IH]; intros [|b gap] Heq Hs; simplify_eq/=; [constructor|].
  apply Forall_cons in Hs as [Hb Hs]. constructor; [|by eapply IH].
  by rewrite <- is_space_upper, H, is_space_upper.
Qed.

(** A piece of [s] that reads [w] when case is ignored. *)
Lemma fold_contains w s :
  (∃ pre m post, s = pre ++ m ++ post ∧ Str.toUpperCase m = Str.toUpperCase w)
  ↔ Str.contains (Str.toUpperCase w) (Str.toUpperCase s).
Proof.
  unfold Str.contains, Str.toUpperCase. split.
  - intros (pre & m & post & -> & Hm). rewrite !fmap_app, Hm. eauto.
  - intros (pre' & post' & H).
    apply fmap_app_inv in H as (pre & rest & -> & Hrest & ->).
    symmetry in Hrest. apply fmap_app_inv in Hrest as (m & post & Hm & -> & ->).
    exists pre, m, post. by rewrite Hm.
Qed.

Lemma sign_out_matches m :
  matches true sign_out m ↔
    ∃ gap, Forall (λ c, Str.is_space c = true) gap
           ∧ Str.toUpperCase m
             = Str.toUpperCase (Str.lit "sign" ++ gap ++ Str.lit "out").
Proof.
  unfold sign_out. split.
  - intros (a & rest & -> & Ha%matches_word_fold & Hrest)%matches_seq_inv.
    apply matches_seq_inv in Hrest
      as (gap & b & -> & Hgap%matches_star_cls & Hb%matches_word_fold).
    exists gap. split; [done|]. unfold Str.toUpperCase in *.
    by rewrite !fmap_app, Ha, Hb.
  - intros (gap & Hgap & Hm). unfold Str.toUpperCase in Hm.
    rewrite !fmap_app in Hm.
    apply fmap_app_inv in Hm as (a & rest & Ha & Hrest & ->).
    symmetry in Hrest. apply fmap_app_inv in Hrest as (g & b & Hg & Hb & ->).
    apply matches_seq_inv. exists a, (g ++ b).
    split_and!; [done | by apply matches_word_fold |].
    apply matches_seq_inv. exists g, b.
    split_and!; [done | | by apply matches_word_fold].
    apply matches_star_cls. by apply (spaces_upper g gap).
Qed.

Lemma unsafe_matches m :
  matches true unsafe_re m ↔
    (∃ w, w ∈ unsafe_words ∧ Str.toUpperCase m = Str.toUpperCase w)
    ∨ matches true sign_out m.
Proof.
  unfold unsafe_re. fold sign_out.
  rewrite matches_alts. split.
  - intros (r & Hr & Hm). unfold unsafe_words.
    repeat (apply elem_of_cons in Hr as [-> | Hr];
            [first [ by right
                   | left; apply matches_word_fold in Hm;
                     match type of Hm with
                     | _ = Str.toUpperCase ?w => exists w
                     end;
                     split; [|done];
                     apply list_elem_of_fmap; eexists; split; [reflexivity|];
                     repeat first [by left | right] ] |]).
    by apply elem_of_nil in Hr.
  - intros [(w & Hw & Hm) | Hm].
    + exists (word w). split; [|by apply matches_word_fold].
      unfold unsafe_words in Hw.
      apply list_elem_of_fmap in Hw as (w0 & -> & Hw0).
      repeat (apply elem_of_cons in Hw0 as [-> | Hw0];
              [repeat first [by left | right] |]).
      by apply elem_of_nil in Hw0.
    + exists sign_out. split; [|done]. right; by left.
Qed.

(** [isUnsafeLabel] decides the unsafe labels of the specification. *)
Lemma isUnsafeLabel_spec l : isUnsafeLabel l = true ↔ Spec.unsafe_label l.
Proof.
  unfold isUnsafeLabel, Spec.unsafe_label. rewrite test_spec. split.
  - intros (pre & m & post & -> & [(w & Hw & Hm) | Hm]%unsafe_matches).
    + left. exists w. split; [done|]. apply fold_contains. eauto.
    + right. apply sign_out_matches in Hm as (gap & Hgap & Hm).
      exists gap. split; [done|]. apply fold_contains. eauto.
  - intros [(w & Hw & (pre & m & post & -> & Hm)%fold_contains)
           | (gap & Hgap & (pre & m & post & -> & Hm)%fold_contains)].
    + exists pre, m, post. split; [done|]. apply unsafe_matches. eauto.
    + exists pre, m, post. split; [done|]. apply unsafe_matches. right.
      apply sign_out_matches. eauto.
Qed.

(** *** The loop *)

Section WithUrl.
Variable parseURL : Url.parser.
Variable url baseUrl : Str.t.
Variable env : Env.
Variable skipLabels : gset Str.t.

Lemma turn_cases i c st :
  let st' := state_after (turn parseURL url baseUrl env skipLabels i c st) in
  (attempts st' = attempts st ∧ explored st' = explored st
   ∧ visited st' = visited st)
  ∨ (isUnsafeLabel (label c) = false
     ∧ attempts st' = attempts st ++ [(c, navigates env i c)]
     ∧ explored st' = explored st + gain (navigates env i c)
     ∧ visited st' = visited st ∪ seen c (navigates env i c)).
Proof.
  unfold turn. destruct (isUnsafeLabel (label c)) eqn:Hu; [by left|].
  destruct (bool_decide _ && negb _); [by left|].
  destruct (from_option _ _ _); [by left|].
  assert (Hnav : ∀ st0,
    attempts st0 = attempts st → explored st0 = explored st →
    visited st0 = visited st →
    let st' := state_after (navigate baseUrl env i c st0) in
    attempts st' = attempts st ++ [(c, navigates env i c)]
    ∧ explored st' = explored st + gain (navigates env i c)
    ∧ visited st' = visited st ∪ seen c (navigates env i c)).
  { intros st0 Ha He Hv. unfold navigate, seen, attempts in *.
    destruct (navigates env i c); simpl.
    - destruct (href_of c) as [h|]; destruct (completes env i c);
        destruct (returns env i c); simpl;
        rewrite ?omap_app, ?Ha, ?He, ?Hv; simpl;
        rewrite ?(right_id_L [] (++)), ?(right_id_L ∅ (∪));
        split_and!; try done; lia.
    - rewrite omap_app, Ha, He, Hv. simpl.
      rewrite (right_id_L ∅ (∪)). split_and!; try done; lia. }
  destruct (isRiskyNavigation _ _ _).
  - destruct (decides env i c) as [d|]; [|by left].
    destruct (decide (d ≠ Agent.act_yes)); [by left|].
    right. split; [done|]. by apply Hnav.
  - right. split; [done|]. by apply Hnav.
Qed.

Lemma tidy_start : tidy start.
Proof. split_and!; [done | by intros c ok ?%elem_of_nil | done]. Qed.

Lemma visits_snoc st st' c ok :
  attempts st' = attempts st ++ [(c, ok)] →
  visits st' = visits st ++ (if ok then [c] else []).
Proof.
  unfold visits. intros ->. rewrite filter_app, fmap_app. f_equal.
  rewrite filter_cons, filter_nil. by destruct ok.
Qed.

Lemma turn_tidy i c st :
  tidy st →
  let st' := state_after (turn parseURL url baseUrl env skipLabels i c st) in
  tidy st' ∧ explored st' ≤ Datatypes.S (explored st).
Proof.
  intros (He & Hu & Hv) st'.
  destruct (turn_cases i c st) as [(Ha & He' & Hv') | (Hc & Ha & He' & Hv')];
    fold st' in Ha, He', Hv'.
  - unfold tidy, visits. rewrite Ha, He', Hv'. split; [done | lia].
  - pose proof (visits_snoc st st' c _ Ha) as Hvis.
    split; [|unfold gain in He'; destruct (navigates env i c); lia].
    unfold tidy. rewrite Ha, He', Hv', Hvis. split_and!.
    + rewrite length_app, He. unfold gain. by destruct (navigates env i c).
    + intros c' ok [Hin | [= -> ->]%list_elem_of_singleton]%elem_of_app; eauto.
    + rewrite omap_app, list_to_set_app_L, Hv. f_equal. unfold seen.
      destruct (navigates env i c); simpl; [|done].
      destruct (href_of c); simpl; [|done]. by rewrite (right_id_L ∅ (∪)).
Qed.

Lemma visit_tidy cs i st :
  tidy st → explored st ≤ 8 →
  let st' := (visit parseURL url baseUrl env skipLabels i cs st).2 in
  tidy st' ∧ explored st' ≤ 8.
Proof.
  revert i st. induction cs as [|c cs IH]; intros i st Ht Hle; cbn [visit];
    [by split|].
  destruct (8 <=? explored st) eqn:Hb; [by split|].
  apply Nat.leb_gt in Hb.
  destruct (turn_tidy i c st Ht) as [Ht' Hle'].
  destruct (turn parseURL url baseUrl env skipLabels i c st) as [st1 | how st1];
    cbn [state_after] in *.
  - apply IH; [done | lia].
  - split; [done | cbn; lia].
Qed.

(** A navigation that throws leaves the counter and the set of visited
    links as they were. *)
Lemma failed_turn i c st :
  navigates env i c = false →
  let st' := state_after (turn parseURL url baseUrl env skipLabels i c st) in
  explored st' = explored st ∧ visited st' = visited st.
Proof.
  intros Hf st'.
  destruct (turn_cases i c st) as [(_ & He & Hv) | (_ & _ & He & Hv)];
    fold st' in He, Hv; [done|].
  rewrite Hf in He, Hv. simpl in *. rewrite (right_id_L ∅ (∪)) in Hv.
  split; [lia | done].
Qed.

End WithUrl.

Lemma explore_tidy parseURL url baseUrl env candidates plan :
  let st := (exploreVisiblePages parseURL url baseUrl env candidates plan).2 in
  tidy st ∧ explored st ≤ 8.
Proof.
  unfold exploreVisiblePages. destruct candidates as [|c cs].
  - simpl. split; [|lia]. split_and!; [done | by intros c ok ?%elem_of_nil | done].
  - apply visit_tidy; [apply tidy_start | simpl; lia].
Qed.

(** C5. A run opens at most 8 pages, whatever the candidates and the plan,
    and it never tries to open a candidate with an unsafe label: no
    candidate it went to contains, in any case of letters, logout, delete,
    remove, unsubscribe, checkout, payment, order, purchase or buy, or
    sign and out with white space or nothing between them. *)
Theorem exploration_budget_and_safety parseURL url baseUrl env candidates plan :
  let st := (exploreVisiblePages parseURL url baseUrl env candidates plan).2 in
  length (visits st) ≤ 8
  ∧ (∀ c ok, (c, ok) ∈ attempts st →
       isUnsafeLabel (label c) = false ∧ ¬ Spec.unsafe_label (label c))
  ∧ (∀ c, Spec.unsafe_label (label c) → c ∉ visits st).
Proof.
  intros st.
  destruct (explore_tidy parseURL url baseUrl env candidates plan)
    as [(He & Hu & _) Hle]. fold st in He, Hu, Hle.
  assert (Hsafe : ∀ c ok, (c, ok) ∈ attempts st →
            isUnsafeLabel (label c) = false ∧ ¬ Spec.unsafe_label (label c)).
  { intros c ok Hin. pose proof (Hu c ok Hin) as Hc. split; [done|].
    rewrite <- isUnsafeLabel_spec. congruence. }
  split_and!; [lia | done |].
  intros c Hc Hin. unfold visits in Hin.
  apply list_elem_of_fmap in Hin as ([c' ok] & -> & Hin%list_elem_of_filter).
  destruct Hin as [_ Hin]. by destruct (Hsafe _ _ Hin).
Qed.

(** C10. The counter of a run is the number of navigations that returned:
    a navigation that throws adds nothing to it, and its link is not put
    in the set of visited links, which holds the links of the pages opened,
    each as the candidate has it, a candidate with no link or an empty one
    giving none.
    So a run can go to more than 8 candidates and still open at most 8
    pages. *)
Theorem failed_navigation_is_free parseURL url baseUrl env candidates plan :
  let st := (exploreVisiblePages parseURL url baseUrl env candidates plan).2 in
  explored st = length (visits st)
  ∧ length (visits st) ≤ 8
  ∧ visited st = list_to_set (omap href_of (visits st))
  ∧ (∀ c, href_of c = match href c with
                       | None | Some [] => None
                       | Some h => Some h
                       end)
  ∧ (∀ skipLabels i c st0,
       navigates env i c = false →
       let st1 := state_after (turn parseURL url baseUrl env skipLabels i c st0) in
       explored st1 = explored st0 ∧ visited st1 = visited st0)
  ∧ (∃ parseURL' url' env' candidates' plan',
       let st' := (exploreVisiblePages parseURL' url' url' env' candidates' plan').2 in
       8 < length (attempts st') ∧ length (visits st') = 8).
Proof.
  intros st.
  destruct (explore_tidy parseURL url baseUrl env candidates plan)
    as [(He & _ & Hv) Hle]. fold st in He, Hv, Hle.
  split_and!; [done | lia | done | | |].
  - intros c. unfold href_of. by destruct (href c) as [[|a h]|].
  - intros skipLabels i c st0. apply failed_turn.
  - exists Url.simple, Scenario.base, Scenario.flaky, Scenario.ten_pages,
      Scenario.no_plan.
    cbv zeta. split; [apply Nat.ltb_lt|]; by vm_compute.
Qed.

(** Twenty candidates and a plan that ranks [Logout] and [Orders] high:
    eight pages are opened, neither of the two among them. *)
Lemma exploration_budget_and_safety_witness :
  let st := (exploreVisiblePages Url.simple Scenario.base Scenario.base
               Scenario.smooth Scenario.twenty_pages Scenario.reckless_plan).2 in
  length (visits st) = 8
  ∧ (Scenario.page "Logout" ∉ visits st)
  ∧ (Scenario.page "Orders" ∉ visits st).
Proof.
  intros st.
  destruct (exploration_budget_and_safety Url.simple Scenario.base Scenario.base
              Scenario.smooth Scenario.twenty_pages Scenario.reckless_plan)
    as (_ & _ & Hunsafe).
  split_and!.
  - by vm_compute.
  - apply Hunsafe, isUnsafeLabel_spec. by vm_compute.
  - apply Hunsafe, isUnsafeLabel_spec. by vm_compute.
Defined.

(** Ten candidates, the first two navigations throw: ten tries, eight
    pages opened, the first try leaves the counter at zero, and the links
    visited are those of the eight pages, the links of the two failures
    not among them. *)
Lemma failed_navigation_is_free_witness :
  let run := exploreVisiblePages Url.simple Scenario.base Scenario.base
               Scenario.flaky Scenario.ten_pages Scenario.no_plan in
  length (attempts run.2) = 10
  ∧ explored run.2 = 8
  ∧ explored (state_after (turn Url.simple Scenario.base Scenario.base
                             Scenario.flaky ∅ 0 (Scenario.page "p0") start)) = 0
  ∧ visited run.2
    = list_to_set (Str.lit <$> ["https://x.com/p2"; "https://x.com/p3";
                                "https://x.com/p4"; "https://x.com/p5";
                                "https://x.com/p6"; "https://x.com/p7";
                                "https://x.com/p8"; "https://x.com/p9"]%string)
  ∧ Str.lit "https://x.com/p0" ∉ visited run.2.
Proof.
  intros run.
  destruct (failed_navigation_is_free Url.simple Scenario.base Scenario.base
              Scenario.flaky Scenario.ten_pages Scenario.no_plan)
    as (Hcount & _ & Hvisited & _ & Hfree & _).
  fold run in Hcount, Hvisited.
  assert (Hlinks : omap href_of (visits run.2)
                   = Str.lit <$> ["https://x.com/p2"; "https://x.com/p3";
                                  "https://x.com/p4"; "https://x.com/p5";
                                  "https://x.com/p6"; "https://x.com/p7";
                                  "https://x.com/p8"; "https://x.com/p9"]%string)
    by (by vm_compute).
  split_and!.
  - by vm_compute.
  - rewrite Hcount. by vm_compute.
  - by destruct (Hfree ∅ 0 (Scenario.page "p0") start) as [-> _]; [vm_compute|].
  - by rewrite Hvisited, Hlinks.
  - rewrite Hvisited, Hlinks, elem_of_list_to_set.
    intros Hin. repeat (apply elem_of_cons in Hin as [Hin | Hin]; [discriminate|]).
    by apply elem_of_nil in Hin.
Defined.

End ExploreFacts.

(** ** Insertion-ordered maps *)

Module JsMapFacts.
Import JsMap.

Lemma get_nil {V} k : get k ([] : t V) = None.
Proof. done. Qed.

Lemma get_cons {V} k (e : Str.t * V) m :
  get k (e :: m) = if decide (e.1 = k) then Some e.2 else get k m.
Proof.
  unfold get. simpl. rewrite bool_decide_decide.
  by destruct (decide (e.1 = k)).
Qed.

Lemma get_set {V} k k' (v : V) m :
  get k' (set k v m) = if decide (k = k') then Some v else get k' m.
Proof.
  induction m as [|e m IH]; simpl.
  - rewrite get_cons. simpl. by destruct (decide (k = k')).
  - destruct (decide (e.1 = k)) as [He|He]; rewrite !get_cons; simpl.
    + destruct (decide (k = k')) as [->|Hk]; [done|].
      rewrite decide_False by congruence. done.
    + rewrite IH. destruct (decide (e.1 = k')) as [He'|He']; [|done].
      rewrite decide_False by congruence. done.
Qed.

Lemma get_None {V} k (m : t V) : get k m = None ↔ k ∉ keys m.
Proof.
  unfold keys. induction m as [|e m IH].
  { split; [intros _; apply not_elem_of_nil | done]. }
  rewrite get_cons, fmap_cons, not_elem_of_cons.
  destruct (decide (e.1 = k)) as [He|He].
  - split; [done | intros [Hne _]; congruence].
  - rewrite IH. split; [intros H; split; [congruence | done] | by intros [_ H]].
Qed.

Lemma get_Some_elem {V} k (v : V) m : get k m = Some v → (k, v) ∈ m.
Proof.
  induction m as [|e m IH]; [done|]. rewrite get_cons.
  destruct (decide (e.1 = k)) as [<-|He].
  - intros [= <-]. destruct e. by left.
  - intros H. right. by apply IH.
Qed.

Lemma elem_get {V} k (v : V) m : NoDup (keys m) → (k, v) ∈ m → get k m = Some v.
Proof.
  unfold keys. induction m as [|e m IH]; [by intros _ ?%elem_of_nil|].
  rewrite fmap_cons, NoDup_cons, get_cons. intros [Hnotin Hnd] Hin.
  apply elem_of_cons in Hin as [<- | Hin]; [by rewrite decide_True|].
  rewrite decide_False; [by apply IH|].
  intros He. apply Hnotin. rewrite He.
  apply list_elem_of_fmap. by exists (k, v).
Qed.

(** Setting a key that is there keeps its place; a new key goes to the
    end. *)
Lemma keys_set {V} k (v : V) m :
  keys (set k v m) = if decide (k ∈ keys m) then keys m else keys m ++ [k].
Proof.
  unfold keys. induction m as [|e m IH].
  - destruct (decide (k ∈ [].*1)) as [Hin|_]; [by apply elem_of_nil in Hin | done].
  - cbn [set]. destruct (decide (e.1 = k)) as [He|He]; rewrite !fmap_cons.
    + cbn [fst]. rewrite decide_True by (rewrite He; left). by rewrite He.
    + rewrite IH. destruct (decide (k ∈ m.*1)) as [Hin|Hin].
      * by rewrite decide_True by by right.
      * rewrite decide_False; [done|].
        rewrite not_elem_of_cons. split; [congruence | done].
Qed.

Lemma NoDup_set {V} k (v : V) m : NoDup (keys m) → NoDup (keys (set k v m)).
Proof.
  intros Hnd. rewrite keys_set. destruct (decide (k ∈ keys m)); [done|].
  apply NoDup_app. split_and!; [done | | apply NoDup_singleton].
  intros x Hx ->%list_elem_of_singleton. done.
Qed.

Lemma elem_of_set {V} k (v : V) m k' v' :
  NoDup (keys m) →
  (k', v') ∈ set k v m ↔ (k' = k ∧ v' = v) ∨ (k' ≠ k ∧ (k', v') ∈ m).
Proof.
  unfold keys. induction m as [|e m IH]; cbn [set]; intros Hnd.
  - rewrite list_elem_of_singleton. split.
    + intros [= -> ->]. by left.
    + intros [[-> ->] | [_ Hin]]; [done | by apply elem_of_nil in Hin].
  - destruct e as [k0 v0]. cbn [fst].
    rewrite fmap_cons, NoDup_cons in Hnd. destruct Hnd as [Hnotin Hnd].
    cbn [fst] in Hnotin.
    destruct (decide (k0 = k)) as [->|He]; rewrite !elem_of_cons.
    + split.
      * intros [[= -> ->] | Hin]; [by left|].
        right. split; [|by right].
        intros ->. apply Hnotin, list_elem_of_fmap. by exists (k, v').
      * intros [[-> ->] | [Hne [[= -> ->] | Hin]]]; [by left | done | by right].
    + rewrite (IH Hnd). split.
      * intros [[= -> ->] | [[-> ->] | [Hne Hin]]].
        -- right. split; [done | by left].
        -- by left.
        -- right. split; [done | by right].
      * intros [[-> ->] | [Hne [[= -> ->] | Hin]]].
        -- right. by left.
        -- by left.
        -- right. right. by split.
Qed.

End JsMapFacts.

(** ** Flows *)

Module FlowFacts.
Import FlowTracker.

Local Abbreviation wf := Notions.flows_wf.

Lemma wf_init : wf init.
Proof.
  split_and!; [apply NoDup_nil_2 | by intros k a ?%elem_of_nil | done].
Qed.

Lemma startFlow_wf n now ft : wf ft → wf (startFlow n now ft).
Proof.
  intros (Hnd & Hmap & Hcur). unfold startFlow. split_and!; simpl.
  - by apply JsMapFacts.NoDup_set.
  - intros k a [[-> ->] | [Hk Hin]]%JsMapFacts.elem_of_set; [| |done].
    + exists (mkFlow n [] now None). split; [|done].
      by rewrite lookup_app_r, Nat.sub_diag.
    + destruct (Hmap k a Hin) as (f & Hf & Hname). exists f. split; [|done].
      by apply lookup_app_l_Some.
  - intros a [= <-]. exists (mkFlow n [] now None). split.
    + by rewrite lookup_app_r, Nat.sub_diag.
    + apply JsMapFacts.elem_of_set; [done | by left].
Qed.

(** Changing the steps or the end time of a flow object keeps the
    invariant. *)
Lemma alter_wf (g : Flow → Flow) a cur ft :
  (∀ f, name (g f) = name f) → wf ft →
  (∀ b, cur = Some b → currentFlow ft = Some b) →
  wf (mk (alter g a (objects ft)) (flows ft) cur).
Proof.
  intros Hg (Hnd & Hmap & Hcur) Hsub.
  assert (Hlook : ∀ b f, objects ft !! b = Some f →
            ∃ f', alter g a (objects ft) !! b = Some f' ∧ name f' = name f).
  { intros b f Hf. destruct (decide (a = b)) as [->|Hne].
    - exists (g f). split; [by rewrite list_lookup_alter_eq, Hf | apply Hg].
    - exists f. by rewrite list_lookup_alter_ne. }
  split_and!; simpl; [done | |].
  - intros k b Hin. destruct (Hmap k b Hin) as (f & Hf & Hname).
    destruct (Hlook b f Hf) as (f' & Hf' & Hn'). exists f'. split; congruence.
  - intros b Hb. destruct (Hcur b (Hsub b Hb)) as (f & Hf & Hin).
    destruct (Hlook b f Hf) as (f' & Hf' & Hn'). exists f'. split; [done|].
    by rewrite Hn'.
Qed.

Lemma addStep_wf s calls acts nowStart now ft :
  wf ft → wf (addStep s calls acts nowStart now ft).
Proof.
  intros Hwf. unfold addStep.
  set (ft1 := match currentFlow ft with
              | None => startFlow untitled nowStart ft
              | Some _ => ft
              end).
  assert (Hwf1 : wf ft1).
  { subst ft1. destruct (currentFlow ft); [done | by apply startFlow_wf]. }
  destruct (currentFlow ft1) as [a|] eqn:Ha; [|done].
  rewrite <- Ha. by apply alter_wf.
Qed.

Lemma endFlow_wf now ft : wf ft → wf (endFlow now ft).
Proof.
  intros Hwf. unfold endFlow. destruct (currentFlow ft) as [a|]; [|done].
  by apply alter_wf.
Qed.

Lemma run_op_wf ft o : wf ft → wf (run_op ft o).
Proof.
  destruct o; simpl; eauto using startFlow_wf, addStep_wf, endFlow_wf.
Qed.

Lemma run_wf ops ft : wf ft → wf (run ft ops).
Proof.
  revert ft. induction ops as [|o ops IH]; intros ft Hwf; [done|].
  simpl. apply IH. by apply run_op_wf.
Qed.

Lemma getFlow_elem n f ft :
  wf ft → getFlow n ft = Some f ↔ ∃ a, (n, a) ∈ flows ft ∧ objects ft !! a = Some f.
Proof.
  intros (Hnd & _ & _). unfold getFlow. split.
  - destruct (JsMap.get n (flows ft)) as [a|] eqn:Hget; [|done]. simpl.
    intros Hf. exists a. split; [by apply JsMapFacts.get_Some_elem | done].
  - intros (a & Hin & Hf). by rewrite (JsMapFacts.elem_get n a _ Hnd Hin).
Qed.

Lemma getAllFlows_names ft :
  wf ft → name <$> getAllFlows ft = JsMap.keys (flows ft).
Proof.
  intros (_ & Hmap & _). unfold getAllFlows, JsMap.values, JsMap.keys.
  induction (flows ft) as [|[k a] m IH]; [done|]. simpl.
  destruct (Hmap k a) as (f & -> & Hname); [by left|]. simpl.
  rewrite Hname. f_equal. apply IH. intros k' a' Hin. apply Hmap. by right.
Qed.

(** A flow that is not the current one is left as it is by every call. *)
Lemma run_op_frozen a ft o :
  a < length (objects ft) → currentFlow ft ≠ Some a →
  let ft' := run_op ft o in
  a < length (objects ft') ∧ currentFlow ft' ≠ Some a
  ∧ objects ft' !! a = objects ft !! a.
Proof.
  intros Hlt Hcur.
  assert (Hstart : ∀ n now,
    let ft' := startFlow n now ft in
    a < length (objects ft') ∧ currentFlow ft' ≠ Some a
    ∧ currentFlow ft' = Some (length (objects ft))
    ∧ objects ft' !! a = objects ft !! a).
  { intros n now. unfold startFlow; simpl. rewrite length_app. simpl. split_and!.
    - lia.
    - intros [= Ha]. lia.
    - done.
    - by rewrite lookup_app_l. }
  destruct o as [n now | s calls acts nowStart now | now]; cbn [run_op].
  - destruct (Hstart n now) as (? & ? & _ & ?). done.
  - unfold addStep. destruct (currentFlow ft) as [b|] eqn:Hb.
    + rewrite Hb. simpl. rewrite length_alter. split_and!; [done | done |].
      apply list_lookup_alter_ne. congruence.
    + destruct (Hstart untitled nowStart) as (Hlt' & Hcur' & Hnew & Heq).
      rewrite Hnew. simpl. rewrite length_alter. split_and!; [done | |].
      * intros [= Ha]. lia.
      * rewrite list_lookup_alter_ne by lia. done.
  - unfold endFlow. destruct (currentFlow ft) as [b|] eqn:Hb; simpl.
    + rewrite length_alter. split_and!; [done | done |].
      apply list_lookup_alter_ne. congruence.
    + by rewrite Hb.
Qed.

Lemma run_frozen a ops ft :
  a < length (objects ft) → currentFlow ft ≠ Some a →
  objects (run ft ops) !! a = objects ft !! a.
Proof.
  revert ft. induction ops as [|o ops IH]; intros ft Hlt Hcur; [done|].
  simpl. destruct (run_op_frozen a ft o Hlt Hcur) as (Hlt' & Hcur' & Heq).
  by rewrite IH, Heq.
Qed.

End FlowFacts.

(** ** The flow tracker *)

Module FlowTrackerFacts.
Import FlowTracker FlowFacts.

Local Abbreviation wf := Notions.flows_wf.

(** X1. After any sequence of [startFlow], [addStep] and [endFlow] on a
    new tracker, the current flow, if there is one, is the flow the map
    gives for its name; every flow is stored under its own name; and
    [getAllFlows] holds no two flows of one name. *)
Theorem current_flow_is_registered ops :
  let ft := run init ops in
  (∀ f, getCurrentFlow ft = Some f → getFlow (name f) ft = Some f)
  ∧ (∀ n f, getFlow n ft = Some f → name f = n)
  ∧ NoDup (name <$> getAllFlows ft)
  ∧ (currentFlow ft = None ↔ getCurrentFlow ft = None).
Proof.
  intros ft. pose proof (run_wf ops init wf_init) as Hwf. fold ft in Hwf.
  pose proof Hwf as (Hnd & Hmap & Hcur). split_and!.
  - intros f Hf. unfold getCurrentFlow in Hf.
    destruct (currentFlow ft) as [a|] eqn:Ha; [|done]. simpl in Hf.
    destruct (Hcur a eq_refl) as (f' & Hf' & Hin).
    assert (f' = f) as -> by congruence.
    apply getFlow_elem; eauto.
  - intros n f (a & Hin & Hf)%getFlow_elem; [|done].
    destruct (Hmap n a Hin) as (f' & Hf' & Hname). congruence.
  - by rewrite getAllFlows_names.
  - unfold getCurrentFlow. split; [by intros ->|].
    destruct (currentFlow ft) as [a|] eqn:Ha; [|done]. simpl.
    destruct (Hcur a eq_refl) as (f & Hf & _). congruence.
Qed.

(** Looking a name up after a flow object was changed. *)
Lemma getFlow_alter (g : Flow → Flow) a cur n ft f :
  wf ft → objects ft !! a = Some f →
  getFlow n (mk (alter g a (objects ft)) (flows ft) cur)
  = if decide (JsMap.get n (flows ft) = Some a) then Some (g f) else getFlow n ft.
Proof.
  intros Hwf Hf. unfold getFlow. simpl.
  destruct (JsMap.get n (flows ft)) as [b|] eqn:Hget; simpl.
  - destruct (decide (Some b = Some a)) as [[= ->]|Hne].
    + by rewrite list_lookup_alter_eq, Hf.
    + apply list_lookup_alter_ne. congruence.
  - done.
Qed.

(** What [addStep] does to a tracker that satisfies the invariant. *)
Lemma addStep_spec s calls acts nowStart now ft :
  wf ft →
  let ft' := addStep s calls acts nowStart now ft in
  match getCurrentFlow ft with
  | Some f =>
      let step := mkStep (Recorder.or_else (name f) untitled) s now calls acts in
      let f' := mkFlow (name f) (steps f ++ [step]) (startTime f) (endTime f) in
      getCurrentFlow ft' = Some f' ∧ getFlow (name f) ft' = Some f'
      ∧ ∀ n, n ≠ name f → getFlow n ft' = getFlow n ft
  | None =>
      let f' := mkFlow untitled [mkStep untitled s now calls acts] nowStart None in
      getCurrentFlow ft' = Some f' ∧ getFlow untitled ft' = Some f'
      ∧ ∀ n, n ≠ untitled → getFlow n ft' = getFlow n ft
  end.
Proof.
  intros Hwf. pose proof Hwf as (Hnd & Hmap & Hcur).
  unfold addStep, getCurrentFlow.
  destruct (currentFlow ft) as [a|] eqn:Ha.
  - destruct (Hcur a eq_refl) as (f & Hf & Hin).
    simpl. rewrite !Ha. simpl. rewrite !Hf. simpl.
    assert (Hget : JsMap.get (name f) (flows ft) = Some a)
      by by apply JsMapFacts.elem_get.
    split_and!.
    + by rewrite list_lookup_alter_eq, Hf.
    + rewrite (getFlow_alter _ a _ _ ft f Hwf Hf). by rewrite decide_True.
    + intros n Hn. rewrite (getFlow_alter _ a _ _ ft f Hwf Hf).
      rewrite decide_False; [done|]. intros Hget'.
      apply JsMapFacts.get_Some_elem in Hget'.
      destruct (Hmap n a Hget') as (f0 & Hf0 & Hname). congruence.
  - set (ft1 := startFlow untitled nowStart ft).
    set (a := length (objects ft)).
    set (f0 := mkFlow untitled [] nowStart None).
    assert (Hwf1 : wf ft1) by by apply startFlow_wf.
    assert (Hc1 : currentFlow ft1 = Some a) by done.
    assert (Hf0 : objects ft1 !! a = Some f0).
    { subst ft1 a. unfold startFlow. simpl. by rewrite lookup_app_r, Nat.sub_diag. }
    assert (Hget0 : JsMap.get untitled (flows ft1) = Some a).
    { subst ft1. unfold startFlow. simpl. rewrite JsMapFacts.get_set.
      by rewrite decide_True. }
    assert (Hgetn : ∀ n, n ≠ untitled →
              JsMap.get n (flows ft1) = JsMap.get n (flows ft)).
    { intros n Hn. subst ft1. unfold startFlow. simpl. rewrite JsMapFacts.get_set.
      by rewrite decide_False. }
    assert (Hold : ∀ b fb, objects ft !! b = Some fb → objects ft1 !! b = Some fb).
    { intros b fb Hb. subst ft1. unfold startFlow. simpl.
      by apply lookup_app_l_Some. }
    clearbody ft1. rewrite !Hc1. simpl. rewrite !Hf0. simpl.
    split_and!.
    + by rewrite list_lookup_alter_eq, Hf0.
    + rewrite (getFlow_alter _ a _ _ ft1 f0 Hwf1 Hf0). by rewrite decide_True.
    + intros n Hn. rewrite (getFlow_alter _ a _ _ ft1 f0 Hwf1 Hf0).
      rewrite decide_False.
      * unfold getFlow. rewrite (Hgetn n Hn).
        destruct (JsMap.get n (flows ft)) as [b|] eqn:Hb; [|done]. simpl.
        apply JsMapFacts.get_Some_elem in Hb.
        destruct (Hmap n b Hb) as (fb & Hfb & _).
        rewrite Hfb. by apply Hold.
      * rewrite (Hgetn n Hn). intros Hb. apply JsMapFacts.get_Some_elem in Hb.
        destruct (Hmap n a Hb) as (fb & Hfb & _).
        apply lookup_lt_Some in Hfb. subst a. lia.
Qed.

(** X2. [addStep] on a tracker with a current flow appends the step to
    that flow and leaves the flows of the other names alone.  On a tracker
    with no current flow it starts a flow named [Untitled Flow] that holds
    this step only, and that flow takes the place of whatever the map held
    under that name before. *)
Theorem addStep_appends_or_starts_untitled ops s calls acts nowStart now :
  let ft := run init ops in
  let ft' := addStep s calls acts nowStart now ft in
  match getCurrentFlow ft with
  | Some f =>
      let step := mkStep (Recorder.or_else (name f) untitled) s now calls acts in
      let f' := mkFlow (name f) (steps f ++ [step]) (startTime f) (endTime f) in
      getCurrentFlow ft' = Some f' ∧ getFlow (name f) ft' = Some f'
      ∧ ∀ n, n ≠ name f → getFlow n ft' = getFlow n ft
  | None =>
      let f' := mkFlow untitled [mkStep untitled s now calls acts] nowStart None in
      getCurrentFlow ft' = Some f' ∧ getFlow untitled ft' = Some f'
      ∧ ∀ n, n ≠ untitled → getFlow n ft' = getFlow n ft
  end.
Proof.
  intros ft ft'. apply addStep_spec. apply run_wf, wf_init.
Qed.

(** X3. A flow that is not the current one is never changed again: no
    call gives it a step or an end time.  So as long as its name is not
    given to another flow, [getFlow] returns it as it was; in particular
    [startFlow] does not end the flow that was current, which stays
    without an end time for good. *)
Theorem closed_flow_is_frozen (ft : t) (a : nat) (ops : list Op) :
  a < length (objects ft) → currentFlow ft ≠ Some a →
  objects (run ft ops) !! a = objects ft !! a
  ∧ (∀ n, JsMap.get n (flows ft) = Some a →
          JsMap.get n (flows (run ft ops)) = Some a →
          getFlow n (run ft ops) = getFlow n ft).
Proof.
  intros Hlt Hcur. pose proof (run_frozen a ops ft Hlt Hcur) as Heq.
  split; [done|]. intros n Hn Hn'. unfold getFlow. rewrite Hn, Hn'. simpl. done.
Qed.

(** Flow [A] is started, then flow [B] without ending [A]: whatever
    follows (here two steps and two calls of [endFlow]), [A] keeps no step
    and no end time. *)
Lemma closed_flow_is_frozen_witness :
  let ft := run init [op_startFlow (Str.lit "A") 1; op_startFlow (Str.lit "B") 2] in
  let ops := [op_addStep (Str.lit "pay") [] [] 3 3; op_endFlow 4;
              op_addStep (Str.lit "more") [] [] 5 5; op_endFlow 6] in
  objects (run ft ops) !! 0 = Some (mkFlow (Str.lit "A") [] 1 None)
  ∧ getFlow (Str.lit "A") (run ft ops) = Some (mkFlow (Str.lit "A") [] 1 None).
Proof.
  intros ft ops.
  destruct (closed_flow_is_frozen ft 0 ops) as [Hobj Hget];
    [vm_compute; lia | done |].
  split; [by rewrite Hobj|]. by rewrite (Hget (Str.lit "A")).
Defined.

(** Two steps without a flow, an [endFlow] between them: the second step
    starts a new untitled flow, and the first step is no longer in the
    map. *)
Example untitled_flow_is_replaced :
  let ft := run init [op_addStep (Str.lit "one") [] [] 1 1; op_endFlow 2;
                      op_addStep (Str.lit "two") [] [] 3 3] in
  fs_step <$> from_option steps [] (getFlow untitled ft) = [Str.lit "two"]
  ∧ length (getAllFlows ft) = 1.
Proof. by vm_compute. Qed.

End FlowTrackerFacts.

(** ** The primary host of a list of calls *)

Module PrimaryFacts.
Import Capture Docs Notions.

Section WithPart.
Variable part : Str.t → option Str.t.

Lemma occurrences_snoc h hs x :
  occurrences h (hs ++ [x])
  = occurrences h hs + (if decide (x = h) then 1 else 0).
Proof.
  unfold occurrences. rewrite filter_app, length_app. f_equal.
  rewrite filter_cons, filter_nil. by destruct (decide (x = h)).
Qed.

Lemma occurrences_pos h hs : h ∈ hs ↔ 0 < occurrences h hs.
Proof.
  unfold occurrences. split.
  - intros Hin. assert (Hf : h ∈ filter (λ x, x = h) hs)
      by by apply list_elem_of_filter.
    destruct (filter _ hs); [by apply elem_of_nil in Hf | simpl; lia].
  - intros Hpos. destruct (filter (λ x, x = h) hs) as [|y l] eqn:Hf;
      [simpl in Hpos; lia|].
    assert (Hy : y ∈ filter (λ x, x = h) hs) by (rewrite Hf; left).
    apply list_elem_of_filter in Hy as [-> Hy]. done.
Qed.

Lemma tally_snoc calls c :
  tally part (calls ++ [c])
  = match part (url c) with
    | Some host =>
        JsMap.set host (default 0 (JsMap.get host (tally part calls)) + 1)
                  (tally part calls)
    | None => tally part calls
    end.
Proof. unfold tally. by rewrite foldl_app. Qed.

Lemma parts_snoc calls c :
  parts part (calls ++ [c]) = parts part calls ++ from_option (λ h, [h]) [] (part (url c)).
Proof.
  unfold parts. rewrite omap_app. by f_equal.
Qed.

(** What the first loop computes: the count of every host that occurs,
    the hosts in the order they first occur. *)
Lemma tally_spec calls :
  let m := tally part calls in
  let hs := parts part calls in
  NoDup (JsMap.keys m)
  ∧ (∀ h, JsMap.get h m
          = if decide (h ∈ hs) then Some (occurrences h hs) else None)
  ∧ (∀ l1 h l2 h', JsMap.keys m = l1 ++ h :: l2 → h' ∉ l1 → first_before hs h h').
Proof.
  induction calls as [|c calls IH] using rev_ind.
  - split_and!; [apply NoDup_nil_2 | done |].
    intros l1 h l2 h' Hk. by destruct l1.
  - destruct IH as (Hnd & Hget & Hord). cbv zeta.
    rewrite tally_snoc, parts_snoc.
    destruct (part (url c)) as [x|]; simpl; [|by rewrite app_nil_r].
    set (m := tally part calls) in *. set (hs := parts part calls) in *.
    assert (Hx : default 0 (JsMap.get x m) = occurrences x hs).
    { rewrite Hget. destruct (decide (x ∈ hs)) as [Hin|Hnin]; [done|]. simpl.
      destruct (occurrences x hs) eqn:Ho; [done|].
      exfalso. apply Hnin, occurrences_pos. lia. }
    assert (Hkeys : ∀ y, y ∈ JsMap.keys m ↔ y ∈ hs).
    { intros y. pose proof (JsMapFacts.get_None y m) as Hn. rewrite Hget in Hn.
      destruct (decide (y ∈ hs)) as [Hin|Hnin].
      - split; [done|]. intros _.
        destruct (decide (y ∈ JsMap.keys m)) as [|Hk]; [done|].
        by apply Hn in Hk.
      - split; [|done]. intros Hk. exfalso. by apply Hn. }
    split_and!.
    + by apply JsMapFacts.NoDup_set.
    + intros h. rewrite JsMapFacts.get_set, occurrences_snoc, Hx.
      destruct (decide (x = h)) as [->|Hne].
      * rewrite decide_True by (apply elem_of_app; right; left). done.
      * rewrite Hget, Nat.add_0_r.
        destruct (decide (h ∈ hs)) as [Hin|Hnin].
        -- rewrite decide_True by (apply elem_of_app; by left). done.
        -- rewrite decide_False; [done|].
           intros [?|?%list_elem_of_singleton]%elem_of_app; congruence.
    + intros l1 h l2 h' Hk Hh'. rewrite JsMapFacts.keys_set in Hk.
      assert (Hlift : first_before hs h h' → first_before (hs ++ [x]) h h').
      { intros (pre & post & -> & Hpre). exists pre, (post ++ [x]).
        split; [by rewrite <- app_assoc | done]. }
      destruct (decide (x ∈ JsMap.keys m)) as [Hin|Hnin]; [by eauto|].
      destruct l2 as [|y l2 _] using rev_ind.
      * apply app_inj_tail in Hk as [Hk ->].
        exists hs, []. split; [done|].
        intros Hh. apply Hh'. rewrite <- Hk. by apply Hkeys.
      * rewrite app_comm_cons, app_assoc in Hk.
        apply app_inj_tail in Hk as [Hk _]. eauto.
Qed.

Lemma top_snoc m e :
  top (m ++ [e]) = if ((top m).2 <? e.2)%nat then e else top m.
Proof. unfold top. by rewrite foldl_app. Qed.

(** What the second loop computes on a map of positive counts. *)
Lemma top_spec (m : JsMap.t nat) :
  NoDup (JsMap.keys m) → (∀ k n, (k, n) ∈ m → 0 < n) → m ≠ [] →
  top m ∈ m
  ∧ ∀ k n, (k, n) ∈ m →
      n ≤ (top m).2
      ∧ (k ≠ (top m).1 → n = (top m).2 →
         ∃ l1 l2, JsMap.keys m = l1 ++ (top m).1 :: l2 ∧ k ∉ l1).
Proof.
  unfold JsMap.keys.
  induction m as [|e m IH] using rev_ind; [done|]. intros Hnd Hpos _.
  rewrite fmap_app, NoDup_app in Hnd. destruct Hnd as (Hnd & Hfresh & _).
  rewrite top_snoc.
  destruct (decide (m = [])) as [->|Hne].
  - assert (He : 0 < e.2) by (destruct e as [k n]; apply (Hpos k n); left).
    simpl. destruct (0 <? e.2) eqn:Hlt; [|apply Nat.ltb_ge in Hlt; lia].
    split; [left|]. intros k n Hkn. apply list_elem_of_singleton in Hkn.
    subst e. simpl. split; [lia | done].
  - destruct IH as [Hin Hmax]; [done | | done |].
    { intros k n Hkn. apply (Hpos k n), elem_of_app. by left. }
    destruct (top m) as [w c] eqn:Htop. simpl in *.
    destruct (c <? e.2) eqn:Hlt.
    + apply Nat.ltb_lt in Hlt. split; [apply elem_of_app; right; left|].
      intros k n [Hkn | Hkn%list_elem_of_singleton]%elem_of_app.
      * destruct (Hmax k n Hkn) as [Hle _]. subst. split; [lia|]. intros _ Hn. lia.
      * subst e. simpl. split; [done | done].
    + apply Nat.ltb_ge in Hlt. split; [apply elem_of_app; by left|].
      intros k n [Hkn | Hkn%list_elem_of_singleton]%elem_of_app; [|subst e; simpl in *].
      * destruct (Hmax k n Hkn) as [Hle Htie]. split; [done|].
        intros Hk Hn. destruct (Htie Hk Hn) as (l1 & l2 & Hkeys & Hl1).
        exists l1, (l2 ++ [e.1]). split; [|done].
        rewrite fmap_app, Hkeys. simpl. by rewrite <- app_assoc.
      * split; [done|]. intros Hk Hn.
        assert (Hw : w ∈ m.*1) by (apply list_elem_of_fmap; by exists (w, c)).
        apply list_elem_of_split in Hw as (l1 & l2 & Hkeys).
        exists l1, (l2 ++ [k]). split.
        -- rewrite fmap_app, Hkeys. simpl. by rewrite <- app_assoc.
        -- intros Hl1. apply (Hfresh k); [|left].
           rewrite Hkeys. apply elem_of_app. by left.
Qed.

(** There is one winner at most. *)
Lemma most_frequent_unique hs h1 h2 :
  most_frequent hs h1 → most_frequent hs h2 → h1 = h2.
Proof.
  intros [_ H1] [_ H2]. destruct (decide (h1 = h2)) as [|Hne]; [done|].
  exfalso.
  destruct (H1 h2) as [Hle1 Hb1]. destruct (H2 h1) as [Hle2 Hb2].
  destruct Hb1 as (pre & post & Hhs & Hpre); [congruence | lia |].
  destruct Hb2 as (pre' & post' & Hhs' & Hpre'); [done | lia |].
  assert (Hl1 : hs !! length pre = Some h1)
    by (rewrite Hhs; by rewrite list_lookup_middle).
  assert (Hl2 : hs !! length pre' = Some h2)
    by (rewrite Hhs'; by rewrite list_lookup_middle).
  destruct (Nat.lt_trichotomy (length pre) (length pre')) as [Hlt | [Heq | Hgt]].
  - apply Hpre'. rewrite Hhs', lookup_app_l in Hl1 by done.
    by apply list_elem_of_lookup_2 in Hl1.
  - rewrite Heq in Hl1. congruence.
  - apply Hpre. rewrite Hhs, lookup_app_l in Hl2 by done.
    by apply list_elem_of_lookup_2 in Hl2.
Qed.

(** The winner of the two loops. *)
Lemma winner_spec calls :
  parts part calls ≠ [] →
  most_frequent (parts part calls) (top (tally part calls)).1.
Proof.
  intros Hne. destruct (tally_spec calls) as (Hnd & Hget & Hord).
  set (m := tally part calls) in *. set (hs := parts part calls) in *.
  assert (Hentry : ∀ k n, (k, n) ∈ m → k ∈ hs ∧ n = occurrences k hs).
  { intros k n Hkn. apply (JsMapFacts.elem_get _ _ _ Hnd) in Hkn.
    rewrite Hget in Hkn. destruct (decide (k ∈ hs)); [|done].
    split; [done | congruence]. }
  assert (Hm : m ≠ []).
  { destruct hs as [|h hs'] eqn:Hhs; [done|]. intros Hm.
    specialize (Hget h). rewrite Hm, decide_True in Hget by left. done. }
  destruct (top_spec m Hnd) as [Hin Hmax]; [|done|].
  { intros k n [Hk ->]%Hentry. by apply occurrences_pos. }
  destruct (top m) as [w c] eqn:Htop. simpl in *.
  destruct (Hentry w c Hin) as [Hw ->]. split; [done|].
  intros h'. destruct (decide (h' ∈ hs)) as [Hh'|Hh'].
  - assert (Hin' : (h', occurrences h' hs) ∈ m).
    { apply JsMapFacts.get_Some_elem. by rewrite Hget, decide_True. }
    destruct (Hmax _ _ Hin') as [Hle Htie]. split; [done|].
    intros Hne' Hocc. destruct (Htie Hne' Hocc) as (l1 & l2 & Hkeys & Hl1).
    by apply (Hord l1 w l2 h').
  - assert (Hz : occurrences h' hs = 0).
    { destruct (occurrences h' hs) eqn:Ho; [done|].
      exfalso. apply Hh', occurrences_pos. lia. }
    rewrite Hz. split; [lia|]. intros _ Hocc.
    apply occurrences_pos in Hw. lia.
Qed.

Lemma primary_spec calls :
  (∀ h, primary part calls = Some h ↔ h ≠ [] ∧ most_frequent (parts part calls) h)
  ∧ (primary part calls = None
     ↔ parts part calls = [] ∨ most_frequent (parts part calls) []).
Proof.
  unfold primary. destruct (decide (parts part calls = [])) as [Hnil|Hne].
  - assert (Hm : tally part calls = []).
    { destruct (tally_spec calls) as (_ & Hget & _).
      destruct (tally part calls) as [|[k n] m]; [done|].
      specialize (Hget k). rewrite Hnil, JsMapFacts.get_cons in Hget.
      simpl in Hget. by rewrite decide_True in Hget. }
    rewrite Hm. simpl. split.
    + intros h. split; [done|]. intros [_ [Hin _]]. rewrite Hnil in Hin.
      by apply elem_of_nil in Hin.
    + split; [by left | done].
  - pose proof (winner_spec calls Hne) as Hw.
    destruct (top (tally part calls)).1 as [|c w] eqn:Hwin; split.
    + intros h. split; [done|]. intros [Hh Hmf].
      by rewrite (most_frequent_unique _ _ _ Hmf Hw) in Hh.
    + split; [by right | done].
    + intros h. split.
      * intros [= <-]. done.
      * intros [_ Hmf]. by rewrite (most_frequent_unique _ _ _ Hmf Hw).
    + split; [done|]. intros [Hnil | Hmf]; [done|].
      by pose proof (most_frequent_unique _ _ _ Hmf Hw).
Qed.

End WithPart.

End PrimaryFacts.

(** ** Replacing and stripping runs of characters *)

Module TextFacts.
Import Text.

Lemma dropWhile_spec p s :
  ∃ pre, s = pre ++ dropWhile p s ∧ Forall (λ c, p c = true) pre.
Proof.
  induction s as [|c s (pre & Hs & Hpre)]; [by exists []|]. simpl.
  destruct (p c) eqn:Hc; [|by exists []].
  exists (c :: pre). split; [by rewrite Hs at 1 | by constructor].
Qed.

Lemma dropWhile_head p s c : head (dropWhile p s) = Some c → p c = false.
Proof.
  induction s as [|a s IH]; [done|]. simpl.
  destruct (p a) eqn:Ha; [done|]. by intros [= <-].
Qed.

Lemma dropWhile_nil p s : dropWhile p s = [] ↔ Forall (λ c, p c = true) s.
Proof.
  induction s as [|a s IH]; simpl; [by split|].
  destruct (p a) eqn:Ha.
  - rewrite IH. split; [by constructor | by inversion 1].
  - split; [done|]. inversion 1. congruence.
Qed.

Lemma head_reverse {A} (l : list A) : head (reverse l) = last l.
Proof.
  induction l as [|a l IH] using rev_ind; [done|].
  by rewrite reverse_app, last_snoc.
Qed.

Lemma head_app_ne {A} (l k : list A) : l ≠ [] → head (l ++ k) = head l.
Proof. by destruct l. Qed.

(** [strip] takes a run of the class off each end and leaves a text that
    neither starts nor ends with a character of the class. *)
Lemma strip_spec p s :
  ∃ pre post,
    s = pre ++ strip p s ++ post
    ∧ Forall (λ c, p c = true) pre ∧ Forall (λ c, p c = true) post
    ∧ (∀ c, head (strip p s) = Some c → p c = false)
    ∧ (∀ c, last (strip p s) = Some c → p c = false).
Proof.
  unfold strip. destruct (dropWhile_spec p s) as (pre & Hs & Hpre).
  set (t := dropWhile p s) in *.
  destruct (dropWhile_spec p (reverse t)) as (pre2 & Hr & Hpre2).
  set (u := dropWhile p (reverse t)) in *.
  assert (Ht : t = reverse u ++ reverse pre2).
  { apply (inj reverse). by rewrite reverse_app, !reverse_involutive. }
  exists pre, (reverse pre2). split_and!.
  - by rewrite <- Ht.
  - done.
  - by apply Forall_reverse.
  - intros c Hc. destruct (decide (reverse u = [])) as [Hu|Hu];
      [by rewrite Hu in Hc|].
    apply (dropWhile_head p s). fold t. rewrite Ht. by rewrite head_app_ne.
  - intros c Hc. apply (dropWhile_head p (reverse t)). fold u.
    by rewrite <- (reverse_involutive u), head_reverse.
Qed.

Lemma strip_nil p s : strip p s = [] ↔ Forall (λ c, p c = true) s.
Proof.
  destruct (strip_spec p s) as (pre & post & Hs & Hpre & Hpost & Hhead & _).
  split.
  - intros Hnil. rewrite Hs, Hnil. simpl. by apply Forall_app.
  - intros Hall. destruct (strip p s) as [|c r] eqn:Hstrip; [done|].
    exfalso. specialize (Hhead c eq_refl).
    rewrite Hs in Hall. apply Forall_app in Hall as [_ Hall].
    apply Forall_app in Hall as [Hall _]. inversion Hall. congruence.
Qed.

(** The output of [replace_runs] with a one-character substitute of the
    class: the characters outside the class are those of the input, every
    other character is the substitute, and no two substitutes are next to
    each other. *)
Lemma replace_runs_spec (cls : ascii → bool) (d : ascii) b s :
  cls d = true →
  let out := replace_runs cls [d] b s in
  Forall (λ c, cls c = false ∨ c = d) out
  ∧ filter (λ c, cls c = false) out = filter (λ c, cls c = false) s
  ∧ Str.includes [d; d] out = false
  ∧ (b = true → head out ≠ Some d).
Proof.
  intros Hd. revert b. induction s as [|c s IH]; intros b.
  { simpl. split_and!; [done | done | done | by intros _]. }
  cbn [replace_runs]. destruct (cls c) eqn:Hc.
  - destruct (IH true) as (Hall & Hfilter & Hinc & Hhead).
    specialize (Hhead eq_refl).
    rewrite (filter_cons_False _ c s) by congruence.
    destruct b; simpl.
    + split_and!; [done | done | done | by intros _].
    + split_and!.
      * constructor; [by right | done].
      * rewrite filter_cons_False by congruence. done.
      * rewrite decide_True by done. rewrite Hinc, orb_false_r.
        destruct (replace_runs cls [d] true s) as [|a r]; [done|].
        simpl. rewrite decide_False; [done|]. intros ->. by apply Hhead.
      * done.
  - destruct (IH false) as (Hall & Hfilter & Hinc & _). simpl.
    rewrite !filter_cons_True by done.
    split_and!.
    + constructor; [by left | done].
    + by rewrite Hfilter.
    + rewrite decide_False by (intros ->; congruence). by rewrite Hinc.
    + intros _ [= ->]. congruence.
Qed.

Lemma filter_none {A} (P : A → Prop) `{!∀ x, Decision (P x)} (l : list A) :
  filter P l = [] ↔ Forall (λ x, ¬ P x) l.
Proof.
  induction l as [|a l IH]; [by split|].
  destruct (decide (P a)) as [Ha|Ha].
  - rewrite filter_cons_True by done. split; [done|].
    inversion 1; subst. done.
  - rewrite filter_cons_False by done. rewrite IH. split.
    + by constructor.
    + by inversion 1.
Qed.

(** Part of a text without two dashes in a row has none either. *)
Lemma includes_infix p pre s post :
  Str.includes p (pre ++ s ++ post) = false → Str.includes p s = false.
Proof.
  intros Hf. destruct (Str.includes p s) eqn:Hs; [|done].
  apply StrFacts.includes_spec in Hs as (a & b & ->).
  assert (Ht : Str.includes p (pre ++ (a ++ p ++ b) ++ post) = true).
  { apply StrFacts.includes_spec. exists (pre ++ a), (b ++ post).
    by rewrite <- !app_assoc. }
  congruence.
Qed.

(** A map on characters that keeps the dash apart keeps a text free of
    double dashes. *)
Lemma includes_fmap (f : ascii → ascii) (d : ascii) s :
  (∀ c, f c = d ↔ c = d) →
  Str.includes [d; d] (f <$> s) = Str.includes [d; d] s.
Proof.
  intros Hf. induction s as [|a s IH]; [done|].
  cbn [fmap list_fmap Str.includes]. rewrite IH. f_equal.
  cbn [Str.startsWith].
  destruct (decide (d = f a)) as [Ha|Ha].
  - rewrite decide_True by (symmetry; by apply Hf).
    destruct s as [|a' s]; [done|]. cbn [fmap list_fmap].
    destruct (decide (d = f a')) as [Ha'|Ha'].
    + by rewrite decide_True by (symmetry; by apply Hf).
    + rewrite decide_False; [done|]. intros ->. apply Ha'. symmetry. by apply Hf.
  - rewrite decide_False; [done|]. intros ->. apply Ha. symmetry. by apply Hf.
Qed.

End TextFacts.

(** ** The files of the documents *)

Module DocsFacts.
Import Capture Docs Notions.

(** X4. [getPrimaryHost] returns the host that occurs most often among
    the calls whose URL parses, and of several such hosts the one that
    occurs first; it returns [null] when no URL parses and when that host
    is the empty text.  [getPrimaryOrigin] does the same with origins. *)
Theorem primary_host_is_most_frequent
    (parseURL : Url.parser) (originOf : Str.t → option Str.t)
    (calls : list CapturedCall) :
  let hosts := omap (λ c, Url.hostname <$> parseURL (url c)) calls in
  let origins := omap (λ c, originOf (url c)) calls in
  (∀ h, getPrimaryHost parseURL calls = Some h ↔ h ≠ [] ∧ most_frequent hosts h)
  ∧ (getPrimaryHost parseURL calls = None ↔ hosts = [] ∨ most_frequent hosts [])
  ∧ (∀ o, getPrimaryOrigin originOf calls = Some o
          ↔ o ≠ [] ∧ most_frequent origins o)
  ∧ (getPrimaryOrigin originOf calls = None
     ↔ origins = [] ∨ most_frequent origins []).
Proof.
  intros hosts origins.
  destruct (PrimaryFacts.primary_spec (λ u, Url.hostname <$> parseURL u) calls)
    as [Hh Hhn].
  destruct (PrimaryFacts.primary_spec originOf calls) as [Ho Hon].
  done.
Qed.

(** Two hosts with two calls each: the one seen first wins. *)
Example primary_host_tie :
  let call u := mkCall (Str.lit "GET") (Str.lit u) 200 ∅ ∅ None None 0 in
  getPrimaryHost Url.simple
    [call "https://b.x.com/1"; call "https://a.x.com/1"; call "not a url";
     call "https://a.x.com/2"; call "https://b.x.com/2"]
  = Some (Str.lit "b.x.com").
Proof. by vm_compute. Qed.

Lemma lower_char_dash c : Str.lower_char c = "-"%char ↔ c = "-"%char.
Proof.
  destruct c as [[] [] [] [] [] [] [] []]; vm_compute; split; congruence.
Qed.

Lemma lower_char_alnum c :
  Text.is_alnum c = true →
  Str.is_lower (Str.lower_char c) = true ∨ Text.is_digit (Str.lower_char c) = true.
Proof.
  destruct c as [[] [] [] [] [] [] [] []]; vm_compute; intros; (by left) || (by right) || done.
Qed.

Lemma is_alnum_lower c : Text.is_alnum (Str.lower_char c) = Text.is_alnum c.
Proof. by destruct c as [[] [] [] [] [] [] [] []]. Qed.

Ltac plain_char :=
  first [ left; left; reflexivity
        | left; right; left; reflexivity
        | left; right; right; reflexivity
        | right; reflexivity ].

(** X5. The slug made from a host holds small letters, digits and dashes
    only, neither starts nor ends with a dash and has no two dashes in a
    row; it is empty exactly when the host has no letter and no digit.  So
    the names of the two files hold no path separator. *)
Theorem slug_is_a_plain_file_name (apiHost : Str.t) :
  let s := slug apiHost in
  Forall slug_char s
  ∧ head s ≠ Some "-"%char
  ∧ last s ≠ Some "-"%char
  ∧ ¬ Str.contains (Str.lit "--") s
  ∧ (s = [] ↔ Forall (λ c, Text.is_alnum c ≠ true) apiHost)
  ∧ Forall (λ c, slug_char c ∨ c = "."%char) (mdName apiHost)
  ∧ Forall (λ c, slug_char c ∨ c = "."%char) (swaggerName apiHost).
Proof.
  intros s. subst s. unfold mdName, swaggerName, slug.
  set (cls := λ c, negb (Text.is_alnum c)).
  set (out := Text.replaceAll cls (Str.lit "-") apiHost).
  pose proof (TextFacts.replace_runs_spec cls "-"%char false apiHost eq_refl)
    as Hruns. cbv zeta in Hruns.
  change (Text.replace_runs cls ["-"%char] false apiHost) with out in Hruns.
  destruct Hruns as (Hall & Hfilter & Hinc & _).
  destruct (TextFacts.strip_spec is_dash out)
    as (pre & post & Hout & Hpre & Hpost & Hhead & Hlast).
  pose proof (TextFacts.strip_nil is_dash out) as Hstripnil.
  set (t := Text.strip is_dash out) in *. clearbody t.
  assert (Ht : Forall (λ c, Text.is_alnum c = true ∨ c = "-"%char) t).
  { rewrite Hout in Hall. apply Forall_app in Hall as [_ Hall].
    apply Forall_app in Hall as [Hall _].
    eapply Forall_impl; [exact Hall|]. intros c [Hc | ->]; [left | by right].
    subst cls. simpl in Hc. by apply negb_false_iff in Hc. }
  assert (Hslug : Forall slug_char (Str.toLowerCase t)).
  { unfold Str.toLowerCase. apply Forall_fmap.
    eapply Forall_impl; [exact Ht|]. intros c [Hc | ->]; simpl.
    - destruct (lower_char_alnum c Hc) as [Hl | Hd]; [by left | by right; left].
    - right; right. by apply lower_char_dash. }
  assert (Hplain : ∀ lit, Forall (λ c, slug_char c ∨ c = "."%char) (Str.lit lit) →
            Forall (λ c, slug_char c ∨ c = "."%char) (Str.toLowerCase t ++ Str.lit lit)).
  { intros lit Hlit. apply Forall_app. split; [|done].
    eapply Forall_impl; [exact Hslug|]. by left. }
  split_and!.
  - done.
  - unfold Str.toLowerCase.
    destruct t as [|c t']; [done|]. simpl. intros [= Hc].
    apply -> lower_char_dash in Hc.
    specialize (Hhead c eq_refl). by rewrite Hc in Hhead.
  - unfold Str.toLowerCase. rewrite fmap_last.
    destruct (last t) as [c|] eqn:Hc; [|done]. simpl.
    intros [= Hd]. apply -> lower_char_dash in Hd.
    specialize (Hlast c eq_refl). by rewrite Hd in Hlast.
  - rewrite <- StrFacts.includes_spec.
    unfold Str.toLowerCase.
    change (Str.lit "--") with ["-"%char; "-"%char].
    rewrite (TextFacts.includes_fmap Str.lower_char "-"%char t lower_char_dash).
    rewrite Hout in Hinc. apply TextFacts.includes_infix in Hinc.
    by rewrite Hinc.
  - unfold Str.toLowerCase.
    assert (Hnil : Str.lower_char <$> t = [] ↔ t = []).
    { split; [by destruct t | by intros ->]. }
    rewrite Hnil, Hstripnil.
    assert (Hmem : ∀ c, c ∈ out ∧ Text.is_alnum c = true
                        ↔ c ∈ apiHost ∧ Text.is_alnum c = true).
    { intros c.
      assert (Hcls : Text.is_alnum c = true → cls c = false)
        by (intros Ha; subst cls; simpl; by rewrite Ha).
      split; intros [Hc Ha]; (split; [|done]).
      - assert (Hin : c ∈ filter (λ c, cls c = false) out)
          by (apply list_elem_of_filter; auto).
        rewrite Hfilter in Hin. by apply list_elem_of_filter in Hin as [_ ?].
      - assert (Hin : c ∈ filter (λ c, cls c = false) apiHost)
          by (apply list_elem_of_filter; auto).
        rewrite <- Hfilter in Hin. by apply list_elem_of_filter in Hin as [_ ?]. }
    rewrite !Forall_forall. split.
    + intros Hd c Hc Ha. destruct (proj2 (Hmem c) (conj Hc Ha)) as [Hc' _].
      specialize (Hd c Hc'). unfold is_dash in Hd.
      apply bool_decide_eq_true in Hd. by subst c.
    + intros Hn c Hc.
      destruct (proj1 (Forall_forall _ _) Hall c Hc) as [Hc' | ->]; [|done].
      subst cls. simpl in Hc'. apply negb_false_iff in Hc'.
      destruct (proj1 (Hmem c) (conj Hc Hc')) as [Hin _]. by destruct (Hn c Hin).
  - apply Hplain. apply Forall_forall. intros c Hc.
    apply list_elem_of_In in Hc. simpl in Hc.
    repeat (destruct Hc as [<- | Hc]; [plain_char|]); done.
  - apply Hplain. apply Forall_forall. intros c Hc.
    apply list_elem_of_In in Hc. simpl in Hc.
    repeat (destruct Hc as [<- | Hc]; [plain_char|]); done.
Qed.

End DocsFacts.

(** ** The command line *)

Module CliFacts.
Import Capture Cli Notions.

(** [find] over the indexed arguments, from index [n] on. *)
Lemma find_indexed {A} (P : nat * A → bool) (l1 : list A) x (l2 : list A) n :
  (∀ i a, l1 !! i = Some a → P (n + i, a) = false) →
  P (n + length l1, x) = true →
  List.find P (imap (λ i, pair (n + i)) (l1 ++ x :: l2)) = Some (n + length l1, x).
Proof.
  revert n. induction l1 as [|a l1 IH]; intros n Hno Hx.
  - simpl in *. by rewrite Hx.
  - simpl. rewrite (Hno 0 a eq_refl).
    rewrite (imap_ext _ (λ i, pair (S n + i))) by (intros; f_equal/=; lia).
    rewrite IH.
    + f_equal. f_equal. simpl. lia.
    + intros i b Hb. replace (S n + i) with (n + S i) by lia. by apply Hno.
    + replace (S n + length l1) with (n + length (a :: l1)) by (simpl; lia). done.
Qed.

Lemma find_indexed_none {A} (P : nat * A → bool) (l : list A) n :
  (∀ i a, l !! i = Some a → P (n + i, a) = false) →
  List.find P (imap (λ i, pair (n + i)) l) = None.
Proof.
  revert n. induction l as [|a l IH]; intros n Hno; [done|].
  simpl. rewrite (Hno 0 a eq_refl).
  rewrite (imap_ext _ (λ i, pair (S n + i))) by (intros; f_equal/=; lia).
  apply IH. intros i b Hb. replace (S n + i) with (n + S i) by lia. by apply Hno.
Qed.

Lemma is_docs_flag_spec a :
  is_docs_flag a = true ↔ a = Str.lit "--docs-path" ∨ a = Str.lit "-d".
Proof.
  unfold is_docs_flag. rewrite orb_true_iff, !bool_decide_eq_true. done.
Qed.

Lemma keeps_spec seen a todo :
  keeps (seen ++ a :: todo) (length seen, a)
  ↔ is_docs_flag a || from_option is_docs_flag false (last seen) = false.
Proof.
  unfold keeps. cbn [fst snd].
  assert (Hprev : ∀ w, 0 < length seen
                       ∧ (seen ++ a :: todo) !! (length seen - 1) = Some w
                       ↔ last seen = Some w).
  { intros w. destruct seen as [|d seen' _] using rev_ind.
    - simpl. split; [intros [? _]; lia | done].
    - rewrite last_snoc, length_app. simpl.
      replace (length seen' + 1 - 1) with (length seen') by lia.
      rewrite <- app_assoc. simpl. rewrite list_lookup_middle by done.
      split; [by intros [_ ?] | intros ?; split; [lia | done]]. }
  rewrite orb_false_iff. split.
  - intros (Ha1 & Ha2 & Hp). split.
    + destruct (is_docs_flag a) eqn:Hk; [|done].
      apply is_docs_flag_spec in Hk as [|]; congruence.
    + destruct (last seen) as [w|] eqn:Hl; [|done]. simpl.
      destruct (is_docs_flag w) eqn:Hk; [|done]. exfalso. apply Hp.
      destruct (proj2 (Hprev w) eq_refl) as [? Hw]. split; [done|].
      rewrite Hw. apply is_docs_flag_spec in Hk as [-> | ->]; [by left | by right].
  - intros [Hk1 Hk2].
    assert (Hna : ¬ (a = Str.lit "--docs-path" ∨ a = Str.lit "-d")).
    { rewrite <- is_docs_flag_spec. congruence. }
    split_and!; [tauto | tauto |].
    intros [Hpos [Hw | Hw]].
    + rewrite (proj1 (Hprev _) (conj Hpos Hw)) in Hk2. done.
    + rewrite (proj1 (Hprev _) (conj Hpos Hw)) in Hk2. done.
Qed.

Lemma filteredArgs_from (seen todo : list Str.t) :
  (filter (keeps (seen ++ todo)) (imap (λ i, pair (length seen + i)) todo)).*2
  = kept (last seen) todo.
Proof.
  revert seen. induction todo as [|a todo IH]; intros seen; [done|].
  cbn [imap kept].
  rewrite (imap_ext _ (λ i, pair (length (seen ++ [a]) + i)))
    by (intros; rewrite length_app; f_equal/=; lia).
  specialize (IH (seen ++ [a])). rewrite <- app_assoc in IH.
  change ([a] ++ todo) with (a :: todo) in IH. rewrite last_snoc in IH.
  rewrite Nat.add_0_r.
  destruct (is_docs_flag a || from_option is_docs_flag false (last seen)) eqn:Hk.
  - rewrite filter_cons_False; [by rewrite IH|].
    rewrite keeps_spec. by rewrite Hk.
  - rewrite filter_cons_True; [by rewrite fmap_cons, IH|].
    by apply keeps_spec.
Qed.

Lemma filteredArgs_kept args : filteredArgs args = kept None args.
Proof. apply (filteredArgs_from [] args). Qed.

Lemma kept_plain prev l :
  Forall (λ a, is_docs_flag a = false) l →
  from_option is_docs_flag false prev = false →
  kept prev l = l.
Proof.
  intros Hl. revert prev. induction Hl as [|a l Ha _ IH]; intros prev Hp; [done|].
  simpl. rewrite Ha, Hp. simpl. f_equal. by apply IH.
Qed.

Lemma kept_app prev l1 l2 :
  kept prev (l1 ++ l2) = kept prev l1 ++ kept (from_option Some prev (last l1)) l2.
Proof.
  revert prev. induction l1 as [|a l1 IH]; intros prev; [done|].
  simpl. rewrite IH, <- app_assoc. do 2 f_equal.
  destruct l1 as [|b l1]; [done|]. rewrite last_cons_cons.
  destruct (last (b :: l1)) eqn:Hl; [done|]. by apply last_None in Hl.
Qed.

(** What is kept of a command line with one option. *)
Lemma kept_one_option cmd pre flag value post :
  is_docs_flag cmd = false → is_docs_flag flag = true → is_docs_flag value = false →
  Forall (λ a, is_docs_flag a = false) pre →
  Forall (λ a, is_docs_flag a = false) post →
  kept None (cmd :: pre ++ flag :: value :: post) = cmd :: pre ++ post.
Proof.
  intros Hc Hf Hv Hpre Hpost.
  change (cmd :: pre ++ flag :: value :: post)
    with ((cmd :: pre) ++ flag :: value :: post).
  rewrite kept_app, (kept_plain None (cmd :: pre)) by (by constructor || done).
  simpl. f_equal. f_equal. rewrite Hf, Hv. simpl.
  by apply kept_plain.
Qed.

Lemma docsPathIndex_one_option cmd pre flag value post :
  is_docs_flag cmd = false → is_docs_flag flag = true →
  Forall (λ a, is_docs_flag a = false) pre →
  docsPathIndex (cmd :: pre ++ flag :: value :: post) = Some (S (length pre)).
Proof.
  intros Hc Hf Hpre. unfold docsPathIndex.
  change (cmd :: pre ++ flag :: value :: post)
    with ((cmd :: pre) ++ flag :: value :: post).
  rewrite (imap_ext pair (λ i, pair (0 + i))) by done.
  rewrite find_indexed; [done | |].
  - intros i a Ha. simpl.
    assert (Hin : a ∈ cmd :: pre) by by apply list_elem_of_lookup_2 in Ha.
    apply elem_of_cons in Hin as [-> | Hin]; [by rewrite Hc|].
    by rewrite (proj1 (Forall_forall _ _) Hpre a Hin).
  - simpl. rewrite Hf. simpl. apply Nat.ltb_lt.
    rewrite length_app. simpl. lia.
Qed.

Section WithPlatform.
Variable parse : Str.t → option (Str.t * Url.t).
Variable isAbsolute : Str.t → bool.
Variable resolve : list Str.t → Str.t.
Variable cwd : Str.t.
Variable env : option Str.t.

(** X6. On [open], with the option [--docs-path] or [-d] and its value
    given once, before or after the URL, the value is the path of the
    documents ([docs] when it is empty), the option and its value are
    taken out of the arguments, and the URL is the first argument that is
    left after the command. *)
Theorem docs_path_option_is_taken_out (pre post : list Str.t) (flag value : Str.t) :
  is_docs_flag flag = true → is_docs_flag value = false →
  Forall (λ a, is_docs_flag a = false) pre →
  Forall (λ a, is_docs_flag a = false) post →
  let args := Str.lit "open" :: pre ++ flag :: value :: post in
  pathToResolve args env = (if decide (value = []) then Str.lit "docs" else value)
  ∧ filteredArgs args = Str.lit "open" :: pre ++ post
  ∧ main parse isAbsolute resolve cwd env args
    = match pre ++ post with
      | [] | [] :: _ => url_required
      | urlArg :: _ =>
          if isValidUrl parse (normalizeUrl urlArg)
          then agent_run (normalizeUrl urlArg)
                 (parseDocsPath isAbsolute resolve cwd env args)
          else invalid_url urlArg
      end.
Proof.
  intros Hf Hv Hpre Hpost args.
  assert (Hidx : docsPathIndex args = Some (S (length pre)))
    by by apply docsPathIndex_one_option.
  assert (Hkept : filteredArgs args = Str.lit "open" :: pre ++ post).
  { rewrite filteredArgs_kept. by apply kept_one_option. }
  split_and!.
  - unfold pathToResolve, rawPath. rewrite Hidx.
    replace (args !! (S (length pre) + 1)) with (Some value).
    + by destruct value.
    + subst args. simpl. rewrite Nat.add_1_r.
      change (flag :: value :: post) with ([flag] ++ value :: post).
      rewrite app_assoc. symmetry.
      rewrite <- (list_lookup_middle (pre ++ [flag]) post value (S (length pre)));
        [done|]. rewrite length_app. simpl. lia.
  - done.
  - unfold main. rewrite Hkept. subst args. cbn [lookup list_lookup].
    change (one_of ["help"; "--help"; "-h"] (Str.lit "open")) with false.
    change (one_of ["version"; "--version"; "-v"] (Str.lit "open")) with false.
    cbn match. rewrite bool_decide_eq_true_2 by done.
    destruct (pre ++ post) as [|[|c u] rest]; done.
Qed.

(** X7. [main] starts the agent only on a URL that begins with [http://]
    or [https://] and that the platform parses, with the protocol [http:]
    or [https:].  So on the URL of a run the platform's parser never
    throws, and [startCapture] returns. *)
Theorem agent_runs_on_a_valid_url (args : list Str.t) (url docsPath : Str.t) :
  main parse isAbsolute resolve cwd env args = agent_run url docsPath →
  args !! 0 = Some (Str.lit "open")
  ∧ (Str.startsWith (Str.lit "http://") url = true
     ∨ Str.startsWith (Str.lit "https://") url = true)
  ∧ isValidUrl parse url = true
  ∧ docsPath = parseDocsPath isAbsolute resolve cwd env args
  ∧ (∃ u, parseURL parse url = Some u)
  ∧ ∀ {S : Type} third (r : Recorder.t S),
      has_thrown (Recorder.startCapture (parseURL parse) url third r) = false.
Proof.
  unfold main. destruct (args !! 0) as [[|c command]|] eqn:Hcmd; [done| |done].
  destruct (one_of _ _); [done|]. destruct (one_of _ _); [done|].
  destruct (bool_decide _) eqn:Hopen.
  - apply bool_decide_eq_true in Hopen.
    destruct (filteredArgs args !! 1) as [[|c' urlArg]|]; [done| |done].
    destruct (isValidUrl parse _) eqn:Hvalid; [|done].
    intros [= <- <-].
    assert (Hparse : ∃ u, parseURL parse (normalizeUrl (c' :: urlArg)) = Some u).
    { unfold isValidUrl in Hvalid. unfold parseURL.
      destruct (parse _) as [[p u]|]; [by exists u | done]. }
    split_and!; [by rewrite Hopen | | done | done | done |].
    + unfold normalizeUrl.
      destruct (Str.startsWith (Str.lit "http://") (c' :: urlArg)) eqn:H1;
        [by left|].
      destruct (Str.startsWith (Str.lit "https://") (c' :: urlArg)) eqn:H2;
        [by right|].
      simpl. by right.
    + intros S third r. destruct Hparse as [u Hu].
      unfold Recorder.startCapture, Recorder.getBaseDomain. rewrite Hu.
      by destruct (_ <=? _)%nat.
  - destruct (bool_decide (c :: command = Str.lit "export")); [|intros; discriminate].
    destruct (args !! 1) as [format|]; [|done]. by destruct (one_of _ _).
Qed.

End WithPlatform.

(** [webdoc open example.com -d out] *)
Lemma docs_path_option_is_taken_out_witness :
  let args := Str.lit <$> ["open"; "example.com"; "-d"; "out"]%string in
  filteredArgs args = Str.lit <$> ["open"; "example.com"]%string
  ∧ main Platform.parse Platform.isAbsolute Platform.resolve Platform.cwd None args
    = agent_run (Str.lit "https://example.com") (Str.lit "/home/dev/out").
Proof.
  intros args.
  destruct (docs_path_option_is_taken_out Platform.parse Platform.isAbsolute
              Platform.resolve Platform.cwd None [Str.lit "example.com"] []
              (Str.lit "-d") (Str.lit "out"))
    as (_ & Hkept & Hmain); [done | done | by repeat constructor | done |].
  split; [exact Hkept|]. etrans; [exact Hmain | by vm_compute].
Defined.

(** [webdoc open -d out example.com] *)
Lemma agent_runs_on_a_valid_url_witness :
  let args := Str.lit <$> ["open"; "-d"; "out"; "example.com"]%string in
  let url := Str.lit "https://example.com" in
  main Platform.parse Platform.isAbsolute Platform.resolve Platform.cwd None args
  = agent_run url (Str.lit "/home/dev/out")
  ∧ isValidUrl Platform.parse url = true
  ∧ has_thrown (Recorder.startCapture (parseURL Platform.parse) url false
                  (Recorder.init (S := Session.t))) = false.
Proof.
  intros args url.
  assert (Hmain : main Platform.parse Platform.isAbsolute Platform.resolve
                    Platform.cwd None args
                  = agent_run url (Str.lit "/home/dev/out")) by (by vm_compute).
  destruct (agent_runs_on_a_valid_url Platform.parse Platform.isAbsolute
              Platform.resolve Platform.cwd None args url
              (Str.lit "/home/dev/out") Hmain)
    as (_ & _ & Hvalid & _ & _ & Hstart).
  split_and!; [exact Hmain | exact Hvalid | apply Hstart].
Defined.

(** An option in the last place has no value: it is passed over for the
    path and dropped from the arguments.  An option whose value is an
    option takes the argument after it away as well. *)
Example docs_path_option_edge_cases :
  let run := main Platform.parse Platform.isAbsolute Platform.resolve
               Platform.cwd None in
  run (Str.lit <$> ["open"; "example.com"; "-d"]%string)
  = agent_run (Str.lit "https://example.com") (Str.lit "/home/dev/docs")
  ∧ run (Str.lit <$> ["open"; "-d"; "-d"; "example.com"]%string) = url_required.
Proof. by vm_compute. Qed.

End CliFacts.

(** ** What the browser controller reads off a page *)

Module BrowserFacts.
Import Browser.

(** The first occurrences of a longer list start with those of the
    list. *)
Lemma first_occurrences_app {A} (key : A → Str.t) l1 l2 :
  ∃ more, Spec.first_occurrences key (l1 ++ l2)
          = Spec.first_occurrences key l1 ++ more.
Proof.
  induction l2 as [|c l2 [more IH]] using rev_ind.
  - exists []. by rewrite !app_nil_r.
  - rewrite app_assoc, SessionFacts.first_occurrences_snoc, IH.
    eexists. by rewrite <- app_assoc.
Qed.

Lemma first_occurrences_elem {A} (key : A → Str.t) l x :
  x ∈ Spec.first_occurrences key l → x ∈ l.
Proof.
  induction l as [|c l IH] using rev_ind; [done|].
  rewrite SessionFacts.first_occurrences_snoc.
  intros [Hin | Hin]%elem_of_app; apply elem_of_app; [left; by apply IH|].
  right. destruct (decide (key c ∈ key <$> l)); [by apply elem_of_nil in Hin | done].
Qed.

Lemma first_occurrences_keys {A} (key : A → Str.t) l :
  NoDup (key <$> Spec.first_occurrences key l)
  ∧ ∀ k, k ∈ key <$> Spec.first_occurrences key l ↔ k ∈ key <$> l.
Proof.
  induction l as [|c l [IHn IHk]] using rev_ind.
  - split; [constructor | done].
  - rewrite SessionFacts.first_occurrences_snoc, !fmap_app.
    destruct (decide (key c ∈ key <$> l)) as [Hin | Hin]; simpl.
    + rewrite app_nil_r. split; [done|]. intros k.
      rewrite elem_of_app, list_elem_of_singleton, IHk.
      split; [by left | by intros [? | ->]].
    + split.
      * apply NoDup_app. split_and!; [done | | apply NoDup_singleton].
        intros k Hk ->%list_elem_of_singleton. by apply Hin, IHk.
      * intros k. by rewrite !elem_of_app, IHk.
Qed.

Lemma NoDup_take' {A} (l : list A) n : NoDup l → NoDup (take n l).
Proof. intros Hnd. eapply sublist_NoDup; [done | apply sublist_take]. Qed.

Lemma length_take_bound {A} (l : list A) n : length (take n l) ≤ n.
Proof. rewrite length_take. lia. Qed.

(** What the loop returns, [pre] being the items it has gone through:
    the first occurrences of the items that are not passed over, cut at
    [max] (at one item when [max] is zero). *)
Lemma unique_upto_spec {A} (key : A → Str.t) (po : A → bool) max
    (pre items : list A) seen result :
  let kept l := Spec.first_occurrences key (filter (λ x, po x = false) l) in
  seen = list_to_set (key <$> filter (λ x, po x = false) pre) →
  result = kept pre →
  length result < Nat.max 1 max →
  unique_upto key po max items seen result
  = take (Nat.max 1 max) (kept (pre ++ items)).
Proof.
  intros kept. revert pre seen result.
  induction items as [|item rest IH]; intros pre seen result Hseen Hres Hlen.
  - simpl. rewrite app_nil_r, <- Hres. by rewrite take_ge by lia.
  - cbn [unique_upto].
    replace (pre ++ item :: rest) with ((pre ++ [item]) ++ rest)
      by by rewrite <- app_assoc.
    assert (Hkept : kept (pre ++ [item])
              = kept pre ++ (if po item || bool_decide (key item ∈ seen)
                             then [] else [item])).
    { subst kept. cbv beta. rewrite filter_app, filter_cons, filter_nil.
      destruct (decide (po item = false)) as [Hpo|Hpo].
      - rewrite Hpo. cbn [orb].
        rewrite SessionFacts.first_occurrences_snoc. f_equal.
        rewrite Hseen.
        destruct (decide (key item ∈ _)) as [Hin|Hin].
        + by rewrite bool_decide_eq_true_2 by by apply elem_of_list_to_set.
        + by rewrite bool_decide_eq_false_2 by by rewrite elem_of_list_to_set.
      - apply not_false_is_true in Hpo. rewrite Hpo. cbn [orb].
        by rewrite !app_nil_r. }
    destruct (po item || bool_decide (key item ∈ seen)) eqn:Hskip.
    + apply IH; [|by rewrite Hkept, app_nil_r | done].
      rewrite filter_app, filter_cons, filter_nil, fmap_app, list_to_set_app_L.
      rewrite <- Hseen. apply orb_true_iff in Hskip as [Hpo | Hin].
      * rewrite decide_False by congruence. simpl. by rewrite (right_id_L ∅ (∪)).
      * apply bool_decide_eq_true in Hin.
        destruct (decide (po item = false)); simpl;
          rewrite ?(right_id_L ∅ (∪)); [|done].
        apply set_eq. intros k. rewrite elem_of_union, elem_of_singleton.
        split; [by left | by intros [? | ->]].
    + apply orb_false_iff in Hskip as [Hpo Hin].
      destruct (max <=? length (result ++ [item])) eqn:Hmax.
      * apply Nat.leb_le in Hmax. rewrite length_app in Hmax. simpl in Hmax.
        destruct (first_occurrences_app key
                    (filter (λ x, po x = false) (pre ++ [item]))
                    (filter (λ x, po x = false) rest)) as [more Hmore].
        subst kept. cbv beta in *. rewrite filter_app, Hmore, Hkept, <- Hres.
        rewrite take_app_le by (rewrite length_app; simpl; lia).
        rewrite take_ge; [done|]. rewrite length_app. simpl. lia.
      * apply Nat.leb_gt in Hmax. apply IH.
        -- rewrite filter_app, filter_cons, filter_nil, fmap_app, list_to_set_app_L.
           rewrite <- Hseen, decide_True by done. simpl.
           by rewrite (right_id_L ∅ (∪)).
        -- by rewrite Hkept, Hres.
        -- lia.
Qed.

(** X8. [takeUnique] returns the texts of the list that are not empty,
    each once, in the order they first occur, cut at [max] texts (at one
    text when [max] is zero): no text twice, no empty text, nothing that
    was not in the list. *)
Theorem takeUnique_keeps_first_occurrences (items : list Str.t) (max : nat) :
  let distinct := Spec.first_occurrences id (filter (λ item, item ≠ []) items) in
  takeUnique items max = take (Nat.max 1 max) distinct
  ∧ NoDup (takeUnique items max)
  ∧ ([] ∉ takeUnique items max)
  ∧ (∀ item, item ∈ takeUnique items max → item ∈ items)
  ∧ length (takeUnique items max) ≤ Nat.max 1 max.
Proof.
  intros distinct.
  assert (Heq : takeUnique items max = take (Nat.max 1 max) distinct).
  { unfold takeUnique.
    rewrite (unique_upto_spec id _ max [] items ∅ []); [|done|done|simpl; lia].
    simpl. f_equal. subst distinct. f_equal.
    apply SessionFacts.filter_agree. intros x _.
    by rewrite bool_decide_eq_false. }
  assert (Hin : ∀ item, item ∈ takeUnique items max → item ≠ [] ∧ item ∈ items).
  { intros item Hitem. rewrite Heq in Hitem.
    apply elem_of_take in Hitem as (i & Hitem & _).
    apply list_elem_of_lookup_2, first_occurrences_elem in Hitem.
    by apply list_elem_of_filter in Hitem. }
  split_and!.
  - done.
  - rewrite Heq. apply NoDup_take'.
    destruct (first_occurrences_keys id (filter (λ item, item ≠ []) items))
      as [Hnd _].
    by rewrite list_fmap_id in Hnd.
  - intros Hnil. by destruct (Hin [] Hnil).
  - intros item Hitem. by destruct (Hin item Hitem).
  - rewrite Heq. apply length_take_bound.
Qed.


(** Two candidates that differ and have one key: the second is taken
    for a repeat of the first. *)
Example candidates_with_one_key :
  let c1 := Explore.mkCandidate (Str.lit "a:b") (Some []) Explore.link in
  let c2 := Explore.mkCandidate (Str.lit "a") (Some (Str.lit "b:")) Explore.link in
  c1 ≠ c2 ∧ uniqueCandidates [c1; c2] = [c1].
Proof. split; [done | by vm_compute]. Qed.

Lemma trimStart_dropWhile s : Str.trimStart s = Text.dropWhile Str.is_space s.
Proof. induction s as [|c s IH]; [done|]. simpl. by rewrite IH. Qed.

Lemma trim_strip s : Str.trim s = Text.strip Str.is_space s.
Proof. unfold Str.trim, Text.strip. by rewrite !trimStart_dropWhile. Qed.

(** A text that neither starts nor ends with white space is its own
    [trim]. *)
Lemma trim_fixed s :
  (∀ c, head s = Some c → Str.is_space c = false) →
  (∀ c, last s = Some c → Str.is_space c = false) →
  Str.trim s = s.
Proof.
  intros Hhead Hlast. rewrite trim_strip. unfold Text.strip.
  assert (Hdrop : ∀ t, (∀ c, head t = Some c → Str.is_space c = false) →
            Text.dropWhile Str.is_space t = t).
  { intros [|c t] Ht; [done|]. simpl. by rewrite (Ht c eq_refl). }
  rewrite (Hdrop s Hhead), Hdrop, reverse_involutive; [done|].
  intros c. rewrite TextFacts.head_reverse. apply Hlast.
Qed.

Lemma trim_trimmed s :
  (∀ c, head (Str.trim s) = Some c → Str.is_space c = false)
  ∧ (∀ c, last (Str.trim s) = Some c → Str.is_space c = false).
Proof.
  rewrite trim_strip.
  by destruct (TextFacts.strip_spec Str.is_space s) as (_ & _ & _ & _ & _ & ? & ?).
Qed.

(** X10. [clean] gives a text of [n] characters at most in which every
    white space is a single blank: no tab or line break, no two blanks in
    a row, no blank at the start, and none at the end unless the text was
    cut. *)
Theorem clean_normalises_white_space (n : nat) (text : option Str.t) :
  let out := clean n text in
  let whole := Str.trim (Text.replaceAll Str.is_space (Str.lit " ")
                           (default [] text)) in
  length out ≤ n
  ∧ Forall (λ c, Str.is_space c = true → c = " "%char) out
  ∧ ¬ Str.contains (Str.lit "  ") out
  ∧ head out ≠ Some " "%char
  ∧ (length whole ≤ n → out = whole ∧ last out ≠ Some " "%char).
Proof.
  intros out whole. subst out. unfold clean. fold whole.
  set (r := Text.replaceAll Str.is_space (Str.lit " ") (default [] text)) in *.
  pose proof (TextFacts.replace_runs_spec Str.is_space " "%char false
                (default [] text) eq_refl) as Hruns. cbv zeta in Hruns.
  change (Text.replace_runs Str.is_space [" "%char] false (default [] text))
    with r in Hruns.
  destruct Hruns as (Hall & _ & Hinc & _).
  destruct (trim_trimmed r) as [Hhead Hlast]. fold whole in Hhead, Hlast.
  assert (Hr : ∃ pre post, r = pre ++ whole ++ post).
  { subst whole. rewrite trim_strip.
    destruct (TextFacts.strip_spec Str.is_space r) as (pre & post & Hr & _).
    eauto. }
  destruct Hr as (pre & post & Hr). clearbody whole r.
  unfold Text.slice0. split_and!.
  - apply length_take_bound.
  - apply Forall_take. rewrite Hr in Hall.
    apply Forall_app in Hall as [_ Hall]. apply Forall_app in Hall as [Hall _].
    eapply Forall_impl; [exact Hall|]. intros c [Hc | ->] Hs; [congruence | done].
  - rewrite <- StrFacts.includes_spec.
    rewrite <- (take_drop n whole), <- app_assoc in Hr. rewrite Hr in Hinc.
    apply TextFacts.includes_infix in Hinc.
    change (Str.lit "  ") with [" "%char; " "%char]. by rewrite Hinc.
  - destruct n as [|n]; [done|]. destruct whole as [|c w]; [done|]. simpl.
    intros [= ->]. by specialize (Hhead _ eq_refl).
  - intros Hlen. rewrite take_ge by done. split; [done|].
    intros Hl. by specialize (Hlast _ Hl).
Qed.

(** A text cut right after a blank ends with it. *)
Example clean_cut_after_a_blank :
  clean 4 (Some (Str.lit "  abc   def ")) = Str.lit "abc ".
Proof. by vm_compute. Qed.

(** X11. The URL that [normalizeUrl] of the controller returns starts
    with [http://] or [https://], has no white space around it and is left
    as it is when normalised again; it is what [normalizeUrl] of the
    command line makes of the trimmed text, which has the same two
    properties short of the trimming. *)
Theorem normalizeUrl_gives_a_scheme (url : Str.t) :
  let u := normalizeUrl url in
  (Str.startsWith (Str.lit "http://") u = true
   ∨ Str.startsWith (Str.lit "https://") u = true)
  ∧ normalizeUrl u = u
  ∧ u = Cli.normalizeUrl (Str.trim url)
  ∧ (Str.startsWith (Str.lit "http://") (Cli.normalizeUrl url) = true
     ∨ Str.startsWith (Str.lit "https://") (Cli.normalizeUrl url) = true)
  ∧ Cli.normalizeUrl (Cli.normalizeUrl url) = Cli.normalizeUrl url.
Proof.
  assert (Hcli : ∀ s,
    (Str.startsWith (Str.lit "http://") (Cli.normalizeUrl s) = true
     ∨ Str.startsWith (Str.lit "https://") (Cli.normalizeUrl s) = true)
    ∧ Cli.normalizeUrl (Cli.normalizeUrl s) = Cli.normalizeUrl s).
  { assert (Hfix : ∀ t, Str.startsWith (Str.lit "http://") t = true
                        ∨ Str.startsWith (Str.lit "https://") t = true →
                        Cli.normalizeUrl t = t).
    { intros t [H | H]; unfold Cli.normalizeUrl; rewrite H;
        [done | by rewrite andb_false_r]. }
    assert (Hpre : ∀ s, Str.startsWith (Str.lit "http://") (Cli.normalizeUrl s) = true
                        ∨ Str.startsWith (Str.lit "https://") (Cli.normalizeUrl s) = true).
    { intros s. unfold Cli.normalizeUrl.
      destruct (Str.startsWith (Str.lit "http://") s) eqn:H1; cbn [negb andb];
        [by left|].
      destruct (Str.startsWith (Str.lit "https://") s) eqn:H2; cbn [negb andb];
        [by right|].
      right. apply StrFacts.startsWith_spec. by eexists. }
    intros s. split; [apply Hpre | apply Hfix, Hpre]. }
  assert (Heq : normalizeUrl url = Cli.normalizeUrl (Str.trim url)).
  { unfold normalizeUrl, Cli.normalizeUrl.
    by destruct (Str.startsWith _ _), (Str.startsWith _ _). }
  intros u. subst u. destruct (Hcli (Str.trim url)) as [Hs Hi].
  destruct (Hcli url) as [Hs' Hi'].
  split_and!; [by rewrite Heq | | done | done | done].
  assert (Htrim : Str.trim (normalizeUrl url) = normalizeUrl url).
  { destruct (trim_trimmed url) as [Hhead Hlast].
    rewrite Heq. unfold Cli.normalizeUrl.
    destruct (negb _ && negb _); [|by apply trim_fixed].
    apply trim_fixed; [by intros c [= <-]|].
    intros c. destruct (Str.trim url) as [|a t] using rev_ind.
    - by intros [= <-].
    - rewrite app_assoc, last_snoc. intros [= <-]. apply Hlast.
      by rewrite last_snoc. }
  unfold normalizeUrl at 1. rewrite Htrim. rewrite <- Heq in Hs.
  destruct Hs as [-> | ->]; [done | by rewrite orb_true_r].
Qed.

(** The test of the scheme minds the case of the letters. *)
Example normalizeUrl_upper_case_scheme :
  normalizeUrl (Str.lit " HTTP://x.com ") = Str.lit "https://HTTP://x.com".
Proof. by vm_compute. Qed.

End BrowserFacts.

(** ** The order of visit *)

Module OrderFacts.
Import Explore Notions.

Lemma find_ext {A} (P Q : A → bool) l :
  (∀ x, x ∈ l → P x = Q x) → List.find P l = List.find Q l.
Proof.
  induction l as [|a l IH]; intros H; [done|]. simpl.
  rewrite (H a) by left. destruct (Q a); [done|].
  apply IH. intros x Hx. apply H. by right.
Qed.

Lemma find_all_false {A} (P : A → bool) l :
  (∀ x, x ∈ l → P x = false) → List.find P l = None.
Proof.
  induction l as [|a l IH]; intros H; [done|]. simpl.
  rewrite (H a) by left. apply IH. intros x Hx. apply H. by right.
Qed.

Lemma pick_Some candidates k c :
  pick candidates k = Some c → c ∈ candidates ∧ key c = k.
Proof.
  unfold pick. intros H. apply find_some in H as [Hin Hk].
  apply bool_decide_eq_true in Hk. split; [by apply list_elem_of_In | done].
Qed.

Lemma pick_is_Some candidates k :
  k ∈ key <$> candidates → is_Some (pick candidates k).
Proof.
  intros (c & -> & Hc)%list_elem_of_fmap. unfold pick.
  destruct (List.find _ candidates) eqn:Hf; [done|].
  apply list_elem_of_In in Hc.
  exfalso. eapply List.find_none in Hf; [|exact Hc].
  by apply bool_decide_eq_false in Hf.
Qed.

Lemma pick_None candidates k :
  k ∉ key <$> candidates → pick candidates k = None.
Proof.
  intros Hk. apply find_all_false. intros c Hc.
  apply bool_decide_eq_false. intros <-. apply Hk, list_elem_of_fmap. by exists c.
Qed.

Lemma pick_app l c k :
  pick (l ++ [c]) k
  = match pick l k with
    | Some y => Some y
    | None => if decide (key c = k) then Some c else None
    end.
Proof.
  unfold pick. induction l as [|a l IH]; simpl.
  - rewrite bool_decide_decide. by destruct (decide (key c = k)).
  - by destruct (bool_decide (key a = k)).
Qed.

(** A candidate is among the first occurrences when it is the first
    candidate with its key. *)
Lemma first_occurrences_pick l x :
  x ∈ Spec.first_occurrences key l ↔ pick l (key x) = Some x.
Proof.
  induction l as [|c l IH] using rev_ind.
  - split; [by intros ?%elem_of_nil | done].
  - rewrite SessionFacts.first_occurrences_snoc, elem_of_app, IH, pick_app.
    destruct (decide (key c ∈ key <$> l)) as [Hin | Hin].
    + destruct (pick_is_Some l (key c) Hin) as [y Hy].
      split.
      * intros [-> | []%elem_of_nil]. done.
      * destruct (pick l (key x)) as [z|] eqn:Hz; [by left|].
        destruct (decide (key c = key x)) as [Hk|]; [|done].
        rewrite Hk in Hy. congruence.
    + rewrite list_elem_of_singleton. split.
      * intros [-> | ->]; [done|].
        rewrite pick_None by done. by rewrite decide_True.
      * destruct (pick l (key x)) as [z|] eqn:Hz; [by left|].
        destruct (decide (key c = key x)); [|done]. intros [= ->]. by right.
Qed.

(** Phase 1, first loop: the candidates the plan names, in the order of
    the plan. *)
Lemma planned_spec candidates pps :
  let ks := Spec.first_occurrences id
              (filter (λ k, k ∈ key <$> candidates)
                      ((λ pp, Str.toLowerCase (pp_label pp)) <$> pps)) in
  foldl (place_planned candidates) ([], ∅) pps
  = (omap (pick candidates) ks, list_to_set ks).
Proof.
  induction pps as [|pp pps IH] using rev_ind; [done|].
  cbv zeta in *. rewrite foldl_app, IH. cbn [foldl].
  rewrite fmap_app, filter_app. cbn [fmap list_fmap].
  set (k := Str.toLowerCase (pp_label pp)).
  set (prev := filter (λ k, k ∈ key <$> candidates)
                 ((λ pp, Str.toLowerCase (pp_label pp)) <$> pps)) in *.
  set (ks := Spec.first_occurrences id prev) in *.
  assert (Hks : ∀ k', k' ∈ ks ↔ k' ∈ prev).
  { intros k'. destruct (BrowserFacts.first_occurrences_keys id prev) as [_ Hk].
    specialize (Hk k'). by rewrite !list_fmap_id in Hk. }
  unfold place_planned. fold k.
  destruct (decide (k ∈ key <$> candidates)) as [Hhas | Hhas].
  - rewrite filter_cons_True, filter_nil by done.
    rewrite SessionFacts.first_occurrences_snoc, list_fmap_id. cbn [id].
    destruct (decide (k ∈ prev)) as [Hin | Hin].
    + rewrite app_nil_r. fold ks.
      rewrite find_all_false; [done|]. intros c Hc.
      destruct (decide (key c = k)) as [Hk | Hk].
      * rewrite (bool_decide_eq_false_2 (key c ∉ _)); [by rewrite andb_false_r|].
        intros Hn. apply Hn. rewrite Hk, elem_of_list_to_set. by apply Hks.
      * by rewrite (bool_decide_eq_false_2 (key c = k)).
    + fold ks. destruct (pick_is_Some candidates k Hhas) as [c Hc].
      rewrite (find_ext _ (λ c, bool_decide (key c = k))).
      * fold (pick candidates k). rewrite Hc.
        destruct (pick_Some _ _ _ Hc) as [_ Hk]. rewrite Hk.
        rewrite omap_app, list_to_set_app_L. simpl. rewrite Hc.
        by rewrite (right_id_L ∅ (∪)).
      * intros x _. destruct (decide (key x = k)) as [Hk | Hk].
        -- rewrite (bool_decide_eq_true_2 (key x ∉ _)); [by rewrite andb_true_r|].
           rewrite Hk, elem_of_list_to_set. by rewrite Hks.
        -- by rewrite (bool_decide_eq_false_2 (key x = k)).
  - rewrite filter_cons_False, filter_nil, app_nil_r by done. fold ks.
    rewrite find_all_false; [done|]. intros c Hc.
    rewrite (bool_decide_eq_false_2 (key c = k)); [done|].
    intros Hk. apply Hhas, list_elem_of_fmap. by exists c.
Qed.

(** Phase 1, second loop: the candidates left, in the order of the
    page. *)
Lemma rest_spec (planned : list Candidate) (used : gset Str.t) cs :
  foldl place_rest (planned, used) cs
  = (planned ++ filter (λ c, key c ∉ used) (Spec.first_occurrences key cs),
     used ∪ list_to_set (key <$> cs)).
Proof.
  induction cs as [|c cs IH] using rev_ind.
  - simpl. by rewrite app_nil_r, (right_id_L ∅ (∪)).
  - rewrite foldl_app, IH. cbn [foldl]. unfold place_rest.
    rewrite SessionFacts.first_occurrences_snoc, filter_app, fmap_app,
      list_to_set_app_L. simpl. rewrite (right_id_L ∅ (∪)).
    destruct (decide (key c ∈ used ∪ list_to_set (key <$> cs))) as [Hin | Hin].
    + f_equal.
      * f_equal. apply elem_of_union in Hin as [Hin | Hin].
        -- destruct (decide (key c ∈ key <$> cs)); [by rewrite app_nil_r|].
           rewrite filter_cons_False, filter_nil by tauto. by rewrite app_nil_r.
        -- apply elem_of_list_to_set in Hin. rewrite decide_True by done.
           by rewrite app_nil_r.
      * apply set_eq. intros k'. rewrite !elem_of_union, elem_of_singleton.
        split; [tauto|]. intros [? | [? | ->]]; [tauto | tauto |].
        by apply elem_of_union in Hin.
    + apply not_elem_of_union in Hin as [Hu Hc].
      rewrite elem_of_list_to_set in Hc. rewrite decide_False by done.
      rewrite filter_cons_True, filter_nil by done.
      by rewrite app_assoc, (assoc_L (∪)).
Qed.

(** The order of visit in closed form. *)
Lemma orderedCandidates_spec candidates plan :
  orderedCandidates candidates plan
  = omap (pick candidates) (planned_keys candidates plan)
    ++ filter (λ c, key c ∉ planned_keys candidates plan)
              (Spec.first_occurrences key candidates).
Proof.
  unfold orderedCandidates, planned_keys, plan_keys.
  pose proof (planned_spec candidates (priorityOrder plan)) as Hp.
  cbv zeta in Hp. rewrite Hp, rest_spec. cbn [fst]. f_equal.
  apply SessionFacts.filter_agree. intros c _. by rewrite elem_of_list_to_set.
Qed.

Lemma planned_keys_spec candidates plan :
  NoDup (planned_keys candidates plan)
  ∧ ∀ k, k ∈ planned_keys candidates plan
         ↔ k ∈ plan_keys plan ∧ k ∈ key <$> candidates.
Proof.
  unfold planned_keys.
  destruct (BrowserFacts.first_occurrences_keys id
              (filter (λ k, k ∈ key <$> candidates) (plan_keys plan))) as [Hn Hk].
  rewrite !list_fmap_id in *. split; [done|]. intros k.
  rewrite Hk, list_elem_of_filter. tauto.
Qed.

(** The candidates of the plan have the planned keys, in their order. *)
Lemma planned_candidates_keys (candidates : list Candidate) (ks : list Str.t) :
  (∀ k, k ∈ ks → k ∈ key <$> candidates) →
  key <$> omap (pick candidates) ks = ks.
Proof.
  induction ks as [|k ks IH]; intros Hks; [done|]. simpl.
  destruct (pick_is_Some candidates k) as [c Hc]; [apply Hks; left|].
  rewrite Hc. destruct (pick_Some _ _ _ Hc) as [_ Hk]. simpl.
  f_equal; [done|]. apply IH. intros k' Hk'. apply Hks. by right.
Qed.

Lemma orderedCandidates_keys candidates plan :
  NoDup (key <$> orderedCandidates candidates plan)
  ∧ orderedCandidates candidates plan ≡ₚ Spec.first_occurrences key candidates.
Proof.
  destruct (planned_keys_spec candidates plan) as [Hnd Hks].
  destruct (BrowserFacts.first_occurrences_keys key candidates) as [Hfn Hfk].
  assert (Hfirsts : NoDup (Spec.first_occurrences key candidates))
    by (by apply NoDup_fmap_1 in Hfn).
  assert (Hkeys : key <$> omap (pick candidates) (planned_keys candidates plan)
                  = planned_keys candidates plan).
  { apply planned_candidates_keys. intros k Hk. by apply Hks in Hk as [_ ?]. }
  assert (Hperm : orderedCandidates candidates plan
                  ≡ₚ Spec.first_occurrences key candidates).
  { rewrite orderedCandidates_spec.
    assert (Hplanned : omap (pick candidates) (planned_keys candidates plan)
                       ≡ₚ filter (λ c, key c ∈ planned_keys candidates plan)
                            (Spec.first_occurrences key candidates)).
    { apply NoDup_Permutation.
      - apply (NoDup_fmap_1 key). by rewrite Hkeys.
      - by apply NoDup_filter.
      - intros c. rewrite list_elem_of_omap, list_elem_of_filter.
        rewrite first_occurrences_pick. split.
        + intros (k & Hk & Hc). destruct (pick_Some _ _ _ Hc) as [_ <-]. done.
        + intros [Hk Hc]. by exists (key c). }
    rewrite Hplanned.
    apply (filter_app_complement (λ c, key c ∈ planned_keys candidates plan)). }
  split; [by rewrite Hperm | done].
Qed.


(** A plan that names [Settings] twice and a page the candidates do not
    have: the plan decides the head of the order, the page the rest. *)
Example order_of_visit_sample :
  let page (l : string) := mkCandidate (Str.lit l) None button in
  key <$> orderedCandidates
            [page "Home"; page "Users"; page "home"; page "Settings"; page "Billing"]
            (mkPlan [mkPage (Str.lit "billing") prio_low;
                     mkPage (Str.lit "SETTINGS") prio_high;
                     mkPage (Str.lit "Reports") prio_high;
                     mkPage (Str.lit "Users") prio_medium;
                     mkPage (Str.lit "settings") prio_low] [])
  = Str.lit <$> ["settings"; "users"; "billing"; "home"]%string.
Proof. by vm_compute. Qed.

End OrderFacts.

(** ** The visits of an exploration *)

Module LoopFacts.
Import Explore Notions Inv.

Section WithUrl.
Variable parseURL : Url.parser.
Variable url baseUrl : Str.t.
Variable env : Env.
Variable skipLabels : gset Str.t.

(** What one turn of the loop does to the browser and to the names it
    returns.  A turn that goes on either left the candidate alone or made
    the round trip; a turn that ends the run either waits for the answer
    about a risky candidate or broke off after the navigation, before the
    page was recorded or on the way back. *)
Lemma turn_trace i c st :
  let tried :=
    cleared parseURL url env skipLabels i c
    ∧ ∀ h, href_of c = Some h → h ∉ visited st in
  match turn parseURL url baseUrl env skipLabels i c st with
  | Next st' =>
      (actions st' = actions st
       ∧ pagesExploredNames st' = pagesExploredNames st)
      ∨ (tried
         ∧ actions st' = actions st ++ round_trip baseUrl (c, navigates env i c)
         ∧ pagesExploredNames st'
           = pagesExploredNames st ++ (if navigates env i c then [label c] else []))
  | End stalled st' =>
      actions st' = actions st
      ∧ pagesExploredNames st' = pagesExploredNames st
  | End aborted st' =>
      tried
      ∧ navigates env i c = true
      ∧ ((completes env i c = false
          ∧ actions st' = actions st ++ [navigation c true]
          ∧ pagesExploredNames st' = pagesExploredNames st)
         ∨ (completes env i c = true ∧ returns env i c = false
            ∧ actions st'
              = actions st ++ [navigation c true; goBackOrNavigate baseUrl false]
            ∧ pagesExploredNames st' = pagesExploredNames st ++ [label c]))
  | End finished _ => False
  end.
Proof.
  intros tried. unfold turn.
  destruct (isUnsafeLabel (label c)) eqn:Hu; [by left|].
  destruct (bool_decide (key c ∈ skipLabels)
            && negb (isRiskyNavigation parseURL url c)) eqn:Hskip; [by left|].
  destruct (from_option _ false (href_of c)) eqn:Hseen; [by left|].
  assert (Hfresh : ∀ h, href_of c = Some h → h ∉ visited st).
  { intros h Hh. rewrite Hh in Hseen. simpl in Hseen.
    by apply bool_decide_eq_false in Hseen. }
  assert (Hlisted : key c ∈ skipLabels → isRiskyNavigation parseURL url c = true).
  { intros Hin. apply andb_false_iff in Hskip as [Hk | Hr].
    - by apply bool_decide_eq_false in Hk.
    - by apply negb_false_iff in Hr. }
  assert (Hnav : ∀ st0,
    actions st0 = actions st → pagesExploredNames st0 = pagesExploredNames st →
    tried →
    match navigate baseUrl env i c st0 with
    | Next st' =>
        tried
        ∧ actions st' = actions st ++ round_trip baseUrl (c, navigates env i c)
        ∧ pagesExploredNames st'
          = pagesExploredNames st ++ (if navigates env i c then [label c] else [])
    | End aborted st' =>
        tried ∧ navigates env i c = true
        ∧ ((completes env i c = false
            ∧ actions st' = actions st ++ [navigation c true]
            ∧ pagesExploredNames st' = pagesExploredNames st)
           ∨ (completes env i c = true ∧ returns env i c = false
              ∧ actions st'
                = actions st ++ [navigation c true; goBackOrNavigate baseUrl false]
              ∧ pagesExploredNames st' = pagesExploredNames st ++ [label c]))
    | End _ _ => False
    end).
  { intros st0 Ha Hn Ht. unfold navigate, round_trip.
    destruct (navigates env i c); simpl.
    - destruct (href_of c) as [h|]; destruct (completes env i c);
        destruct (returns env i c); simpl;
        rewrite ?Ha, ?Hn, <- ?app_assoc; simpl;
        first [ done
              | split_and!; [done | done | right; by split_and!]
              | split_and!; [done | done | left; by split_and!] ].
    - by rewrite Ha, Hn, app_nil_r. }
  destruct (isRiskyNavigation parseURL url c) eqn:Hrisky.
  - destruct (decides env i c) as [d|] eqn:Hd; [|done].
    destruct (decide (d ≠ Agent.act_yes)) as [|Hyes]; [by left|].
    assert (d = Agent.act_yes) as -> by (by destruct (decide (d = Agent.act_yes))).
    assert (Ht : tried).
    { split; [split|done]; intros; first [done | congruence | auto]. }
    match goal with
    | |- context [navigate _ _ _ _ ?s] => specialize (Hnav s eq_refl eq_refl Ht)
    end.
    destruct (navigate _ _ _ _ _) as [st' | [] st']; cbv beta iota in *;
      [by right | done.. ].
  - assert (Ht : tried).
    { split; [split|done]; intros H; try apply Hlisted in H; first [done | congruence]. }
    match goal with
    | |- context [navigate _ _ _ _ ?s] => specialize (Hnav s eq_refl eq_refl Ht)
    end.
    destruct (navigate _ _ _ _ _) as [st' | [] st']; cbv beta iota in *;
      [by right | done.. ].
Qed.

Lemma attempts_app st st' more :
  actions st' = actions st ++ more →
  attempts st' = attempts st ++ omap attempt_of more.
Proof. unfold attempts. intros ->. by rewrite omap_app. Qed.

Lemma attempts_same st st' : actions st' = actions st → attempts st' = attempts st.
Proof. unfold attempts. by intros ->. Qed.

Lemma visits_same st st' : actions st' = actions st → visits st' = visits st.
Proof. unfold visits. by intros ->%attempts_same. Qed.

Lemma attempt_of_round_trip a : omap attempt_of (round_trip baseUrl a) = [a].
Proof. by destruct a as [c []]. Qed.

(** The candidates a run tries, each with its place in the order of
    visit: they are taken from the candidates in their order, each was
    cleared, and no link is opened twice. *)
Lemma visit_tries cs i st :
  tidy st → NoDup (omap href_of (visits st)) →
  let st' := (visit parseURL url baseUrl env skipLabels i cs st).2 in
  ∃ tries : list (nat * Candidate),
    tries.*2 `sublist_of` cs
    ∧ Forall (λ ic, i ≤ ic.1 ∧ cs !! (ic.1 - i) = Some ic.2
                    ∧ cleared parseURL url env skipLabels ic.1 ic.2) tries
    ∧ attempts st' = attempts st ++ ((λ ic, (ic.2, navigates env ic.1 ic.2)) <$> tries)
    ∧ NoDup (omap href_of (visits st')).
Proof.
  revert i st. induction cs as [|c cs IH]; intros i st Ht Hnd; cbn [visit].
  { exists []. simpl. by rewrite app_nil_r. }
  destruct (8 <=? explored st).
  { exists []. simpl. rewrite app_nil_r. split_and!; [apply sublist_nil_l|done..]. }
  pose proof (ExploreFacts.turn_tidy parseURL url baseUrl env skipLabels i c st Ht)
    as [Ht' _].
  pose proof (turn_trace i c st) as Htr. cbv zeta in Htr.
  assert (Hstep : ∀ st1 ok,
            (cleared parseURL url env skipLabels i c
             ∧ ∀ h, href_of c = Some h → h ∉ visited st) →
            attempts st1 = attempts st ++ [(c, ok)] →
            NoDup (omap href_of (visits st1))).
  { intros st1 ok [_ Hfresh] Ha.
    rewrite (ExploreFacts.visits_snoc st st1 c ok Ha), omap_app.
    destruct ok; simpl; [|by rewrite app_nil_r].
    destruct (href_of c) as [h|] eqn:Hh; simpl; [|by rewrite app_nil_r].
    apply NoDup_app. split_and!; [done | | apply NoDup_singleton].
    intros h' Hin Heq%list_elem_of_singleton. subst h'. apply (Hfresh h eq_refl).
    destruct Ht as (_ & _ & ->). by apply elem_of_list_to_set. }
  assert (Hone : ∀ rest : list (nat * Candidate),
            rest.*2 `sublist_of` cs →
            Forall (λ ic, Datatypes.S i ≤ ic.1 ∧ cs !! (ic.1 - Datatypes.S i) = Some ic.2
                          ∧ cleared parseURL url env skipLabels ic.1 ic.2) rest →
            Forall (λ ic, i ≤ ic.1 ∧ (c :: cs) !! (ic.1 - i) = Some ic.2
                          ∧ cleared parseURL url env skipLabels ic.1 ic.2) rest).
  { intros rest _ Hall. eapply Forall_impl; [exact Hall|].
    intros [j c'] (Hle & Hl & Hc). simpl in *. split_and!; [lia | | done].
    replace (j - i) with (Datatypes.S (j - Datatypes.S i)) by lia. done. }
  destruct (turn parseURL url baseUrl env skipLabels i c st) as [st1 | how st1];
    cbn [state_after] in *.
  - destruct Htr as [[Ha _] | (Htried & Ha & _)].
    + destruct (IH (Datatypes.S i) st1 Ht') as (tries & Hsub & Hall & Hatt & Hnd').
      { by rewrite (visits_same _ _ Ha). }
      exists tries. split_and!.
      * by apply sublist_cons.
      * by apply Hone.
      * by rewrite Hatt, (attempts_same _ _ Ha).
      * done.
    + apply attempts_app in Ha. rewrite attempt_of_round_trip in Ha.
      destruct (IH (Datatypes.S i) st1 Ht') as (tries & Hsub & Hall & Hatt & Hnd').
      { by apply (Hstep _ _ Htried Ha). }
      exists ((i, c) :: tries). split_and!.
      * simpl. by apply sublist_skip.
      * constructor; [|by apply Hone]. simpl.
        rewrite Nat.sub_diag. split_and!; [lia | done | by destruct Htried].
      * rewrite Hatt, Ha, <- app_assoc. done.
      * done.
  - destruct how; [done | |].
    + destruct Htr as (Htried & Hok & Hcase).
      assert (Ha : attempts st1 = attempts st ++ [(c, true)]).
      { destruct Hcase as [(_ & Ha & _) | (_ & _ & Ha & _)];
          by apply attempts_app in Ha. }
      exists [(i, c)]. split_and!.
      * simpl. apply sublist_skip, sublist_nil_l.
      * constructor; [|done]. simpl.
        rewrite Nat.sub_diag. split_and!; [lia | done | by destruct Htried].
      * simpl. by rewrite Hok.
      * by apply (Hstep _ _ Htried Ha).
    + destruct Htr as [Ha _]. exists []. simpl. rewrite app_nil_r. split_and!.
      * apply sublist_nil_l.
      * done.
      * by apply attempts_same.
      * by rewrite (visits_same _ _ Ha).
Qed.


End WithUrl.

Lemma explore_tries parseURL url baseUrl env candidates plan :
  let st := (exploreVisiblePages parseURL url baseUrl env candidates plan).2 in
  let skipLabels : gset Str.t := list_to_set (Str.toLowerCase <$> skipReasons plan) in
  let ordered := orderedCandidates candidates plan in
  ∃ tries : list (nat * Candidate),
    tries.*2 `sublist_of` ordered
    ∧ Forall (λ ic, ordered !! ic.1 = Some ic.2
                    ∧ cleared parseURL url env skipLabels ic.1 ic.2) tries
    ∧ attempts st = (λ ic, (ic.2, navigates env ic.1 ic.2)) <$> tries
    ∧ NoDup (omap href_of (visits st)).
Proof.
  intros st skipLabels ordered. subst st. unfold exploreVisiblePages.
  destruct candidates as [|c0 cs].
  - exists []. split_and!; [apply sublist_nil_l | done | done | constructor].
  - set (candidates := c0 :: cs) in *. fold skipLabels. fold ordered.
    destruct (visit_tries parseURL url baseUrl env skipLabels ordered 0 start)
      as (tries & Hsub & Hall & Hatt & Hnd);
      [apply ExploreFacts.tidy_start | constructor |].
    exists tries. split_and!; [done | | done | done].
    eapply Forall_impl; [exact Hall|]. intros [j c] (_ & Hl & Hc). simpl in *.
    by rewrite Nat.sub_0_r in Hl.
Qed.

(** X13. A run goes to a risky candidate only after the user answered
    yes to the question about this candidate, and it goes to a candidate of
    the skip list only if that candidate is risky, so only with that
    answer.  Every try is a candidate of the order of visit, and its
    outcome is that of the navigation at its place.  A candidate is risky
    when its label is unsafe, or when it has a link, not the empty one,
    that cannot be read, or that is read while the start URL cannot, or
    whose host is neither the host of the start URL nor ends with a dot
    and that host. *)
Theorem risky_candidate_is_opened_on_a_yes parseURL url baseUrl env candidates plan :
  let st := (exploreVisiblePages parseURL url baseUrl env candidates plan).2 in
  let skipLabels : gset Str.t := list_to_set (Str.toLowerCase <$> skipReasons plan) in
  let ordered := orderedCandidates candidates plan in
  Forall (λ a : Candidate * bool,
            ∃ i, ordered !! i = Some a.1
                 ∧ a.2 = navigates env i a.1
                 ∧ (isRiskyNavigation parseURL url a.1 = true →
                    decides env i a.1 = Some Agent.act_yes)
                 ∧ (key a.1 ∈ skipLabels →
                    isRiskyNavigation parseURL url a.1 = true
                    ∧ decides env i a.1 = Some Agent.act_yes))
         (attempts st)
  ∧ (∀ c,
       isRiskyNavigation parseURL url c = true
       ↔ isUnsafeLabel (label c) = true
         ∨ ∃ h, href c = Some h ∧ h ≠ []
                ∧ match parseURL h, parseURL url with
                  | Some target, Some base =>
                      Url.hostname target ≠ Url.hostname base
                      ∧ ¬ (∃ sub, Url.hostname target
                                  = sub ++ Str.lit "." ++ Url.hostname base)
                  | _, _ => True
                  end).
Proof.
  intros st skipLabels ordered. split.
  - destruct (explore_tries parseURL url baseUrl env candidates plan)
      as (tries & _ & Hall & Hatt & _).
    fold st in Hatt. rewrite Hatt. apply Forall_fmap.
    eapply Forall_impl; [exact Hall|].
    intros [i c] (Hl & Hyes & Hskip). simpl in *. exists i.
    split_and!; [done | done | done |]. intros Hin. split; auto.
  - intros c. unfold isRiskyNavigation, href_of.
    destruct (isUnsafeLabel (label c)); [split; [by left | done]|].
    destruct (href c) as [[|a h]|].
    + split; [done | intros [? | (h & [= <-] & ? & _)]; done].
    + destruct (parseURL (a :: h)) as [target|] eqn:Ht;
        [destruct (parseURL url) as [base|] eqn:Hb|].
      * rewrite andb_true_iff, bool_decide_eq_true, negb_true_iff,
          <- not_true_iff_false, StrFacts.endsWith_spec.
        split.
        -- intros [Hne Hend]. right. exists (a :: h). rewrite Ht. by split_and!.
        -- intros [? | (h' & [= <-] & _ & Hm)]; [done|]. by rewrite Ht in Hm.
      * split; [intros _; right; exists (a :: h); by rewrite Ht | done].
      * split; [intros _; right; exists (a :: h); by rewrite Ht | done].
    + split; [done | intros [? | (h & ? & _)]; done].
Qed.

(** X14. A run tries the candidates in the order of visit and each of
    them once at most, so no two tries have the same label, letters of
    either case taken as the same; and it opens no link twice, the links
    being those of the candidates as they are, the empty one apart. *)
Theorem each_candidate_is_tried_once parseURL url baseUrl env candidates plan :
  let st := (exploreVisiblePages parseURL url baseUrl env candidates plan).2 in
  let link_of c := match href c with
                   | None | Some [] => None
                   | Some h => Some h
                   end in
  (attempts st).*1 `sublist_of` orderedCandidates candidates plan
  ∧ NoDup (key <$> (attempts st).*1)
  ∧ visits st `sublist_of` (attempts st).*1
  ∧ NoDup (omap link_of (visits st))
  ∧ visited st = list_to_set (omap link_of (visits st)).
Proof.
  intros st link_of.
  assert (Hlink : ∀ l : list Candidate, omap link_of l = omap href_of l).
  { assert (Heq : ∀ c, link_of c = href_of c).
    { intros c. unfold link_of, href_of. by destruct (href c) as [[|a h]|]. }
    induction l as [|c l IH]; [done|]. simpl. rewrite Heq.
    destruct (href_of c); [f_equal|]; exact IH. }
  rewrite Hlink.
  destruct (explore_tries parseURL url baseUrl env candidates plan)
    as (tries & Hsub & _ & Hatt & Hnd).
  destruct (ExploreFacts.explore_tidy parseURL url baseUrl env candidates plan)
    as [(_ & _ & Hvisited) _].
  fold st in Hatt, Hnd, Hvisited.
  assert (Hfst : (attempts st).*1 = tries.*2).
  { rewrite Hatt, <- list_fmap_compose. done. }
  destruct (OrderFacts.orderedCandidates_keys candidates plan) as [Hkeys _].
  split_and!.
  - by rewrite Hfst.
  - rewrite Hfst. eapply sublist_NoDup; [exact Hkeys|]. by apply fmap_sublist.
  - unfold visits. apply fmap_sublist, sublist_filter.
  - done.
  - done.
Qed.


(** Two runs on one page that an exception ends: when the screenshot
    throws the name of the page is not among those returned, when the way
    back throws it is. *)
Example exploration_broken_off :
  let env ok back := mkEnv (λ _ _, true) (λ _ _, Some Agent.act_yes) (λ _ _, ok)
                       (λ _ _, back) in
  let run ok back := exploreVisiblePages Url.simple Scenario.base Scenario.base
                       (env ok back) [Scenario.page "p0"; Scenario.page "p1"]
                       Scenario.no_plan in
  (run false true).1 = aborted
  ∧ pagesExploredNames (run false true).2 = []
  ∧ actions (run false true).2 = [navigation (Scenario.page "p0") true]
  ∧ (run true false).1 = aborted
  ∧ pagesExploredNames (run true false).2 = [Str.lit "p0"]
  ∧ actions (run true false).2
    = [navigation (Scenario.page "p0") true; goBackOrNavigate Scenario.base false]
  ∧ visited (run true false).2 = {[ Str.lit "https://x.com/p0" ]}.
Proof. intros env run. split_and!; vm_compute; reflexivity. Qed.

(** A link off the site that the user declines, a page of the skip list,
    a navigation that throws and two pages with one link: the only action
    after a try that failed is the next try. *)
Example exploration_sample :
  let to (l h : string) := mkCandidate (Str.lit l) (Some (Str.lit h)) link in
  let env := mkEnv (λ i _, negb (i =? 2)) (λ _ _, Some Agent.act_no) (λ _ _, true)
               (λ _ _, true) in
  let run := exploreVisiblePages Url.simple Scenario.base Scenario.base env
               [to "Partner" "https://other.org/"; to "Legal" "https://x.com/legal";
                to "Users" "https://x.com/users"; to "Items" "https://x.com/items";
                to "All items" "https://x.com/items"; to "Home" "https://x.com/"]
               (mkPlan [] [Str.lit "legal"]) in
  run.1 = finished
  ∧ (attempts run.2).*1
    = [to "Users" "https://x.com/users"; to "Items" "https://x.com/items";
       to "Home" "https://x.com/"]
  ∧ pagesExploredNames run.2 = [Str.lit "Items"; Str.lit "Home"]
  ∧ length (actions run.2) = 5.
Proof. by vm_compute. Qed.

End LoopFacts.

(** ** Questions, answers and the mode of the agent *)

Module DecisionFacts.
Import Risk Agent Inv Notions.

Section WithListeners.
Variable body : Listener → AgentEvent → list Cmd.

Lemma requestActionDecision_spec action reason a :
  let r := requestActionDecision body action reason a in
  r.1 = length (actionPromises a)
  ∧ actionPromises r.2 = actionPromises a ++ [None]
  ∧ actionResolver r.2 = Some r.1
  ∧ invoked r.2
    = invoked a ++ Spec.dispatch (ev_action_suggestion action reason) (registered a)
  ∧ (approvals r.2, resolver r.2, nextStepsPromises r.2, nextStepsResolver r.2, mode r.2)
    = (approvals a, resolver a, nextStepsPromises a, nextStepsResolver a, mode a).
Proof.
  intros r. subst r. unfold requestActionDecision.
  destruct (AgentFacts.emit_spec body (ev_action_suggestion action reason) a)
    as (Hi & _ & Hz & _).
  injection Hz as Hap Hres Hact _ Hns Hnr Hm. simpl.
  by rewrite Hap, Hres, Hact, Hns, Hnr, Hm, Hi.
Qed.

Lemma requestNextSteps_spec summary question a :
  let r := requestNextSteps body summary question a in
  r.1 = length (nextStepsPromises a)
  ∧ nextStepsPromises r.2 = nextStepsPromises a ++ [None]
  ∧ nextStepsResolver r.2 = Some r.1
  ∧ invoked r.2
    = invoked a ++ Spec.dispatch (ev_next_steps summary question) (registered a)
  ∧ (approvals r.2, resolver r.2, actionPromises r.2, actionResolver r.2, mode r.2)
    = (approvals a, resolver a, actionPromises a, actionResolver a, mode a).
Proof.
  intros r. subst r. unfold requestNextSteps.
  destruct (AgentFacts.emit_spec body (ev_next_steps summary question) a)
    as (Hi & _ & Hz & _).
  injection Hz as Hap Hres Hact Har Hns _ Hm. simpl.
  by rewrite Hap, Hres, Hact, Har, Hns, Hm, Hi.
Qed.

Lemma settle_new {D} (d : D) ps : settle (length ps) d (ps ++ [None]) = ps ++ [Some d].
Proof.
  unfold settle. rewrite lookup_app_r, Nat.sub_diag by lia. simpl.
  rewrite insert_app_r_alt, Nat.sub_diag by lia. done.
Qed.

(** X16. The answer to a question about an action reaches the question
    asked last: after [requestActionDecision], which tells the listeners,
    [resolveActionDecision] settles the promise returned with the decision
    given and empties the slot, so that a second answer changes nothing.
    The answer to another kind of question leaves the promise pending, and
    an answer about an action settles neither an approval nor a question
    about the next steps.  [requestNextSteps] and [resolveNextSteps] behave
    alike. *)
Theorem answer_reaches_its_own_question (a : t) :
  (∀ action reason d,
     let r := requestActionDecision body action reason a in
     let a' := resolveActionDecision d r.2 in
     r.1 = length (actionPromises a)
     ∧ invoked r.2
       = invoked a ++ Spec.dispatch (ev_action_suggestion action reason) (registered a)
     ∧ actionPromises r.2 !! r.1 = Some None
     ∧ actionPromises a' = actionPromises a ++ [Some d]
     ∧ actionResolver a' = None
     ∧ (∀ again, resolveActionDecision again a' = a')
     ∧ (∀ ad nd, actionPromises (resolveApproval ad (resolveNextSteps nd r.2)) !! r.1
                 = Some None)
     ∧ (approvals a', resolver a', nextStepsPromises a', nextStepsResolver a')
       = (approvals a, resolver a, nextStepsPromises a, nextStepsResolver a))
  ∧ (∀ summary question d,
     let r := requestNextSteps body summary question a in
     let a' := resolveNextSteps d r.2 in
     r.1 = length (nextStepsPromises a)
     ∧ invoked r.2
       = invoked a ++ Spec.dispatch (ev_next_steps summary question) (registered a)
     ∧ nextStepsPromises r.2 !! r.1 = Some None
     ∧ nextStepsPromises a' = nextStepsPromises a ++ [Some d]
     ∧ nextStepsResolver a' = None
     ∧ (∀ again, resolveNextSteps again a' = a')
     ∧ (∀ ad cd, nextStepsPromises (resolveApproval ad (resolveActionDecision cd r.2)) !! r.1
                 = Some None)
     ∧ (approvals a', resolver a', actionPromises a', actionResolver a')
       = (approvals a, resolver a, actionPromises a, actionResolver a))
  ∧ (∀ d, actionResolver a = None → resolveActionDecision d a = a)
  ∧ (∀ d, nextStepsResolver a = None → resolveNextSteps d a = a).
Proof.
  split_and!.
  - intros action reason d r a'.
    destruct (requestActionDecision_spec action reason a) as (Hn & Hp & Hr & Hi & Hz).
    fold r in Hn, Hp, Hr, Hi, Hz. injection Hz as Hap Hres Hns Hnr _.
    assert (Hpend : actionPromises r.2 !! r.1 = Some None).
    { by rewrite Hp, Hn, lookup_app_r, Nat.sub_diag. }
    assert (Ha' : a' = with_action (actionPromises a ++ [Some d]) None r.2).
    { subst a'. unfold resolveActionDecision. rewrite Hr, Hp, Hn.
      by rewrite settle_new. }
    clearbody a'. subst a'. split_and!; try done.
    + intros ad nd. unfold resolveApproval, resolveNextSteps.
      destruct (nextStepsResolver r.2); destruct (resolver _); done.
    + simpl. by rewrite Hap, Hres, Hns, Hnr.
  - intros summary question d r a'.
    destruct (requestNextSteps_spec summary question a) as (Hn & Hp & Hr & Hi & Hz).
    fold r in Hn, Hp, Hr, Hi, Hz. injection Hz as Hap Hres Hact Har _.
    assert (Hpend : nextStepsPromises r.2 !! r.1 = Some None).
    { by rewrite Hp, Hn, lookup_app_r, Nat.sub_diag. }
    assert (Ha' : a' = with_nextSteps (nextStepsPromises a ++ [Some d]) None r.2).
    { subst a'. unfold resolveNextSteps. rewrite Hr, Hp, Hn.
      by rewrite settle_new. }
    clearbody a'. subst a'. split_and!; try done.
    + intros ad cd. unfold resolveApproval, resolveActionDecision.
      destruct (actionResolver r.2); destruct (resolver _); done.
    + simpl. by rewrite Hap, Hres, Hact, Har.
  - intros d Hnone. unfold resolveActionDecision. by rewrite Hnone.
  - intros d Hnone. unfold resolveNextSteps. by rewrite Hnone.
Qed.

Lemma emit_mode event a : mode (emit body event a) = mode a.
Proof.
  destruct (AgentFacts.emit_spec body event a) as (_ & _ & Hz & _).
  by injection Hz.
Qed.

Lemma run_op_mode a o : mode (run_op body a o) = default (mode a) (mode_set o).
Proof.
  destruct o; simpl; try done.
  - apply emit_mode.
  - unfold requestApproval. simpl. apply emit_mode.
  - unfold resolveApproval. by destruct (resolver a).
  - unfold requestActionDecision. simpl. apply emit_mode.
  - unfold resolveActionDecision. by destruct (actionResolver a).
  - unfold requestNextSteps. simpl. apply emit_mode.
  - unfold resolveNextSteps. by destruct (nextStepsResolver a).
  - unfold setMode. by rewrite emit_mode.
  - destruct (AgentFacts.handleNetworkCall_state body method url status timestamp a)
      as [-> | (payload & ->)].
    + apply emit_mode.
    + unfold requestApproval. simpl. by rewrite !emit_mode.
Qed.

Lemma run_mode ops a :
  mode (run body a ops) = default (mode a) (last (omap mode_set ops)).
Proof.
  induction ops as [|o ops IH] using rev_ind; [done|].
  unfold run in *. rewrite foldl_app. simpl. rewrite run_op_mode, IH, omap_app.
  simpl. destruct (mode_set o) as [m|]; simpl.
  - by rewrite last_snoc.
  - by rewrite app_nil_r.
Qed.

(** X17. The mode of an agent is the one of the last [setMode], which
    tells it to the listeners, and the mode the agent was made with,
    OBSERVE_ONLY, when there was none: no other call changes it.  So an
    agent whose mode was never set asks for an approval for the calls of
    high risk only, and after [setMode("EXECUTE")] it asks for the calls of
    medium risk too. *)
Theorem mode_is_the_last_one_set (ops : list Op) (a : t) :
  mode (run body a ops) = default (mode a) (last (omap mode_set ops))
  ∧ (∀ m, let a' := setMode body m a in
          mode a' = m
          ∧ invoked a' = invoked a ++ Spec.dispatch (ev_mode_change m) (registered a)
          ∧ (approvals a', resolver a') = (approvals a, resolver a))
  ∧ (∀ method url status timestamp,
       let r := handleNetworkCall body method url status timestamp (run body init ops) in
       omap mode_set ops = [] →
       (assessRisk method url ≠ high → r.1 = Now None)
       ∧ (assessRisk method url = high → ∃ p, r.1 = Await p))
  ∧ (∀ method url status timestamp,
       let r := handleNetworkCall body method url status timestamp
                  (setMode body EXECUTE a) in
       (assessRisk method url = low → r.1 = Now None)
       ∧ (assessRisk method url ≠ low → ∃ p, r.1 = Await p)).
Proof.
  split_and!.
  - apply run_mode.
  - intros m a'. subst a'. unfold setMode.
    destruct (AgentFacts.emit_spec body (ev_mode_change m) (with_mode m a))
      as (Hi & _ & Hz & _).
    injection Hz as Hap Hres _ _ _ _ Hm. by rewrite Hap, Hres, Hm, Hi.
  - intros method url status timestamp r Hnone. subst r.
    unfold handleNetworkCall. rewrite emit_mode, run_mode, Hnone. simpl.
    rewrite andb_false_r.
    destruct (bool_decide (assessRisk method url = high)) eqn:Hh.
    + apply bool_decide_eq_true in Hh. split; [done | eauto].
    + apply bool_decide_eq_false in Hh. by split.
  - intros method url status timestamp r. subst r.
    unfold handleNetworkCall, setMode. rewrite !emit_mode. simpl.
    rewrite andb_true_r.
    destruct (assessRisk method url); simpl.
    + by split.
    + split; [done | eauto].
    + split; [done | eauto].
Qed.

End WithListeners.

End DecisionFacts.

(** ** The session over whole runs *)

Module GrowthFacts.
Import Capture World Inv Notions.

Section WithEnvironment.
Variable parseURL : Url.parser.
Variable url : Str.t.
Variable body : Agent.Listener → Agent.AgentEvent → list Agent.Cmd.

Lemma steady_init : steady parseURL World.init.
Proof. split; [apply WorldFacts.sound_init | done]. Qed.

Lemma grown_same w w' :
  Session.sessionCalls (session w') = Session.sessionCalls (session w) → grown w w'.
Proof. intros H. exists []. by rewrite app_nil_r. Qed.

Lemma grown_refl w : grown w w.
Proof. by apply grown_same. Qed.

Lemma grown_trans w1 w2 w3 :
  Session.captureActive (session w2) = Session.captureActive (session w1) →
  grown w1 w2 → grown w2 w3 → grown w1 w3.
Proof.
  intros Ha (m1 & H1 & Hq1) (m2 & H2 & Hq2). exists (m1 ++ m2). split.
  - by rewrite H2, H1, app_assoc.
  - intros Hoff. rewrite Hq1 by done. rewrite Hq2 by congruence. done.
Qed.

Lemma onCapturedCall_grows call s :
  let s' := Session.onCapturedCall parseURL call s in
  Session.captureActive s' = Session.captureActive s
  ∧ ∃ more, Session.sessionCalls s' = Session.sessionCalls s ++ more.
Proof.
  unfold Session.onCapturedCall.
  destruct (decide (_ ∈ _)); simpl; (split; [done|]).
  - exists []. by rewrite app_nil_r.
  - by eexists.
Qed.

Lemma resume_grows response info method now w :
  steady parseURL w →
  let w' := resume parseURL response info method now w in
  steady parseURL w'
  ∧ Session.captureActive (session w') = Session.captureActive (session w)
  ∧ Recorder.captureActive (recorder w') = Recorder.captureActive (recorder w)
  ∧ grown w w'.
Proof.
  intros [Hs Hq] w'.
  pose proof (WorldFacts.resume_sound parseURL response info method now w Hs) as Hs'.
  fold w' in Hs'.
  destruct (WorldFacts.resume_state parseURL response info method now w)
    as (Hr & Hse & _). fold w' in Hr, Hse.
  assert (Hgo : Session.captureActive (session w') = Session.captureActive (session w)
                ∧ Recorder.captureActive (recorder w') = Recorder.captureActive (recorder w)
                ∧ grown w w').
  { unfold grown. rewrite Hr, Hse. unfold Recorder.response_capture.
    destruct info as [i|]; [|split_and!; [done | done | apply grown_refl]].
    destruct (Recorder.captureActive (recorder w)) eqn:Hon; simpl;
      [|split_and!; [done | done | apply grown_refl]].
    destruct (Recorder.shouldCapture _ _ _) as [[|]|]; simpl;
      [|split_and!; [done | done | apply grown_refl]..].
    destruct Hs as [_ [Hl | Hl]]; rewrite Hl; simpl.
    - split_and!; [done | done | apply grown_refl].
    - destruct (onCapturedCall_grows
                  (Recorder.build_call response i method now) (session w))
        as [Ha (more & Hm)].
      split_and!; [done | done |]. exists more. split; [done|].
      intros Hoff. specialize (Hq Hoff). congruence. }
  destruct Hgo as (Ha & Hra & Hg). split_and!; try done.
  split; [done|]. rewrite Ha, Hra. done.
Qed.

Lemma resumes_grow now ready w :
  steady parseURL w →
  let w' := foldl (λ w' k, resume parseURL (pk_response k) (pk_info k)
                             (pk_method k) now w') w ready in
  steady parseURL w'
  ∧ Session.captureActive (session w') = Session.captureActive (session w)
  ∧ grown w w'.
Proof.
  revert w. induction ready as [|k ready IH]; intros w Hs; simpl.
  { split_and!; [done | done | apply grown_refl]. }
  destruct (resume_grows (pk_response k) (pk_info k) (pk_method k) now w Hs)
    as (Hs1 & Ha1 & _ & Hg1).
  destruct (IH _ Hs1) as (Hs2 & Ha2 & Hg2).
  split_and!; [done | congruence | by eapply grown_trans].
Qed.

Lemma step_grows w e :
  steady parseURL w →
  steady parseURL (step parseURL url body w e) ∧ grown w (step parseURL url body w e).
Proof.
  intros Hs.
  assert (Hsound : sound parseURL (step parseURL url body w e))
    by (apply WorldFacts.step_sound; by destruct Hs).
  destruct e as [rq now | response now | o now | |]; simpl in *.
  - split; [|by apply grown_same]. by destruct Hs.
  - unfold on_response in *.
    destruct (Agent.handleNetworkCall _ _ _ _ _ _) as [[v | p] a].
    + set (w1 := World.mk a (recorder w) (session w) (parked w) (rejected w)) in *.
      assert (Hs1 : steady parseURL w1) by (by destruct Hs).
      destruct (resume_grows response
                  (Recorder.response_info response (recorder w))
                  (Recorder.response_method response (recorder w)) now w1 Hs1)
        as (Hs2 & _ & _ & Hg).
      done.
    + split; [|by apply grown_same]. by destruct Hs.
  - unfold wake in *. simpl in *.
    set (w1 := World.mk _ (recorder w) (session w) _ (rejected w)) in *.
    assert (Hs1 : steady parseURL w1) by (by destruct Hs).
    destruct (resumes_grow now
                (filter (λ k, settled (Agent.run_op body (agent w) o) (pk_promise k) = true)
                        (parked w)) w1 Hs1) as (Hs2 & _ & Hg).
    done.
  - unfold Session.startCaptureSession in *.
    destruct (Session.captureActive (session w)) eqn:Ha; simpl in *.
    + split; [|by apply grown_same]. split; [done|]. simpl. intros Hoff. congruence.
    + destruct (Recorder.startCapture parseURL url false (recorder w)); simpl in *;
        (split; [by split | by apply grown_same]).
  - unfold Session.finalizeCapture in *.
    destruct (Session.captureActive (session w)) eqn:Ha; simpl in *.
    + split; [by split | by apply grown_same].
    + split; [|by apply grown_same]. split; [done|]. simpl. destruct Hs as [_ Hq]. auto.
Qed.

Lemma run_steady es w : steady parseURL w → steady parseURL (run parseURL url body w es).
Proof.
  revert w. unfold run. induction es as [|e es IH]; intros w H; simpl; [done|].
  by apply IH, step_grows.
Qed.

Lemma run_prefix es w :
  steady parseURL w →
  Session.sessionCalls (session w)
    `prefix_of` Session.sessionCalls (session (run parseURL url body w es)).
Proof.
  revert w. unfold run. induction es as [|e es IH]; intros w H; simpl; [done|].
  destruct (step_grows w e H) as [H' (more & Hm & _)].
  etrans; [|by apply IH]. rewrite Hm. by apply prefix_app_r.
Qed.

(** X18. The list of the calls of the session only grows: an event adds
    calls at its end or leaves it as it is, so what was captured stays
    through the end of a capture session and the start of the next one.
    It grows only while a capture session is on, and only when a response
    comes or a call on the agent lets parked responses go on. *)
Theorem session_calls_only_grow (events later : list Event) (e : Event) :
  let w := run parseURL url body World.init events in
  let w' := step parseURL url body w e in
  let calls v := Session.sessionCalls (session v) in
  (∃ more,
     calls w' = calls w ++ more
     ∧ (Session.captureActive (session w) = false → more = [])
     ∧ (match e with
        | response_observed _ _ | agent_called _ _ => True
        | _ => more = []
        end))
  ∧ calls w `prefix_of` calls (run parseURL url body w later).
Proof.
  intros w w' calls.
  assert (Hs : steady parseURL w) by apply run_steady, steady_init.
  split; [|by apply run_prefix].
  destruct (step_grows w e Hs) as [_ (more & Hm & Hoff)]. fold w' in Hm.
  exists more. split_and!; [done | done |].
  destruct e as [rq now | response now | o now | |]; try done.
  all: apply (app_inv_head (calls w)); subst calls; cbv beta;
    rewrite <- Hm, app_nil_r; subst w'; simpl.
  - done.
  - unfold Session.startCaptureSession.
    destruct (Session.captureActive (session w)); simpl; [done|].
    by destruct (Recorder.startCapture parseURL url false (recorder w)).
  - unfold Session.finalizeCapture.
    by destruct (Session.captureActive (session w)).
Qed.

End WithEnvironment.

End GrowthFacts.

(** ** The calls the session holds *)

Module BodyFacts.
Import Capture World Inv Notions.

Lemma truncate_capped (v : option Str.t) : capped (Recorder.truncate v).
Proof.
  unfold capped, Recorder.truncate. intros t Ht.
  destruct v as [[|c v]|]; [done | | done].
  destruct (BrowserFacts.trim_trimmed (c :: v)) as [Hhead Hlast].
  set (trimmed := Str.trim (c :: v)) in *. clearbody trimmed.
  destruct (Z.of_nat (length trimmed) <=? Recorder.body_cap)%Z eqn:Hle.
  - injection Ht as <-. apply Z.leb_le in Hle. split_and!; [lia | done | done].
  - injection Ht as <-. apply Z.leb_gt in Hle. unfold Recorder.body_cap in *.
    split_and!.
    + rewrite length_app, length_take. lia.
    + intros ch Hch. apply Hhead. destruct trimmed as [|c0 tr]; [simpl in Hle; lia|].
      by rewrite <- Hch.
    + intros ch. rewrite last_app. simpl. by intros [= <-].
Qed.

Lemma or_else_nonempty a b : b ≠ [] → Recorder.or_else a b ≠ [].
Proof. by destruct a. Qed.

Lemma response_method_nonempty {S : Type} response (r : Recorder.t S) :
  Recorder.response_method response r ≠ [].
Proof. unfold Recorder.response_method. by apply or_else_nonempty. Qed.

Lemma build_call_well_built response info method now :
  method ≠ [] → well_built (Recorder.build_call response info method now).
Proof.
  intros Hm. unfold well_built, Recorder.build_call. simpl. split_and!.
  - done.
  - apply truncate_capped.
  - unfold Recorder.safeResponseBody.
    destruct (negb _ && negb _); [done|].
    destruct (rs_text response); [apply truncate_capped | done].
  - unfold textual, Recorder.safeResponseBody. cbn [responseBody responseHeaders].
    set (ct := default [] (rs_headers response !! Str.lit "content-type")).
    destruct (Str.includes (Str.lit "application/json") ct); [by left|].
    destruct (Str.includes (Str.lit "text/plain") ct); [by right|].
    cbn [negb andb]. by intros [? ?].
Qed.

Section WithEnvironment.
Variable parseURL : Url.parser.
Variable url : Str.t.
Variable body : Agent.Listener → Agent.AgentEvent → list Agent.Cmd.

Lemma resume_kept_well response info method now w :
  method ≠ [] → kept_well parseURL w →
  kept_well parseURL (resume parseURL response info method now w).
Proof.
  intros Hm (Hs & Hc & Hp).
  pose proof (WorldFacts.resume_sound parseURL response info method now w Hs) as Hs'.
  destruct (WorldFacts.resume_state parseURL response info method now w)
    as (_ & Hse & _ & Hpk).
  split_and!; [done | | by rewrite Hpk].
  rewrite Hse. unfold Recorder.response_capture.
  destruct info as [i|]; [|done].
  destruct (Recorder.captureActive (recorder w)); [|done]. simpl.
  destruct (Recorder.shouldCapture _ _ _) as [[|]|]; [|done..].
  destruct Hs as [_ [Hl | Hl]]; rewrite Hl; simpl; [done|].
  unfold Session.onCapturedCall. destruct (decide (_ ∈ _)); [done|]. simpl.
  apply Forall_app. split; [done|]. constructor; [|done].
  by apply build_call_well_built.
Qed.

Lemma step_kept_well w e : kept_well parseURL w → kept_well parseURL (step parseURL url body w e).
Proof.
  intros Hk.
  assert (Hsound : sound parseURL (step parseURL url body w e))
    by (apply WorldFacts.step_sound; by destruct Hk).
  destruct e as [rq now | response now | o now | |]; simpl in *.
  - by destruct Hk as (? & ? & ?).
  - unfold on_response in *.
    destruct (Agent.handleNetworkCall _ _ _ _ _ _) as [[v | p] a].
    + apply resume_kept_well; [apply response_method_nonempty|].
      by destruct Hk as (? & ? & ?).
    + destruct Hk as (? & ? & ?). split_and!; [done | done |]. simpl.
      apply Forall_app. split; [done|]. constructor; [|done]. simpl.
      apply response_method_nonempty.
  - unfold wake in *. simpl in *.
    destruct Hk as (Hs & Hc & Hp).
    assert (Hsub : ∀ P `{!∀ k, Decision (P k)},
              Forall (λ k, pk_method k ≠ []) (filter P (parked w))).
    { intros P ?. apply Forall_forall. intros k [_ Hin]%list_elem_of_filter.
      by apply (proj1 (Forall_forall _ _) Hp). }
    pose proof (Hsub (λ k, settled (Agent.run_op body (agent w) o) (pk_promise k) = true) _)
      as Hready.
    set (ready := filter (λ k, settled (Agent.run_op body (agent w) o) (pk_promise k) = true)
                         (parked w)) in *.
    set (w1 := World.mk _ (recorder w) (session w) _ (rejected w)) in *.
    assert (H1 : kept_well parseURL w1) by (split_and!; [done | done | apply Hsub]).
    clearbody w1 ready. clear Hsound Hsub.
    revert w1 H1. induction Hready as [|k ready Hk _ IH]; intros w1 H1; simpl; [done|].
    apply IH. by apply resume_kept_well.
  - destruct Hk as (Hs & Hc & Hp). unfold Session.startCaptureSession in *.
    destruct (Session.captureActive (session w)) eqn:Ha; simpl in *.
    + done.
    + by destruct (Recorder.startCapture parseURL url false (recorder w)).
  - destruct Hk as (Hs & Hc & Hp). unfold Session.finalizeCapture in *.
    by destruct (Session.captureActive (session w)) eqn:Ha.
Qed.

Lemma run_kept_well es w : kept_well parseURL w → kept_well parseURL (run parseURL url body w es).
Proof.
  revert w. unfold run. induction es as [|e es IH]; intros w H; simpl; [done|].
  by apply IH, step_kept_well.
Qed.

(** X19. Every call the session holds, so every call that goes into the
    documents, has a method that is not empty and bodies of 20000
    characters at most, the marker of a cut apart, with no white space
    around them; and it has a response body only if the content type of
    the response says JSON or plain text.  The method of a call is GET
    when neither the record of the request nor the request gives one.
    [truncate] gives no body for an empty text, the text trimmed when that
    fits the cap, and its first 20000 characters with the marker
    otherwise. *)
Theorem session_calls_are_well_built (events : list Event) :
  Forall (λ c, method c ≠ []
               ∧ capped (requestBody c)
               ∧ capped (responseBody c)
               ∧ (is_Some (responseBody c) → textual c))
         (Session.sessionCalls (session (run parseURL url body World.init events)))
  ∧ (∀ v : Str.t,
       Recorder.truncate (Some v)
       = if decide (v = []) then None
         else if decide (Z.of_nat (length (Str.trim v)) ≤ 20000)%Z
              then Some (Str.trim v)
              else Some (take (Z.to_nat 20000) (Str.trim v) ++ Recorder.ellipsis))
  ∧ Recorder.truncate None = None
  ∧ (∀ response (r : Recorder.t Session.t),
       from_option ri_method [] (Recorder.response_info response r) = [] →
       rq_method (rs_request response) = [] →
       Recorder.response_method response r = Str.lit "GET").
Proof.
  split_and!.
  - assert (H0 : kept_well parseURL World.init).
    { split_and!; [apply WorldFacts.sound_init | constructor | constructor]. }
    by destruct (run_kept_well events World.init H0) as (_ & ? & _).
  - intros v. unfold Recorder.truncate. destruct v as [|c v]; [done|].
    rewrite decide_False by done. unfold Recorder.body_cap.
    destruct (decide (Z.of_nat (length (Str.trim (c :: v))) ≤ 20000)%Z) as [Hle | Hle].
    + by rewrite (proj2 (Z.leb_le _ _)) by lia.
    + rewrite (proj2 (Z.leb_gt _ _)) by lia. done.
  - done.
  - intros response r Hinfo Hrq. unfold Recorder.response_method.
    by rewrite Hinfo, Hrq.
Qed.

End WithEnvironment.

End BodyFacts.

(** ** What goes to the model *)

Module GeminiFacts.
Import Capture Gemini.

Lemma pick_fold (ks : list Str.t) (init : Headers) (k : Str.t) :
  foldl (λ (result : Headers) (key : Str.t),
           let lower := Str.toLowerCase key in
           if bool_decide (lower ∈ allowlist) then <[lower := redacted]> result
           else result) init ks !! k
  = if decide (k ∈ allowlist ∧ k ∈ Str.toLowerCase <$> ks) then Some redacted
    else init !! k.
Proof.
  revert init. induction ks as [|key ks IH]; intros init; simpl.
  { rewrite decide_False; [done|]. by intros [_ ?%elem_of_nil]. }
  rewrite IH. destruct (decide (k ∈ allowlist ∧ k ∈ Str.toLowerCase <$> ks))
    as [[Ha Hin] | Hn].
  - rewrite decide_True; [done|]. split; [done | by right].
  - destruct (decide (Str.toLowerCase key = k)) as [Hk | Hk].
    + destruct (bool_decide (Str.toLowerCase key ∈ allowlist)) eqn:Hal.
      * apply bool_decide_eq_true in Hal. rewrite Hk in *.
        rewrite lookup_insert_eq. rewrite decide_True; [done|]. split; [done | by left].
      * apply bool_decide_eq_false in Hal. rewrite Hk in Hal.
        rewrite decide_False; [done|]. by intros [? _].
    + assert (Hinit : (if bool_decide (Str.toLowerCase key ∈ allowlist)
                       then <[Str.toLowerCase key := redacted]> init else init) !! k
                      = init !! k).
      { destruct (bool_decide _); [by rewrite lookup_insert_ne | done]. }
      rewrite Hinit. rewrite decide_False; [done|].
      intros [Ha [Heq | Hin]%elem_of_cons]; [by apply Hk | by apply Hn].
Qed.

Lemma pickHeaders_lookup (headers : Headers) (k : Str.t) :
  pickHeaders headers !! k
  = if decide (k ∈ allowlist ∧ k ∈ Str.toLowerCase <$> (map_to_list headers).*1)
    then Some redacted else None.
Proof. unfold pickHeaders. by rewrite pick_fold, lookup_empty. Qed.

Lemma pickHeaders_spec (headers : Headers) (k : Str.t) :
  (is_Some (pickHeaders headers !! k)
   ↔ k ∈ allowlist ∧ ∃ name, is_Some (headers !! name) ∧ Str.toLowerCase name = k)
  ∧ (∀ v, pickHeaders headers !! k = Some v → v = redacted).
Proof.
  rewrite pickHeaders_lookup.
  assert (Hnames : k ∈ Str.toLowerCase <$> (map_to_list headers).*1
                   ↔ ∃ name, is_Some (headers !! name) ∧ Str.toLowerCase name = k).
  { rewrite list_elem_of_fmap. split.
    - intros (name & -> & ([n v] & -> & Hin%elem_of_map_to_list)%list_elem_of_fmap).
      exists n. by split; [exists v|].
    - intros (name & [v Hv] & <-). exists name. split; [done|].
      apply list_elem_of_fmap. exists (name, v). split; [done|].
      by apply elem_of_map_to_list. }
  destruct (decide _) as [[Ha Hin] | Hn]; split.
  - split; [intros _; split; [done | by apply Hnames] | by eexists].
  - by intros v [= <-].
  - split; [by intros [? ?] | intros [Ha Hin]]. exfalso. apply Hn. split; [done|].
    by apply Hnames.
  - done.
Qed.

(** X20. No value of a header goes into the prompt for the documents:
    [pickHeaders] keeps a header only if its name, in small letters, is one
    of the six of its list, under that name, and with the text
    [<redacted>] in place of its value.  The prompt gets the first 60
    calls at most, with their methods, URLs, status codes and bodies as
    they are. *)
Theorem header_values_stay_out_of_the_prompt (calls : list CapturedCall) :
  let payload := trimmed calls in
  length payload = Nat.min 60 (length calls)
  ∧ Forall (λ e, ∀ k v,
              e_requestHeaders e !! k = Some v ∨ e_responseHeaders e !! k = Some v →
              v = redacted ∧ k ∈ allowlist) payload
  ∧ (∀ headers k,
       (is_Some (pickHeaders headers !! k)
        ↔ k ∈ allowlist
          ∧ ∃ name, is_Some (headers !! name) ∧ Str.toLowerCase name = k)
       ∧ (∀ v, pickHeaders headers !! k = Some v → v = redacted))
  ∧ e_method <$> payload = method <$> take 60 calls
  ∧ e_url <$> payload = url <$> take 60 calls
  ∧ e_status <$> payload = status <$> take 60 calls
  ∧ e_requestBody <$> payload = requestBody <$> take 60 calls
  ∧ e_responseBody <$> payload = responseBody <$> take 60 calls.
Proof.
  intros payload. subst payload. unfold trimmed.
  split_and!.
  - by rewrite length_fmap, length_take.
  - apply Forall_fmap, Forall_forall. intros call _ k v. simpl.
    intros [Hv | Hv].
    + destruct (pickHeaders_spec (requestHeaders call) k) as [Hs Hval].
      split; [by apply Hval|]. by apply Hs.
    + destruct (pickHeaders_spec (responseHeaders call) k) as [Hs Hval].
      split; [by apply Hval|]. by apply Hs.
  - apply pickHeaders_spec.
  - by rewrite <- list_fmap_compose.
  - by rewrite <- list_fmap_compose.
  - by rewrite <- list_fmap_compose.
  - by rewrite <- list_fmap_compose.
  - by rewrite <- list_fmap_compose.
Qed.

(** A token and a cookie are masked, the content type too, and a header
    outside the list is dropped. *)
Example pickHeaders_sample :
  pickHeaders (list_to_map [(Str.lit "Authorization", Str.lit "Bearer abc");
                            (Str.lit "Accept", Str.lit "*/*");
                            (Str.lit "COOKIE", Str.lit "sid=1");
                            (Str.lit "Content-Type", Str.lit "text/plain")])
  = list_to_map [(Str.lit "authorization", redacted); (Str.lit "cookie", redacted);
                 (Str.lit "content-type", redacted)].
Proof. by vm_compute. Qed.

End GeminiFacts.

(** ** The terminal application *)

Module AppFacts.
Import Agent App Notions.

Lemma handleEvents_snoc st es e :
  handleEvents st (es ++ [e]) = handleEvent e (handleEvents st es).
Proof. unfold handleEvents. by rewrite foldl_app. Qed.

Lemma last_or_snoc {A} (p : A → bool) d es e :
  last_or p d (es ++ [e]) = if p e then Some e else last_or p d es.
Proof.
  unfold last_or. rewrite filter_app, filter_cons, filter_nil.
  destruct (p e) eqn:He.
  - rewrite decide_True by done. by rewrite last_snoc.
  - rewrite decide_False by congruence. by rewrite app_nil_r.
Qed.

(** The state of the component after a run of events. *)
Lemma handleEvents_spec st es :
  let st' := handleEvents st es in
  events st' = events st ++ filter (λ e, is_llm_status e = false) es
  ∧ llmStatus st' = default (llmStatus st) (last (omap status_of es))
  ∧ pendingApproval st' = last_or is_approval_required (pendingApproval st) es
  ∧ pendingSuggestion st' = last_or is_action_suggestion (pendingSuggestion st) es
  ∧ showNetworkLogs st' = showNetworkLogs st
  ∧ typedAction st' = typedAction st.
Proof.
  induction es as [|e es IH] using rev_ind.
  { simpl. rewrite app_nil_r. unfold last_or. simpl.
    by destruct (pendingApproval st), (pendingSuggestion st). }
  cbv zeta in *. rewrite handleEvents_snoc.
  destruct IH as (He & Hl & Ha & Hs & Hn & Ht).
  rewrite filter_app, filter_cons, filter_nil, omap_app, !last_or_snoc.
  set (st1 := handleEvents st es) in *. clearbody st1.
  destruct e; simpl;
    rewrite ?app_nil_r, ?last_snoc, ?He, ?Hl, ?Ha, ?Hs, ?Hn, ?Ht, ?app_assoc; done.
Qed.

Lemma delivered_dispatch ui event ls a a' :
  invoked a' = invoked a ++ Spec.dispatch event ls →
  delivered ui a a' = replicate (length (filter (λ l, l = ui) ls)) event.
Proof.
  intros H. unfold delivered. rewrite H, drop_app_length. unfold Spec.dispatch.
  clear H. induction ls as [|l ls IH]; [done|]. rewrite fmap_cons, filter_cons.
  cbn [omap list_omap fst snd]. destruct (decide (l = ui)); simpl; by rewrite IH.
Qed.

Lemma handleEvents_replicate st n e :
  handleEvents st (replicate (Datatypes.S n) e)
  = handleEvent e (handleEvents st (replicate n e)).
Proof. by rewrite replicate_S_end, handleEvents_snoc. Qed.

Section WithListeners.
Variable body : Listener → AgentEvent → list Cmd.

(** X21. The question on the screen is the one the answer goes to.  When
    the listener of the component is subscribed, [requestApproval] makes
    the component show its request, and a key [y], [n] or [d], small or
    capital, typed on the prompt resolves the promise the call returned
    with yes, no or doc and takes the prompt away; any other key changes
    nothing.  [requestActionDecision] and the keys [y] and [n] of the
    suggestion prompt behave alike. *)
Theorem answer_goes_to_the_question_shown (ui : Listener) (a : Agent.t) (st : State) :
  ui ∈ registered a →
  (∀ payload,
     let event := ev_approval_required (ap_action payload) (ap_method payload)
                    (ap_endpoint payload) (ap_preview payload) (ap_risk payload) in
     let r := requestApproval body payload a in
     let st' := handleEvents st (delivered ui a r.2) in
     pendingApproval st' = Some event
     ∧ last (events st') = Some event
     ∧ ∀ input,
         let out := approvalInput input (st', r.2) in
         let decision :=
           if decide (input = Str.lit "y" ∨ input = Str.lit "Y") then Some yes
           else if decide (input = Str.lit "n" ∨ input = Str.lit "N") then Some no
           else if decide (input = Str.lit "d" ∨ input = Str.lit "D") then Some doc
           else None in
         match decision with
         | Some d =>
             pendingApproval out.1 = None
             ∧ approvals out.2 !! r.1 = Some (Some d)
             ∧ resolver out.2 = None
         | None => out = (st', r.2)
         end)
  ∧ (∀ action reason,
       let event := ev_action_suggestion action reason in
       let r := requestActionDecision body action reason a in
       let st' := handleEvents st (delivered ui a r.2) in
       pendingSuggestion st' = Some event
       ∧ last (events st') = Some event
       ∧ ∀ input,
           let out := suggestionInput input (st', r.2) in
           let decision :=
             if decide (input = Str.lit "y" ∨ input = Str.lit "Y") then Some act_yes
             else if decide (input = Str.lit "n" ∨ input = Str.lit "N") then Some act_no
             else None in
           match decision with
           | Some d =>
               pendingSuggestion out.1 = None
               ∧ actionPromises out.2 !! r.1 = Some (Some d)
               ∧ actionResolver out.2 = None
           | None => out = (st', r.2)
           end).
Proof.
  intros Hui.
  assert (Hcount : ∃ n, length (filter (λ l, l = ui) (registered a)) = Datatypes.S n).
  { destruct (filter (λ l, l = ui) (registered a)) as [|l ls] eqn:Hf.
    - assert (Hin : ui ∈ filter (λ l, l = ui) (registered a))
        by (by apply list_elem_of_filter).
      rewrite Hf in Hin. by apply elem_of_nil in Hin.
    - by exists (length ls). }
  destruct Hcount as [n Hn].
  split.
  - intros payload event r st'.
    destruct (AgentFacts.requestApproval_spec body payload a)
      as (Hnew & Hap & Hres & Hpend & Hinv & _).
    fold event r in Hnew, Hap, Hres, Hpend, Hinv.
    assert (Hst : st' = handleEvent event
                          (handleEvents st (replicate n event))).
    { subst st'. rewrite (delivered_dispatch ui event (registered a)) by done.
      by rewrite Hn, handleEvents_replicate. }
    clearbody st'. subst st'. set (st0 := handleEvents st (replicate n event)).
    clearbody st0.
    assert (Hshown : pendingApproval (handleEvent event st0) = Some event) by done.
    split_and!; [done | simpl; apply last_snoc |].
    intros input out decision. subst out decision. unfold approvalInput.
    assert (Hdec : ∀ d,
              let out := handleApprovalDecision d (handleEvent event st0, r.2) in
              pendingApproval out.1 = None
              ∧ approvals out.2 !! r.1 = Some (Some d)
              ∧ resolver out.2 = None).
    { intros d. unfold handleApprovalDecision. cbn [fst snd]. rewrite Hshown.
      cbn [fst snd]. split; [done|]. unfold resolveApproval. rewrite Hres.
      destruct (AgentFacts.settle_pending r.1 d _ Hpend) as (_ & Hset & _).
      by split. }
    destruct (decide (input = Str.lit "y" ∨ input = Str.lit "Y")) as [Hy | Hy].
    { rewrite (proj2 (orb_true_iff _ _)); [apply Hdec|].
      destruct Hy as [-> | ->]; [by left | by right]. }
    rewrite (proj2 (orb_false_iff _ _));
      [|split; apply bool_decide_eq_false; tauto].
    destruct (decide (input = Str.lit "n" ∨ input = Str.lit "N")) as [Hno | Hno].
    { rewrite (proj2 (orb_true_iff _ _)); [apply Hdec|].
      destruct Hno as [-> | ->]; [by left | by right]. }
    rewrite (proj2 (orb_false_iff _ _));
      [|split; apply bool_decide_eq_false; tauto].
    destruct (decide (input = Str.lit "d" ∨ input = Str.lit "D")) as [Hd | Hd].
    { rewrite (proj2 (orb_true_iff _ _)); [apply Hdec|].
      destruct Hd as [-> | ->]; [by left | by right]. }
    rewrite (proj2 (orb_false_iff _ _));
      [done | split; apply bool_decide_eq_false; tauto].
  - intros action reason event r st'.
    destruct (DecisionFacts.requestActionDecision_spec body action reason a)
      as (Hnew & Hap & Hres & Hinv & _).
    fold event r in Hnew, Hap, Hres, Hinv.
    assert (Hpend : actionPromises r.2 !! r.1 = Some None).
    { by rewrite Hap, Hnew, lookup_app_r, Nat.sub_diag. }
    assert (Hst : st' = handleEvent event
                          (handleEvents st (replicate n event))).
    { subst st'. rewrite (delivered_dispatch ui event (registered a)) by done.
      by rewrite Hn, handleEvents_replicate. }
    clearbody st'. subst st'. set (st0 := handleEvents st (replicate n event)).
    clearbody st0.
    assert (Hshown : pendingSuggestion (handleEvent event st0) = Some event) by done.
    split_and!; [done | simpl; apply last_snoc |].
    intros input out decision. subst out decision. unfold suggestionInput.
    assert (Hdec : ∀ d,
              let out := handleSuggestionDecision d (handleEvent event st0, r.2) in
              pendingSuggestion out.1 = None
              ∧ actionPromises out.2 !! r.1 = Some (Some d)
              ∧ actionResolver out.2 = None).
    { intros d. unfold handleSuggestionDecision. cbn [fst snd]. rewrite Hshown.
      cbn [fst snd]. split; [done|]. unfold resolveActionDecision. rewrite Hres.
      destruct (AgentFacts.settle_pending r.1 d _ Hpend) as (_ & Hset & _).
      by split. }
    destruct (decide (input = Str.lit "y" ∨ input = Str.lit "Y")) as [Hy | Hy].
    { rewrite (proj2 (orb_true_iff _ _)); [apply Hdec|].
      destruct Hy as [-> | ->]; [by left | by right]. }
    rewrite (proj2 (orb_false_iff _ _));
      [|split; apply bool_decide_eq_false; tauto].
    destruct (decide (input = Str.lit "n" ∨ input = Str.lit "N")) as [Hno | Hno].
    { rewrite (proj2 (orb_true_iff _ _)); [apply Hdec|].
      destruct Hno as [-> | ->]; [by left | by right]. }
    rewrite (proj2 (orb_false_iff _ _));
      [done | split; apply bool_decide_eq_false; tauto].
Qed.

End WithListeners.

(** The listener of the component is subscribed to a new agent, which asks
    for an approval: the component shows the request, and the key [D]
    resolves the promise with doc. *)
Lemma answer_goes_to_the_question_shown_witness :
  let a := onEvent 1 Agent.init in
  let payload := {| ap_action := Str.lit "DELETE /api/items/1";
                    ap_method := Str.lit "DELETE";
                    ap_endpoint := Str.lit "/api/items/1";
                    ap_preview := None; ap_risk := Risk.high |} in
  let r := requestApproval Scenario.silent payload a in
  let st' := handleEvents (App.init []) (delivered 1 a r.2) in
  1 ∈ registered a
  ∧ pendingApproval st'
    = Some (ev_approval_required (Str.lit "DELETE /api/items/1") (Str.lit "DELETE")
              (Str.lit "/api/items/1") None Risk.high)
  ∧ approvals (approvalInput (Str.lit "D") (st', r.2)).2 !! r.1 = Some (Some doc)
  ∧ approvalInput (Str.lit "x") (st', r.2) = (st', r.2).
Proof.
  intros a payload r st'.
  assert (Hui : 1 ∈ registered a) by (vm_compute; by left).
  destruct (answer_goes_to_the_question_shown Scenario.silent 1 a (App.init []) Hui)
    as [Happroval _].
  destruct (Happroval payload) as (Hshown & _ & Hkeys).
  split_and!.
  - done.
  - exact Hshown.
  - by destruct (Hkeys (Str.lit "D")) as (_ & ? & _).
  - exact (Hkeys (Str.lit "x")).
Defined.

(** X22. The event log of the component holds the events its listener
    was called with, in their order, those on the state of the model
    apart, which set the line of the spinner and never come into the log.
    The screen shows the last 20 lines of the log at most, without the
    lines of network calls unless they were switched on. *)
Theorem event_log_shows_the_last_twenty (st : State) (es : list AgentEvent) :
  let st' := handleEvents st es in
  let shown := filter (λ e, (if showNetworkLogs st' then true
                             else negb (is_network e)) = true) (events st') in
  events st' = events st ++ filter (λ e, is_llm_status e = false) es
  ∧ llmStatus st' = default (llmStatus st) (last (omap status_of es))
  ∧ showNetworkLogs st' = showNetworkLogs st
  ∧ length (visibleEvents st') = Nat.min 20 (length shown)
  ∧ visibleEvents st' `suffix_of` shown
  ∧ (showNetworkLogs st' = true → shown = events st')
  ∧ (showNetworkLogs st' = false →
     Forall (λ e, is_network e = false) (visibleEvents st'))
  ∧ Forall (λ e, is_llm_status e = false) (visibleEvents (handleEvents (App.init []) es)).
Proof.
  intros st' shown.
  destruct (handleEvents_spec st es) as (He & Hl & _ & _ & Hn & _).
  fold st' in He, Hl, Hn.
  assert (Hvis : visibleEvents st' = drop (length shown - 20) shown) by done.
  split_and!; try done.
  - rewrite Hvis, length_drop. lia.
  - rewrite Hvis. apply suffix_drop.
  - intros Hon. subst shown. rewrite Hon. by apply RecorderFacts.filter_all, Forall_forall.
  - intros Hoff. rewrite Hvis.
    assert (Hall : Forall (λ e, is_network e = false) shown).
    { subst shown. rewrite Hoff. apply Forall_forall.
      intros e [He' _]%list_elem_of_filter. by apply negb_true_iff in He'. }
    apply Forall_forall. intros e He'. apply (proj1 (Forall_forall _ _) Hall).
    by apply (subseteq_drop (length shown - 20) shown).
  - destruct (handleEvents_spec (App.init []) es) as (He0 & _).
    set (st0 := handleEvents (App.init []) es) in *. simpl in He0.
    assert (Hall : Forall (λ e, is_llm_status e = false) (events st0)).
    { rewrite He0. apply Forall_forall. by intros e [? _]%list_elem_of_filter. }
    apply Forall_forall. intros e He'. apply (proj1 (Forall_forall _ _) Hall).
    unfold visibleEvents in He'.
    apply subseteq_drop in He'.
    by apply list_elem_of_filter in He' as [_ ?].
Qed.

End AppFacts.

(** ** The prompts of the user *)

Module UserPromptFacts.
Import RegExp UserPrompt Notions.

Lemma lower_upper c : Str.lower_char (Str.upper_char c) = Str.lower_char c.
Proof. by destruct c as [[] [] [] [] [] [] [] []]. Qed.

Lemma lower_lower c : Str.lower_char (Str.lower_char c) = Str.lower_char c.
Proof. by destruct c as [[] [] [] [] [] [] [] []]. Qed.

Lemma upper_eq_lower m w :
  Str.toUpperCase m = Str.toUpperCase w → Str.toLowerCase m = Str.toLowerCase w.
Proof.
  intros H. apply (f_equal Str.toLowerCase) in H. unfold Str.toLowerCase, Str.toUpperCase in *.
  rewrite <- !list_fmap_compose in H.
  rewrite <- (list_fmap_ext Str.lower_char (Str.lower_char ∘ Str.upper_char) m) in H
    by (intros; symmetry; apply lower_upper).
  by rewrite <- (list_fmap_ext Str.lower_char (Str.lower_char ∘ Str.upper_char) w) in H
    by (intros; symmetry; apply lower_upper).
Qed.

(** A piece of a text in small letters is in small letters. *)
Lemma lower_piece s pre m post :
  Str.toLowerCase s = pre ++ m ++ post → Str.toLowerCase m = m.
Proof.
  unfold Str.toLowerCase. intros H.
  apply fmap_app_inv in H as (pre' & rest & -> & Hrest & _).
  symmetry in Hrest. apply fmap_app_inv in Hrest as (m' & post' & -> & -> & _).
  rewrite <- list_fmap_compose. apply list_fmap_ext. intros _ c _. apply lower_lower.
Qed.

(** A word in small letters, read without regard to case in a text in
    small letters, is the word itself. *)
Lemma folded_piece s pre m post w :
  Str.toLowerCase s = pre ++ m ++ post → Str.toLowerCase w = w →
  Str.toUpperCase m = Str.toUpperCase w → m = w.
Proof.
  intros Hs Hw Hm. apply upper_eq_lower in Hm.
  by rewrite (lower_piece _ _ _ _ Hs), Hw in Hm.
Qed.

Lemma says_spec ws p :
  says ws p = true ↔ ∃ w, w ∈ ws ∧ Str.contains (Str.lit w) p.
Proof.
  unfold says. rewrite existsb_exists. split.
  - intros (w & Hin & Hw). exists w. split; [by apply list_elem_of_In|].
    by apply StrFacts.includes_spec.
  - intros (w & Hin & Hw). exists w. split; [by apply list_elem_of_In|].
    by apply StrFacts.includes_spec.
Qed.

(** A test for one of several words in small letters, on a text in small
    letters. *)
Lemma test_says (ws : list string) s :
  Forall (λ w, Str.toLowerCase (Str.lit w) = Str.lit w) ws →
  test true (alts (word <$> (Str.lit <$> ws))) (Str.toLowerCase s)
  = says ws (Str.toLowerCase s).
Proof.
  intros Hlow. apply Bool.eq_iff_eq_true.
  rewrite RegExpFacts.test_spec, says_spec. split.
  - intros (pre & m & post & Hs & (r & Hr & Hm)%RegExpFacts.matches_alts).
    apply list_elem_of_fmap in Hr as (w' & -> & Hw').
    apply list_elem_of_fmap in Hw' as (w & -> & Hw).
    apply RegExpFacts.matches_word_fold in Hm.
    assert (m = Str.lit w) as ->.
    { eapply folded_piece; [exact Hs | | exact Hm].
      by apply (proj1 (Forall_forall _ _) Hlow). }
    exists w. split; [done|]. by exists pre, post.
  - intros (w & Hw & pre & post & Hs). exists pre, (Str.lit w), post.
    split; [done|]. apply RegExpFacts.matches_alts. exists (word (Str.lit w)).
    split; [|by apply RegExpFacts.matches_word_fold].
    apply list_elem_of_fmap. exists (Str.lit w). split; [done|].
    apply list_elem_of_fmap. by exists w.
Qed.

Lemma contains_piece w w' p :
  Str.contains w' w → Str.contains w p → Str.contains w' p.
Proof.
  intros (a & b & ->) (pre & post & ->). exists (pre ++ a), (b ++ post).
  by rewrite <- !app_assoc.
Qed.

Lemma login_matches m :
  matches true login_re m →
  ∃ w, w ∈ ["i'm logged in"; "im logged in"; "i am logged in"; "logged in";
            "login complete"; "signed in"]%string
       ∧ Str.toUpperCase m = Str.toUpperCase (Str.lit w).
Proof.
  unfold login_re. intros (r & Hr & Hm)%RegExpFacts.matches_alts.
  apply elem_of_cons in Hr as [-> | Hr].
  { apply RegExpFacts.matches_seq_inv in Hm as (s1 & s2 & -> & H1 & H2).
    apply RegExpFacts.matches_chr_inv in H1 as (a & -> & Ha%RegExpFacts.chr_eqb_fold).
    apply RegExpFacts.matches_seq_inv in H2 as (q & rest & -> & Hq & Hrest).
    apply RegExpFacts.matches_word_fold in Hrest.
    apply RegExpFacts.matches_alt_inv in Hq as [Hq | Hq].
    - apply RegExpFacts.matches_chr_inv in Hq as (b & -> & Hb%RegExpFacts.chr_eqb_fold).
      exists "i'm logged in"%string. split; [by left|].
      change ([a] ++ [b] ++ rest) with (a :: b :: rest).
      unfold Str.toUpperCase in *. rewrite !fmap_cons, Hrest, <- Ha, <- Hb. done.
    - apply RegExpFacts.matches_eps_inv in Hq as ->.
      exists "im logged in"%string. split; [right; by left|].
      change ([a] ++ [] ++ rest) with (a :: rest).
      unfold Str.toUpperCase in *. rewrite !fmap_cons, Hrest, <- Ha. done. }
  repeat (apply elem_of_cons in Hr as [-> | Hr];
          [apply RegExpFacts.matches_word_fold in Hm;
           match type of Hm with
           | _ = Str.toUpperCase (Str.lit ?w) => exists w
           end;
           split; [repeat first [by left | right] | done] |]).
  by apply elem_of_nil in Hr.
Qed.

Lemma test_login s :
  test true login_re (Str.toLowerCase s)
  = says ["logged in"; "login complete"; "signed in"] (Str.toLowerCase s).
Proof.
  apply Bool.eq_iff_eq_true.
  rewrite RegExpFacts.test_spec, says_spec. split.
  - intros (pre & m & post & Hs & (w & Hw & Hm)%login_matches).
    assert (Hlow : Str.toLowerCase (Str.lit w) = Str.lit w).
    { repeat (apply elem_of_cons in Hw as [-> | Hw]; [done|]).
      by apply elem_of_nil in Hw. }
    assert (m = Str.lit w) as -> by (by eapply folded_piece).
    assert (Hp : Str.contains (Str.lit w) (Str.toLowerCase s)) by (by exists pre, post).
    assert (Hin : (Str.contains (Str.lit "logged in") (Str.lit w)
                   ∧ True)
                  ∨ w ∈ ["logged in"; "login complete"; "signed in"]%string).
    { repeat (apply elem_of_cons in Hw as [-> | Hw];
              [first [ solve [right; repeat first [by left | right]]
                     | left; split; [|done]; apply StrFacts.includes_spec;
                       by vm_compute ] |]).
      by apply elem_of_nil in Hw. }
    destruct Hin as [[Hc _] | Hin].
    + exists "logged in"%string. split; [by left|]. by eapply contains_piece.
    + by exists w.
  - intros (w & Hw & pre & post & Hs). exists pre, (Str.lit w), post.
    split; [done|]. unfold login_re. apply RegExpFacts.matches_alts.
    exists (word (Str.lit w)). split; [|by apply RegExpFacts.matches_word_fold].
    repeat (apply elem_of_cons in Hw as [-> | Hw];
            [repeat first [by left | right] |]).
    by apply elem_of_nil in Hw.
Qed.

Lemma small_letters (ws : list string) :
  forallb (λ w, bool_decide (Str.toLowerCase (Str.lit w) = Str.lit w)) ws = true →
  Forall (λ w, Str.toLowerCase (Str.lit w) = Str.lit w) ws.
Proof.
  rewrite forallb_forall. intros H. apply Forall_forall. intros w Hw.
  apply list_elem_of_In in Hw. specialize (H w Hw).
  by apply bool_decide_eq_true in H.
Qed.

(** X23. [handleUserPrompt] takes the first branch whose test the prompt,
    in small letters, passes.  A prompt that starts with [/capture] is a
    capture command whatever else it says.  Otherwise a prompt that
    contains [logged in], [login complete] or [signed in] confirms the
    login; else one that contains one of the four phrases about documents
    asks for them; else one that contains [explore], [crawl], [surf pages],
    [discover pages] or [find pages] starts the exploration; else one that
    contains one of the seven phrases of description asks for a summary;
    every other prompt is an instruction. *)
Theorem prompt_branch_by_first_match (prompt : Str.t) :
  let p := Str.toLowerCase prompt in
  (Str.startsWith (Str.lit "/capture") p = true →
     let arg := Text.split_ws p !! 1 in
     branch prompt
     = if decide (arg ∈ [None; Some []; Some (Str.lit "on"); Some (Str.lit "start")])
       then capture_on
       else if decide (arg ∈ [Some (Str.lit "off"); Some (Str.lit "stop")])
       then capture_off
       else capture_usage)
  ∧ (Str.startsWith (Str.lit "/capture") p = false →
     branch prompt
     = if says ["logged in"; "login complete"; "signed in"] p
       then login_confirmed
       else if says ["stop capture"; "generate docs"; "document api"; "create docs"] p
       then docs_requested
       else if says ["explore"; "crawl"; "surf pages"; "discover pages"; "find pages"] p
       then exploration
       else if says ["what can you see"; "what do you see"; "describe"; "summarize";
                     "summary"; "what is on"; "what's on"] p
       then description
       else instruction).
Proof.
  intros p. split; intros Hstart; unfold branch; fold p; rewrite Hstart.
  - cbv zeta. set (arg := Text.split_ws p !! 1). clearbody arg.
    destruct arg as [[|c arg]|].
    + by rewrite decide_True by (right; by left).
    + set (a := c :: arg).
      destruct (decide (a = Str.lit "on")) as [-> | Hon]; [done|].
      destruct (decide (a = Str.lit "start")) as [-> | Hst]; [done|].
      rewrite (bool_decide_eq_false_2 (a = Str.lit "on")) by done.
      rewrite (bool_decide_eq_false_2 (a = Str.lit "start")) by done.
      rewrite decide_False.
      2: { intros Hin. repeat (apply elem_of_cons in Hin as [Hin | Hin];
                               [by simplify_eq|]). by apply elem_of_nil in Hin. }
      cbn [orb].
      destruct (decide (a = Str.lit "off")) as [-> | Hoff]; [done|].
      destruct (decide (a = Str.lit "stop")) as [-> | Hsp]; [done|].
      rewrite (bool_decide_eq_false_2 (a = Str.lit "off")) by done.
      rewrite (bool_decide_eq_false_2 (a = Str.lit "stop")) by done.
      rewrite decide_False; [done|].
      intros Hin. repeat (apply elem_of_cons in Hin as [Hin | Hin];
                          [by simplify_eq|]). by apply elem_of_nil in Hin.
    + by rewrite decide_True by (by left).
  - subst p. rewrite test_login.
    unfold docs_re, explore_re, describe_re.
    rewrite !test_says by (by apply small_letters).
    set (p := Str.toLowerCase prompt).
    destruct (says ["logged in"; "login complete"; "signed in"] p); [done|].
    destruct (says ["stop capture"; "generate docs"; "document api"; "create docs"] p);
      [done|].
    assert (Hexp : says ["explore"; "crawl"; "surf pages"; "discover pages";
                         "find pages"; "explore site"] p
                   = says ["explore"; "crawl"; "surf pages"; "discover pages";
                           "find pages"] p).
    { unfold says. cbn [existsb].
      destruct (Str.includes (Str.lit "explore") p) eqn:He; [done|].
      assert (Str.includes (Str.lit "explore site") p = false) as ->; [|done].
      apply not_true_is_false. intros Hc%StrFacts.includes_spec.
      apply not_true_iff_false in He. apply He, StrFacts.includes_spec.
      eapply contains_piece; [|exact Hc]. by exists [], (Str.lit " site"). }
    rewrite Hexp. done.
Qed.

(** A denial that reads as a confirmation, a capture command in capitals,
    a word that starts like the command, and a prompt with words of two
    branches. *)
Example prompt_branches :
  branch (Str.lit "I am not logged in") = login_confirmed
  ∧ branch (Str.lit "/capture   OFF now") = capture_off
  ∧ branch (Str.lit "/captured") = capture_on
  ∧ branch (Str.lit "/capture ") = capture_on
  ∧ branch (Str.lit "Describe how to explore") = exploration
  ∧ branch (Str.lit "click the Save button") = instruction.
Proof. by vm_compute. Qed.

End UserPromptFacts.
